(** * Devconnect Pretix sync service: a shallow embedding

    The development follows [DevconnectPretixSyncService]
    (apps/passport-server, services/devconnectPretixSyncService.ts).

    Conventions of the embedding.
    - A promise is a computation in the monad [M]: it threads the
      [World] (the relational store, the trace of store writes and the
      errors handed to the error reporter) and either resolves with a
      value or rejects with an [Error].  [try ... catch] is [try_catch].
    - Concurrent fan-out ([Promise.all], [Promise.allSettled]) is run in
      list order.  JavaScript never cancels a started promise, so every
      task of a fan-out runs to completion whatever its siblings do.
      The event syncs of an organizer are also given call by call
      ([Task], [Stepwise]), to run them under any interleaving of their
      storage calls.
    - Informational [logger] calls and telemetry span attributes are
      left out; the calls that report an error are kept.
    - The storage queries are collaborators whose code is not part of
      the sources; they are modelled from the specification and, in the
      promises of [M], their calls are taken to succeed.  The rejections
      modelled there are those of the provider client, of the
      configuration source and of the group reload, and the errors the
      service throws itself.  A task run call by call can have any of
      its storage calls reject.
    - Provider numeric ids are natural numbers ([N]); [toString] prints
      them in decimal.
    - [toLowerCase] is the case mapping of ASCII text; the properties
      about lower case are stated for ASCII emails. *)

From Stdlib Require Import List String Ascii Bool Arith NArith Lia.
From Stdlib Require Import DecimalString.
Import ListNotations.
Open Scope string_scope.
Open Scope list_scope.

(* ================================================================= *)
(** ** Strings *)

Definition newline : string := String (ascii_of_nat 10) EmptyString.
Definition dquote : string := String (ascii_of_nat 34) EmptyString.

(** [Number.prototype.toString] on a provider id. *)
Definition toString (n : N) : string :=
  NilZero.string_of_uint (N.to_uint n).

Definition lower_ascii (c : ascii) : ascii :=
  let n := nat_of_ascii c in
  if Nat.leb 65 n && Nat.leb n 90 then ascii_of_nat (n + 32) else c.

(** [String.prototype.toLowerCase], on ASCII text. *)
Fixpoint toLowerCase (s : string) : string :=
  match s with
  | EmptyString => EmptyString
  | String c r => String (lower_ascii c) (toLowerCase r)
  end.

(** [Array.prototype.join]. *)
Definition join (sep : string) (l : list string) : string :=
  String.concat sep l.

Definition is_empty_string (s : string) : bool :=
  match s with EmptyString => true | _ => false end.

Definition isnil {A} (l : list A) : bool :=
  match l with [] => true | _ => false end.

(* ================================================================= *)
(** ** Provider data (devconnectPretixAPI) and configuration *)

Record I18nString := { en : string }.

(** Modelled from the spec: [getI18nString] lives in the provider
    client, which is not part of the sources; a localized name is read
    as its display string. *)
Definition getI18nString (n : I18nString) : string := en n.

Record DevconnectPretixEventSettings := {
  attendee_emails_asked : bool;
  attendee_emails_required : bool
}.

Record DevconnectPretixItem := {
  item_api_id : N;                     (* id *)
  item_api_name : I18nString;          (* name *)
  admission : bool;
  personalized : bool;
  generate_tickets : option bool       (* null / undefined is [None] *)
}.

Record DevconnectPretixEvent := {
  slug : string;
  event_api_name : I18nString          (* name *)
}.

Record DevconnectPretixPosition := {
  pos_id : N;                          (* id *)
  positionid : N;
  pos_item : N;                        (* item *)
  attendee_name : option string;
  attendee_email : option string;      (* null is [None] *)
  pos_secret : string                  (* secret *)
}.

Record DevconnectPretixOrder := {
  code : string;
  order_email : string;                (* email *)
  status : string;
  positions : list DevconnectPretixPosition
}.

Record DevconnectPretixEventConfig := {
  event_config_id : string;            (* id *)
  eventID : string;
  activeItemIDs : list string
}.

Record DevconnectPretixOrganizerConfig := {
  organizer_id : string;               (* id *)
  orgURL : string;
  token : string;
  events : list DevconnectPretixEventConfig
}.

Record DevconnectPretixConfig := {
  organizers : list DevconnectPretixOrganizerConfig
}.

(** Collection of API data for a single event. *)
Record EventData := {
  settings : DevconnectPretixEventSettings;
  eventInfo : DevconnectPretixEvent;
  items : list DevconnectPretixItem;
  tickets : list DevconnectPretixOrder
}.

(** The provider client: a call that rejects is [None]. *)
Record IDevconnectPretixAPI := {
  fetchEventSettings :
    string -> string -> string -> option DevconnectPretixEventSettings;
  fetchItems : string -> string -> string -> option (list DevconnectPretixItem);
  fetchEvent : string -> string -> string -> option DevconnectPretixEvent;
  fetchOrders : string -> string -> string -> option (list DevconnectPretixOrder)
}.

(* ================================================================= *)
(** ** Store rows (database/models) *)

Record PretixEventsInfo := {
  event_info_id : nat;                 (* id *)
  pretix_events_config_id : string;
  event_name : string;
  event_is_deleted : bool              (* is_deleted *)
}.

Record PretixItemInfo := {
  item_info_id : nat;                  (* id *)
  item_id : string;
  devconnect_pretix_events_info_id : nat;
  item_name : string;
  item_is_deleted : bool               (* is_deleted *)
}.

Record DevconnectPretixTicket := {
  email : string;
  full_name : option string;
  devconnect_pretix_items_info_id : nat;
  is_deleted : bool;
  is_consumed : bool;
  position_id : string;
  secret : string
}.

Record Store := {
  events_info : list PretixEventsInfo;
  items_info : list PretixItemInfo;
  tickets_tbl : list DevconnectPretixTicket
}.

Definition empty_store : Store :=
  {| events_info := []; items_info := []; tickets_tbl := [] |}.

(* ================================================================= *)
(** ** JavaScript [Map] built from an array of pairs *)

(** [new Map(l.map(x => [key x, x]))]: a later entry with the same key
    replaces an earlier one, so [get] returns the last match. *)
Definition map_get {A} (key : A -> string) (l : list A) (k : string)
  : option A :=
  find (fun x => String.eqb (key x) k) (rev l).

Definition map_has {A} (key : A -> string) (l : list A) (k : string) : bool :=
  match map_get key l k with Some _ => true | None => false end.

(** [new Set(l).has(k)]. *)
Definition set_has (l : list string) (k : string) : bool :=
  existsb (String.eqb k) l.

(* ================================================================= *)
(** ** The world: store, trace of store writes, reported errors *)

(** One constructor per storage write primitive called by the service. *)
Inductive Write :=
| InsertEventInfo (name config_id : string)
| UpdateEventInfo (id : nat) (name : string) (deleted : bool)
| InsertItemInfo (itemID : string) (event_info : nat) (name : string)
| UpdateItemInfo (id : nat) (name : string) (deleted : bool)
| SoftDeleteItemInfo (id : nat)
| InsertTicket (t : DevconnectPretixTicket)
| UpdateTicket (t : DevconnectPretixTicket)
| SoftDeleteTicket (t : DevconnectPretixTicket).

(** The values thrown by the service (each [new Error(...)] of the
    source) and the rejections of its collaborators. *)
Inductive Error :=
| ApiRejected
    (* a provider call rejected *)
| ConfigNotLoaded
    (* "Pretix Config could not be loaded" *)
| ReloadRejected
    (* semaphoreService.reload() rejected *)
| ApiResponseErrors (organizer : string) (message : string)
    (* "Errors were encountered in the API response when synchronizing
       organizer ...:\n" + errors.join("\n") *)
| EventInfoNotFound (config_id : string)
    (* "Couldn't find an event info matching event config id ..." *)
| ActiveItemsMissing (old_set new_set : list string).
    (* "One or more of event's active items no longer exist on Pretix.
       old event set: ... new event set: ..." *)

Record World := {
  db : Store;
  writes : list Write;
  reported : list Error
}.

Definition init_world (s : Store) : World :=
  {| db := s; writes := []; reported := [] |}.

Inductive Outcome (A : Type) :=
| Resolved (a : A)
| Rejected (e : Error).
Arguments Resolved {A} a.
Arguments Rejected {A} e.

Definition M (A : Type) : Type := World -> Outcome A * World.

Definition ret {A} (a : A) : M A := fun w => (Resolved a, w).

Definition throw {A} (e : Error) : M A := fun w => (Rejected e, w).

Definition bind {A B} (m : M A) (k : A -> M B) : M B :=
  fun w =>
    match m w with
    | (Resolved a, w') => k a w'
    | (Rejected e, w') => (Rejected e, w')
    end.

Definition try_catch {A} (m : M A) (handler : Error -> M A) : M A :=
  fun w =>
    match m w with
    | (Resolved a, w') => (Resolved a, w')
    | (Rejected e, w') => handler e w'
    end.

Declare Scope sync_scope.
Delimit Scope sync_scope with sync.
Notation "x <- c ;; k" := (bind c (fun x => k))
  (at level 61, c at next level, right associativity) : sync_scope.
Notation "c ;; k" := (bind c (fun _ => k))
  (at level 61, right associativity) : sync_scope.
Open Scope sync_scope.

(** [for (const x of l) { await f(x) }]. *)
Fixpoint for_each {A} (l : list A) (f : A -> M unit) : M unit :=
  match l with
  | [] => ret tt
  | x :: r => f x ;; for_each r f
  end.

(** [Promise.all]: every task runs; the join rejects with the first
    rejection and otherwise resolves with all the values. *)
Fixpoint promise_all {A} (tasks : list (M A)) : M (list A) :=
  match tasks with
  | [] => ret []
  | t :: r =>
      fun w =>
        match t w with
        | (Resolved a, w1) =>
            match promise_all r w1 with
            | (Resolved l, w2) => (Resolved (a :: l), w2)
            | (Rejected e, w2) => (Rejected e, w2)
            end
        | (Rejected e, w1) => (Rejected e, snd (promise_all r w1))
        end
  end.

(** [Promise.allSettled]: every task runs; the join always resolves, with
    the outcome of each task. *)
Fixpoint promise_allSettled {A} (tasks : list (M A)) : M (list (Outcome A)) :=
  match tasks with
  | [] => ret []
  | t :: r =>
      fun w =>
        let (o, w1) := t w in
        match promise_allSettled r w1 with
        | (Resolved l, w2) => (Resolved (o :: l), w2)
        | (Rejected e, w2) => (Rejected e, w2)
        end
  end.

(** [rollbarService?.reportError(e)] (together with [setError]). *)
Definition reportError (e : Error) : M unit :=
  fun w =>
    (Resolved tt,
     {| db := db w; writes := writes w; reported := reported w ++ [e] |}).

(** A provider call. *)
Definition await_api {A} (r : option A) : M A :=
  match r with
  | Some a => ret a
  | None => throw ApiRejected
  end.

(** A storage read. *)
Definition query {A} (q : Store -> A) : M A :=
  fun w => (Resolved (q (db w)), w).

(* ================================================================= *)
(** ** Storage primitives (database/queries) *)

Definition fresh_id (ids : list nat) : nat := S (list_max ids).

Definition option_string_eqb (a b : option string) : bool :=
  match a, b with
  | Some x, Some y => String.eqb x y
  | None, None => true
  | _, _ => false
  end.

Module StoreModel.

(** Modelled from the spec: the query modules under database/queries
    ([fetchPretixEventInfo], [insertPretixEventsInfo],
    [updatePretixEventsInfo]) are missing from the sources.  EventInfo is
    fetched by event-config id; an insert creates a row with a fresh id;
    an update rewrites the display name and the deletion flag of the row
    with the given id. *)
Definition fetchPretixEventInfo (s : Store) (config_id : string)
  : option PretixEventsInfo :=
  find (fun e => String.eqb (pretix_events_config_id e) config_id)
       (events_info s).

(** Modelled from the spec: the fields an EventInfo update rewrites. *)
Definition set_event (name : string) (deleted : bool) (e : PretixEventsInfo)
  : PretixEventsInfo :=
  {| event_info_id := event_info_id e;
     pretix_events_config_id := pretix_events_config_id e;
     event_name := name;
     event_is_deleted := deleted |}.

(** Modelled from the spec: [insertPretixEventsInfo] on the table. *)
Definition insert_event (name config_id : string)
  (t : list PretixEventsInfo) : list PretixEventsInfo :=
  t ++ [ {| event_info_id := fresh_id (map event_info_id t);
            pretix_events_config_id := config_id;
            event_name := name;
            event_is_deleted := false |} ].

(** Modelled from the spec: [updatePretixEventsInfo] on the table. *)
Definition update_event (id : nat) (name : string) (deleted : bool)
  (t : list PretixEventsInfo) : list PretixEventsInfo :=
  map (fun e => if Nat.eqb (event_info_id e) id
                then set_event name deleted e else e) t.

(** Modelled from the spec: [fetchPretixItemsInfoByEvent],
    [insertPretixItemsInfo], [updatePretixItemsInfo] and
    [softDeletePretixItemInfo] are missing from the sources.  The fetch
    returns the active (not soft-deleted) rows of the event; the natural
    key of a row is (event, provider item id) and an insert on an existing
    natural key turns the row back to active with the new name instead of
    duplicating it; a soft-delete only marks the row. *)
Definition fetchPretixItemsInfoByEvent (s : Store) (event_info : nat)
  : list PretixItemInfo :=
  filter (fun i => Nat.eqb (devconnect_pretix_events_info_id i) event_info
                   && negb (item_is_deleted i))
         (items_info s).

(** Modelled from the spec: the fields an ItemInfo write rewrites. *)
Definition set_item (name : string) (deleted : bool) (i : PretixItemInfo)
  : PretixItemInfo :=
  {| item_info_id := item_info_id i;
     item_id := item_id i;
     devconnect_pretix_events_info_id := devconnect_pretix_events_info_id i;
     item_name := name;
     item_is_deleted := deleted |}.

(** Modelled from the spec: the row has the natural key (event, item id). *)
Definition item_key_is (itemID : string) (event_info : nat)
  (i : PretixItemInfo) : bool :=
  Nat.eqb (devconnect_pretix_events_info_id i) event_info
  && String.eqb (item_id i) itemID.

(** Modelled from the spec: [insertPretixItemsInfo] on the table. *)
Definition insert_item (itemID : string) (event_info : nat) (name : string)
  (t : list PretixItemInfo) : list PretixItemInfo :=
  if existsb (item_key_is itemID event_info) t
  then map (fun i => if item_key_is itemID event_info i
                     then set_item name false i else i) t
  else t ++ [ {| item_info_id := fresh_id (map item_info_id t);
                 item_id := itemID;
                 devconnect_pretix_events_info_id := event_info;
                 item_name := name;
                 item_is_deleted := false |} ].

(** Modelled from the spec: [updatePretixItemsInfo] on the table. *)
Definition update_item (id : nat) (name : string) (deleted : bool)
  (t : list PretixItemInfo) : list PretixItemInfo :=
  map (fun i => if Nat.eqb (item_info_id i) id
                then set_item name deleted i else i) t.

(** Modelled from the spec: [softDeletePretixItemInfo] on the table. *)
Definition soft_delete_item (id : nat) (t : list PretixItemInfo)
  : list PretixItemInfo :=
  map (fun i => if Nat.eqb (item_info_id i) id
                then set_item (item_name i) true i else i) t.

(** Modelled from the spec: [fetchDevconnectPretixTicketsByEvent],
    [insertDevconnectPretixTicket], [updateDevconnectPretixTicket] and
    [softDeleteDevconnectPretixTicket] are missing from the sources.  The
    natural key of a ticket is its position id.  The fetch returns the
    active tickets whose item belongs to the event with the given config
    id.  Insert and update write email, name, owning item, deletion flag
    and secret; on an existing position id the insert rewrites the row
    instead of duplicating it.  The consumed flag belongs to the
    redemption logic: it is set only when a row is created. *)
Definition ticket_in_event (s : Store) (config_id : string)
  (t : DevconnectPretixTicket) : bool :=
  existsb
    (fun i =>
       Nat.eqb (item_info_id i) (devconnect_pretix_items_info_id t)
       && existsb
            (fun e =>
               Nat.eqb (event_info_id e) (devconnect_pretix_events_info_id i)
               && String.eqb (pretix_events_config_id e) config_id)
            (events_info s))
    (items_info s).

(** Modelled from the spec: the active tickets of the event. *)
Definition fetchDevconnectPretixTicketsByEvent (s : Store)
  (config_id : string) : list DevconnectPretixTicket :=
  filter (fun t => ticket_in_event s config_id t && negb (is_deleted t))
         (tickets_tbl s).

(** Modelled from the spec: the fields a ticket insert or update
    rewrites in the existing row [o]; the consumed flag is kept. *)
Definition set_ticket (n o : DevconnectPretixTicket) : DevconnectPretixTicket :=
  {| email := email n;
     full_name := full_name n;
     devconnect_pretix_items_info_id := devconnect_pretix_items_info_id n;
     is_deleted := is_deleted n;
     is_consumed := is_consumed o;
     position_id := position_id o;
     secret := secret n |}.

(** Modelled from the spec: a soft-delete only marks the row. *)
Definition set_ticket_deleted (o : DevconnectPretixTicket)
  : DevconnectPretixTicket :=
  {| email := email o;
     full_name := full_name o;
     devconnect_pretix_items_info_id := devconnect_pretix_items_info_id o;
     is_deleted := true;
     is_consumed := is_consumed o;
     position_id := position_id o;
     secret := secret o |}.

(** Modelled from the spec: the row has the position id of [n]. *)
Definition same_position (n o : DevconnectPretixTicket) : bool :=
  String.eqb (position_id o) (position_id n).

(** Modelled from the spec: [updateDevconnectPretixTicket] on the table. *)
Definition update_ticket (n : DevconnectPretixTicket)
  (t : list DevconnectPretixTicket) : list DevconnectPretixTicket :=
  map (fun o => if same_position n o then set_ticket n o else o) t.

(** Modelled from the spec: [insertDevconnectPretixTicket] on the table. *)
Definition insert_ticket (n : DevconnectPretixTicket)
  (t : list DevconnectPretixTicket) : list DevconnectPretixTicket :=
  if existsb (same_position n) t then update_ticket n t else t ++ [n].

(** Modelled from the spec: [softDeleteDevconnectPretixTicket] on the
    table. *)
Definition soft_delete_ticket (n : DevconnectPretixTicket)
  (t : list DevconnectPretixTicket) : list DevconnectPretixTicket :=
  map (fun o => if same_position n o then set_ticket_deleted o else o) t.

(** Modelled from the spec: the effect of one storage write on the
    store. *)
Definition apply_write (wr : Write) (s : Store) : Store :=
  match wr with
  | InsertEventInfo name config_id =>
      {| events_info := insert_event name config_id (events_info s);
         items_info := items_info s; tickets_tbl := tickets_tbl s |}
  | UpdateEventInfo id name deleted =>
      {| events_info := update_event id name deleted (events_info s);
         items_info := items_info s; tickets_tbl := tickets_tbl s |}
  | InsertItemInfo itemID event_info name =>
      {| events_info := events_info s;
         items_info := insert_item itemID event_info name (items_info s);
         tickets_tbl := tickets_tbl s |}
  | UpdateItemInfo id name deleted =>
      {| events_info := events_info s;
         items_info := update_item id name deleted (items_info s);
         tickets_tbl := tickets_tbl s |}
  | SoftDeleteItemInfo id =>
      {| events_info := events_info s;
         items_info := soft_delete_item id (items_info s);
         tickets_tbl := tickets_tbl s |}
  | InsertTicket t =>
      {| events_info := events_info s; items_info := items_info s;
         tickets_tbl := insert_ticket t (tickets_tbl s) |}
  | UpdateTicket t =>
      {| events_info := events_info s; items_info := items_info s;
         tickets_tbl := update_ticket t (tickets_tbl s) |}
  | SoftDeleteTicket t =>
      {| events_info := events_info s; items_info := items_info s;
         tickets_tbl := soft_delete_ticket t (tickets_tbl s) |}
  end.

End StoreModel.
Import StoreModel.

(** Modelled from the spec: [pretixTicketsDifferent] (util/devconnectTicket)
    is missing from the sources.  Two tickets differ when one of the
    comparison-relevant fields differs: email, name, owning item, deletion
    flag, secret; the consumed flag is not compared. *)
Definition pretixTicketsDifferent (oldTicket newTicket : DevconnectPretixTicket)
  : bool :=
  negb (String.eqb (email oldTicket) (email newTicket)
        && option_string_eqb (full_name oldTicket) (full_name newTicket)
        && Nat.eqb (devconnect_pretix_items_info_id oldTicket)
                   (devconnect_pretix_items_info_id newTicket)
        && Bool.eqb (is_deleted oldTicket) (is_deleted newTicket)
        && String.eqb (secret oldTicket) (secret newTicket)).

(** A storage write: the call is traced and takes effect. *)
Definition store_write (wr : Write) : M unit :=
  fun w =>
    (Resolved tt,
     {| db := apply_write wr (db w);
        writes := writes w ++ [wr];
        reported := reported w |}).

Definition insertPretixEventsInfo (name config_id : string) : M unit :=
  store_write (InsertEventInfo name config_id).
Definition updatePretixEventsInfo (id : nat) (name : string) (deleted : bool)
  : M unit :=
  store_write (UpdateEventInfo id name deleted).
Definition insertPretixItemsInfo (itemID : string) (event_info : nat)
  (name : string) : M unit :=
  store_write (InsertItemInfo itemID event_info name).
Definition updatePretixItemsInfo (id : nat) (name : string) (deleted : bool)
  : M unit :=
  store_write (UpdateItemInfo id name deleted).
Definition softDeletePretixItemInfo (id : nat) : M unit :=
  store_write (SoftDeleteItemInfo id).
Definition insertDevconnectPretixTicket (t : DevconnectPretixTicket) : M unit :=
  store_write (InsertTicket t).
Definition updateDevconnectPretixTicket (t : DevconnectPretixTicket) : M unit :=
  store_write (UpdateTicket t).
Definition softDeleteDevconnectPretixTicket (t : DevconnectPretixTicket)
  : M unit :=
  store_write (SoftDeleteTicket t).

(* ================================================================= *)
(** ** Validation of the provider responses *)

Definition validateEventSettings (st : DevconnectPretixEventSettings)
  : list string :=
  if negb (attendee_emails_asked st) || negb (attendee_emails_required st)
  then [ (dquote ++ "Ask for email addresses per ticket" ++ dquote
          ++ " setting should be set to " ++ dquote
          ++ "Ask and require input" ++ dquote)%string ]
  else [].

Definition validateEventItem (item : DevconnectPretixItem) : list string :=
  (if negb (admission item)
   then [ ("Product type is not " ++ dquote ++ "Admission" ++ dquote)%string ]
   else [])
  ++ (if negb (personalized item)
      then [ (dquote ++ "Personalization" ++ dquote ++ " is not set to "
              ++ dquote ++ "Personalized ticket" ++ dquote)%string ]
      else [])
  ++ (match generate_tickets item with
      | Some true =>
          [ (dquote ++ "Generate tickets" ++ dquote ++ " is not set to "
             ++ dquote ++ "Choose automatically depending on event settings"
             ++ dquote ++ " or " ++ dquote ++ "Never" ++ dquote)%string ]
      | _ => []
      end).

(** Check all of the API responses for an event before syncing them. *)
Definition checkEventData (eventData : EventData)
  (eventConfig : DevconnectPretixEventConfig) : list string :=
  let activeItemIdSet := activeItemIDs eventConfig in
  let info := eventInfo eventData in
  let eventSettingErrors := validateEventSettings (settings eventData) in
  (if negb (isnil eventSettingErrors)
   then [ ("Event settings for " ++ dquote ++ en (event_api_name info)
           ++ dquote ++ " (" ++ slug info ++ ") are invalid:" ++ newline
           ++ join newline eventSettingErrors)%string ]
   else [])
  ++ flat_map
       (fun item =>
          if set_has activeItemIdSet (toString (item_api_id item))
          then
            let itemErrors := validateEventItem item in
            if negb (isnil itemErrors)
            then [ ("Product " ++ dquote ++ en (item_api_name item) ++ dquote
                    ++ " (" ++ toString (item_api_id item) ++ ") in event "
                    ++ dquote ++ en (event_api_name info) ++ dquote
                    ++ " is invalid:" ++ newline
                    ++ join newline itemErrors)%string ]
            else []
          else [])
       (items eventData).

(* ================================================================= *)
(** ** Order to ticket conversion *)

(** The payload logged when a position has no attendee email. *)
Record FallbackLog := {
  orderCode : string;
  positionID : N;
  orderEmail : string
}.

(** JavaScript truthiness of [attendee_email]. *)
Definition truthy (s : option string) : bool :=
  match s with
  | Some x => negb (is_empty_string x)
  | None => false
  end.

(** [attendee_email || order.email]. *)
Definition email_or (attendee : option string) (fallback : string) : string :=
  match attendee with
  | Some x => if is_empty_string x then fallback else x
  | None => fallback
  end.

(** The body of the inner loop: the ticket pushed for one position (if
    its item is known) and the message logged (if any). *)
Definition convertPosition (order : DevconnectPretixOrder)
  (itemsInfo : list PretixItemInfo) (p : DevconnectPretixPosition)
  : list DevconnectPretixTicket * list FallbackLog :=
  match map_get item_id itemsInfo (toString (pos_item p)) with
  | Some existingItem =>
      ([ {| email := toLowerCase (email_or (attendee_email p)
                                           (order_email order));
            full_name := attendee_name p;
            devconnect_pretix_items_info_id := item_info_id existingItem;
            is_deleted := false;
            is_consumed := false;
            position_id := toString (pos_id p);
            secret := pos_secret p |} ],
       if negb (truthy (attendee_email p))
       then [ {| orderCode := code order;
                 positionID := positionid p;
                 orderEmail := order_email order |} ]
       else [])
  | None => ([], [])
  end.

(** The body of the outer loop. *)
Definition convertOrder (itemsInfo : list PretixItemInfo)
  (order : DevconnectPretixOrder)
  : list DevconnectPretixTicket * list FallbackLog :=
  if negb (String.eqb (status order) "p")
  then ([], [])
  else (flat_map (fun p => fst (convertPosition order itemsInfo p))
                 (positions order),
        flat_map (fun p => snd (convertPosition order itemsInfo p))
                 (positions order)).

(** Converts a list of orders to tickets; the second component is what
    the conversion logs. *)
Definition ordersToDevconnectTickets (orders : list DevconnectPretixOrder)
  (itemsInfo : list PretixItemInfo)
  : list DevconnectPretixTicket * list FallbackLog :=
  (flat_map (fun o => fst (convertOrder itemsInfo o)) orders,
   flat_map (fun o => snd (convertOrder itemsInfo o)) orders).

(* ================================================================= *)
(** ** The sync service *)

(** Fetch all of the API responses necessary to sync an event. *)
Definition fetchEventData (api : IDevconnectPretixAPI)
  (organizer : DevconnectPretixOrganizerConfig)
  (event : DevconnectPretixEventConfig) : M EventData :=
  let url := orgURL organizer in
  let tok := token organizer in
  let ev := eventID event in
  st <- await_api (fetchEventSettings api url tok ev) ;;
  its <- await_api (fetchItems api url tok ev) ;;
  info <- await_api (fetchEvent api url tok ev) ;;
  tks <- await_api (fetchOrders api url tok ev) ;;
  ret {| settings := st; eventInfo := info; items := its; tickets := tks |}.

(** Sync, and update data for Pretix event.  Returns whether the update
    was successful. *)
Definition syncEventInfos (organizer : DevconnectPretixOrganizerConfig)
  (event : DevconnectPretixEventConfig) (info : DevconnectPretixEvent)
  : M bool :=
  let eventConfigID := event_config_id event in
  try_catch
    (let eventNameFromAPI := en (event_api_name info) in
     existingEvent <- query (fun s => fetchPretixEventInfo s eventConfigID) ;;
     match existingEvent with
     | None => insertPretixEventsInfo eventNameFromAPI eventConfigID
     | Some ex =>
         updatePretixEventsInfo (event_info_id ex) eventNameFromAPI false
     end ;;
     ret true)
    (fun e => reportError e ;; ret false).

Definition api_item_key (i : DevconnectPretixItem) : string :=
  toString (item_api_id i).

(** The three work lists of the item phase. *)
Definition newActiveItemsOf (activeIDs : list string)
  (itemsFromAPI : list DevconnectPretixItem) : list DevconnectPretixItem :=
  filter (fun i => set_has activeIDs (api_item_key i)) itemsFromAPI.

Definition itemsToInsertOf (newActiveItems : list DevconnectPretixItem)
  (existingItemsInfo : list PretixItemInfo) : list DevconnectPretixItem :=
  filter (fun i => negb (map_has item_id existingItemsInfo (api_item_key i)))
         newActiveItems.

Definition itemsToUpdateOf (newActiveItems : list DevconnectPretixItem)
  (existingItemsInfo : list PretixItemInfo) : list DevconnectPretixItem :=
  filter
    (fun i =>
       match map_get item_id existingItemsInfo (api_item_key i) with
       | Some oldItem =>
           negb (String.eqb (item_name oldItem)
                            (getI18nString (item_api_name i)))
       | None => false
       end)
    (filter (fun i => map_has item_id existingItemsInfo (api_item_key i))
            newActiveItems).

Definition itemsToRemoveOf (newActiveItems : list DevconnectPretixItem)
  (existingItemsInfo : list PretixItemInfo) : list PretixItemInfo :=
  filter (fun existing =>
            negb (map_has api_item_key newActiveItems (item_id existing)))
         existingItemsInfo.

(** Sync, check, and update data for Pretix active items under event.
    Returns whether the update was successful. *)
Definition syncItemInfos (organizer : DevconnectPretixOrganizerConfig)
  (event : DevconnectPretixEventConfig)
  (itemsFromAPI : list DevconnectPretixItem) : M bool :=
  let eventConfigID := event_config_id event in
  let activeIDs := activeItemIDs event in
  try_catch
    (found <- query (fun s => fetchPretixEventInfo s eventConfigID) ;;
     match found with
     | None => throw (EventInfoNotFound eventConfigID)
     | Some info =>
         let newItemIDsSet := map api_item_key itemsFromAPI in
         if existsb (fun i => negb (set_has newItemIDsSet i)) activeIDs
         then throw (ActiveItemsMissing activeIDs newItemIDsSet)
         else
           let newActiveItems := newActiveItemsOf activeIDs itemsFromAPI in
           existingItemsInfo <-
             query (fun s => fetchPretixItemsInfoByEvent s (event_info_id info)) ;;
           (* Step 1 of saving: insert items that are new *)
           for_each (itemsToInsertOf newActiveItems existingItemsInfo)
             (fun item =>
                insertPretixItemsInfo (api_item_key item) (event_info_id info)
                  (getI18nString (item_api_name item))) ;;
           (* Step 2 of saving: update items that have changed *)
           for_each (itemsToUpdateOf newActiveItems existingItemsInfo)
             (fun item =>
                match map_get item_id existingItemsInfo (api_item_key item) with
                | Some oldItem =>
                    updatePretixItemsInfo (item_info_id oldItem)
                      (getI18nString (item_api_name item)) false
                | None => ret tt   (* not reached: filtered on [has] *)
                end) ;;
           (* Step 3 of saving: remove items that are not active anymore *)
           for_each (itemsToRemoveOf newActiveItems existingItemsInfo)
             (fun item => softDeletePretixItemInfo (item_info_id item)) ;;
           ret true
     end)
    (fun e => reportError e ;; ret false).

(** The three work lists of the ticket phase. *)
Definition newTicketsOf (ticketsFromPretix existingTickets
  : list DevconnectPretixTicket) : list DevconnectPretixTicket :=
  filter (fun t => negb (map_has position_id existingTickets (position_id t)))
         ticketsFromPretix.

Definition updatedTicketsOf (ticketsFromPretix existingTickets
  : list DevconnectPretixTicket) : list DevconnectPretixTicket :=
  filter
    (fun t =>
       match map_get position_id existingTickets (position_id t) with
       | Some oldTicket => pretixTicketsDifferent oldTicket t
       | None => false
       end)
    (filter (fun t => map_has position_id existingTickets (position_id t))
            ticketsFromPretix).

Definition removedTicketsOf (ticketsFromPretix existingTickets
  : list DevconnectPretixTicket) : list DevconnectPretixTicket :=
  filter (fun existing =>
            negb (map_has position_id ticketsFromPretix (position_id existing)))
         existingTickets.

(** Sync and update data for Pretix tickets under event.  Returns whether
    the update was successful. *)
Definition syncTickets (organizer : DevconnectPretixOrganizerConfig)
  (event : DevconnectPretixEventConfig)
  (pretixOrders : list DevconnectPretixOrder) : M bool :=
  let eventConfigID := event_config_id event in
  try_catch
    (found <- query (fun s => fetchPretixEventInfo s eventConfigID) ;;
     match found with
     | None => throw (EventInfoNotFound eventConfigID)
     | Some info =>
         (* Fetch updated version after DB updates *)
         updatedItemsInfo <-
           query (fun s => fetchPretixItemsInfoByEvent s (event_info_id info)) ;;
         let ticketsFromPretix :=
           fst (ordersToDevconnectTickets pretixOrders updatedItemsInfo) in
         existingTickets <-
           query (fun s => fetchDevconnectPretixTicketsByEvent s eventConfigID) ;;
         (* Step 1 of saving: insert tickets that are new *)
         for_each (newTicketsOf ticketsFromPretix existingTickets)
           insertDevconnectPretixTicket ;;
         (* Step 2 of saving: update tickets that have changed *)
         for_each (updatedTicketsOf ticketsFromPretix existingTickets)
           updateDevconnectPretixTicket ;;
         (* Step 3 of saving: soft delete tickets that don't exist anymore *)
         for_each (removedTicketsOf ticketsFromPretix existingTickets)
           softDeleteDevconnectPretixTicket ;;
         ret true
     end)
    (fun e => reportError e ;; ret false).

(** Sync a single event: event info, then items, then tickets. *)
Definition syncEvent (organizer : DevconnectPretixOrganizerConfig)
  (event : DevconnectPretixEventConfig) (eventData : EventData) : M unit :=
  try_catch
    (ok1 <- syncEventInfos organizer event (eventInfo eventData) ;;
     if negb ok1 then ret tt
     else
       ok2 <- syncItemInfos organizer event (items eventData) ;;
       if negb ok2 then ret tt
       else
         ok3 <- syncTickets organizer event (tickets eventData) ;;
         if negb ok3 then ret tt else ret tt)
    (fun e => reportError e).

(** Sync an organizer's events.  Resolves with the settled event syncs,
    or with [None] (undefined) when the sync was aborted. *)
Definition syncOrganizer (api : IDevconnectPretixAPI)
  (organizer : DevconnectPretixOrganizerConfig)
  : M (option (list (Outcome unit))) :=
  try_catch
    ((* First, let's fetch the data for all of the events *)
     allEventData <-
       promise_all
         (map (fun event =>
                 data <- fetchEventData api organizer event ;;
                 ret (event, data))
              (events organizer)) ;;
     (* Find errors in any of the event data *)
     let errors :=
       flat_map (fun ed => checkEventData (snd ed) (fst ed)) allEventData in
     if negb (isnil errors)
     then throw (ApiResponseErrors (organizer_id organizer)
                   (join newline errors))
     else
       (* Everything is OK, let's do the actual syncing *)
       settled <-
         promise_allSettled
           (map (fun ed => syncEvent organizer (fst ed) (snd ed))
                allEventData) ;;
       ret (Some settled))
    (fun e => reportError e ;; ret None).

(** Download Pretix state, and apply a diff to our state. *)
Definition sync (api : IDevconnectPretixAPI)
  (pretixConfig : DevconnectPretixConfig) : M unit :=
  try_catch
    (promise_all (map (syncOrganizer api) (organizers pretixConfig)) ;;
     ret tt)
    (fun e => reportError e).

(* ================================================================= *)
(** ** The service object, its timer and the sync loop *)

Record Service := {
  pretixAPI : IDevconnectPretixAPI;
  timeout : option nat;                (* NodeJS.Timeout | undefined *)
  hasCompletedSyncSinceStarting : bool
}.

(** What the collaborators of one pass answer: the configuration source
    ([None] when the configuration cannot be loaded) and whether the
    group-membership reload resolves. *)
Record PassEnv := {
  loaded_config : option DevconnectPretixConfig;
  reload_resolves : bool
}.

Definition new_service (api : IDevconnectPretixAPI) : Service :=
  {| pretixAPI := api; timeout := None;
     hasCompletedSyncSinceStarting := false |}.

(** Modelled from the spec: the configuration source is not part of the
    sources; it returns the current configuration or fails. *)
Definition getDevconnectPretixConfig (env : PassEnv)
  : M (option DevconnectPretixConfig) :=
  ret (loaded_config env).

(** Modelled from the spec: [semaphoreService.reload()], the downstream
    group-membership reload, resolves or rejects. *)
Definition semaphore_reload (env : PassEnv) : M unit :=
  if reload_resolves env then ret tt else throw ReloadRejected.

(** The [try] block of [trySync]. *)
Definition trySync_body (api : IDevconnectPretixAPI) (env : PassEnv) : M unit :=
  cfg <- getDevconnectPretixConfig env ;;
  match cfg with
  | None => throw ConfigNotLoaded
  | Some devconnectPretixConfig =>
      sync api devconnectPretixConfig ;;
      semaphore_reload env
  end.

Definition trySync (env : PassEnv) (svc : Service) (w : World)
  : Service * World :=
  match trySync_body (pretixAPI svc) env w with
  | (Resolved _, w') =>
      ({| pretixAPI := pretixAPI svc; timeout := timeout svc;
          hasCompletedSyncSinceStarting := true |}, w')
  | (Rejected e, w') => (svc, snd (reportError e w'))
  end.

(** The timers of the runtime and the sync loops whose pass is in
    flight. *)
Record Engine := {
  service : Service;
  world : World;
  armed : list nat;                    (* pending timers *)
  next_handle : nat;
  in_flight : nat                      (* loops awaiting [this.trySync()] *)
}.

Definition new_engine (api : IDevconnectPretixAPI) (s : Store) : Engine :=
  {| service := new_service api; world := init_world s;
     armed := []; next_handle := 0; in_flight := 0 |}.

Definition clearTimeout (h : nat) (l : list nat) : list nat :=
  filter (fun x => negb (Nat.eqb x h)) l.

(** [startSyncLoop]: the closure is called once; its pass is in flight. *)
Definition startSyncLoop (e : Engine) : Engine :=
  {| service := service e; world := world e; armed := armed e;
     next_handle := next_handle e; in_flight := S (in_flight e) |}.

(** A loop's [await this.trySync()] returns: the timer for the next pass
    is armed and stored in [this.timeout]. *)
Definition pass_completes (env : PassEnv) (e : Engine) : Engine :=
  match in_flight e with
  | O => e
  | S n =>
      let (svc, w) := trySync env (service e) (world e) in
      {| service := {| pretixAPI := pretixAPI svc;
                       timeout := Some (next_handle e);
                       hasCompletedSyncSinceStarting :=
                         hasCompletedSyncSinceStarting svc |};
         world := w;
         armed := next_handle e :: armed e;
         next_handle := S (next_handle e);
         in_flight := n |}
  end.

(** A pending timer fires and calls the closure again. *)
Definition timer_fires (h : nat) (e : Engine) : Engine :=
  if existsb (Nat.eqb h) (armed e)
  then {| service := service e; world := world e;
          armed := clearTimeout h (armed e);
          next_handle := next_handle e; in_flight := S (in_flight e) |}
  else e.

Definition stop (e : Engine) : Engine :=
  match timeout (service e) with
  | Some h =>
      {| service := service e; world := world e;
         armed := clearTimeout h (armed e);
         next_handle := next_handle e; in_flight := in_flight e |}
  | None => e
  end.

Definition wasRunning (e : Engine) : bool :=
  match timeout (service e) with Some _ => true | None => false end.

Definition replaceApi (newAPI : IDevconnectPretixAPI) (e : Engine) : Engine :=
  let e1 := if wasRunning e then stop e else e in
  let e2 :=
    {| service := {| pretixAPI := newAPI;
                     timeout := timeout (service e1);
                     hasCompletedSyncSinceStarting := false |};
       world := world e1; armed := armed e1;
       next_handle := next_handle e1; in_flight := in_flight e1 |} in
  if wasRunning e then startSyncLoop e2 else e2.

(** The sync loop is alive when a pass is in flight or a timer is
    pending. *)
Definition loop_alive (e : Engine) : bool :=
  negb (Nat.eqb (in_flight e) 0) || negb (isnil (armed e)).

(* ================================================================= *)
(** ** Sample provider data and configuration *)

Module Samples.

Definition good_settings : DevconnectPretixEventSettings :=
  {| attendee_emails_asked := true; attendee_emails_required := true |}.

Definition bad_settings : DevconnectPretixEventSettings :=
  {| attendee_emails_asked := true; attendee_emails_required := false |}.

Definition item7 : DevconnectPretixItem :=
  {| item_api_id := 7; item_api_name := {| en := "General admission" |};
     admission := true; personalized := true; generate_tickets := None |}.

Definition item8 : DevconnectPretixItem :=
  {| item_api_id := 8; item_api_name := {| en := "Workshop" |};
     admission := true; personalized := true; generate_tickets := Some false |}.

Definition position1 : DevconnectPretixPosition :=
  {| pos_id := 1001; positionid := 1; pos_item := 7;
     attendee_name := Some "Ada"; attendee_email := Some "A@X.com";
     pos_secret := "s1" |}.

Definition position2 : DevconnectPretixPosition :=
  {| pos_id := 1002; positionid := 2; pos_item := 7;
     attendee_name := None; attendee_email := None;
     pos_secret := "s2" |}.

Definition position3 : DevconnectPretixPosition :=
  {| pos_id := 2001; positionid := 1; pos_item := 8;
     attendee_name := Some "Bob"; attendee_email := Some "bob@y.org";
     pos_secret := "s3" |}.

Definition paid_order : DevconnectPretixOrder :=
  {| code := "AAA"; order_email := "Buyer@X.com"; status := "p";
     positions := [position1; position2] |}.

Definition position4 : DevconnectPretixPosition :=
  {| pos_id := 1003; positionid := 1; pos_item := 7;
     attendee_name := Some "Eve"; attendee_email := Some "eve@x.com";
     pos_secret := "s4" |}.

Definition pending_order : DevconnectPretixOrder :=
  {| code := "BBB"; order_email := "late@x.com"; status := "n";
     positions := [position4] |}.

Definition paid_order_b : DevconnectPretixOrder :=
  {| code := "CCC"; order_email := "bob@y.org"; status := "p";
     positions := [position3] |}.

Definition event_a : DevconnectPretixEventConfig :=
  {| event_config_id := "cfg-a"; eventID := "event-a";
     activeItemIDs := ["7"] |}.

Definition event_b : DevconnectPretixEventConfig :=
  {| event_config_id := "cfg-b"; eventID := "event-b";
     activeItemIDs := ["8"] |}.

Definition event_c : DevconnectPretixEventConfig :=
  {| event_config_id := "cfg-c"; eventID := "event-c";
     activeItemIDs := ["8"] |}.

Definition organizer1 : DevconnectPretixOrganizerConfig :=
  {| organizer_id := "org-1"; orgURL := "https://one.example";
     token := "t1"; events := [event_a; event_b] |}.

Definition organizer2 : DevconnectPretixOrganizerConfig :=
  {| organizer_id := "org-2"; orgURL := "https://two.example";
     token := "t2"; events := [event_c] |}.

Definition data_a : EventData :=
  {| settings := good_settings;
     eventInfo := {| slug := "event-a"; event_api_name := {| en := "Event A" |} |};
     items := [item7];
     tickets := [paid_order; pending_order] |}.

Definition data_b : EventData :=
  {| settings := good_settings;
     eventInfo := {| slug := "event-b"; event_api_name := {| en := "Event B" |} |};
     items := [item8];
     tickets := [paid_order_b] |}.

(** Event A's data with item 7 gone from the provider. *)
Definition data_a_drift : EventData :=
  {| settings := good_settings; eventInfo := eventInfo data_a;
     items := [item8]; tickets := tickets data_a |}.

Definition is_event_a (ev : string) : bool := String.eqb ev "event-a".

(** Every call resolves. *)
Definition api_ok : IDevconnectPretixAPI :=
  {| fetchEventSettings := fun _ _ _ => Some good_settings;
     fetchItems := fun _ _ ev =>
       Some (if is_event_a ev then [item7] else [item8]);
     fetchEvent := fun _ _ ev =>
       Some (eventInfo (if is_event_a ev then data_a else data_b));
     fetchOrders := fun _ _ ev =>
       Some (tickets (if is_event_a ev then data_a else data_b)) |}.

(** The orders call of event A rejects; everything else resolves. *)
Definition api_orders_a_rejects : IDevconnectPretixAPI :=
  {| fetchEventSettings := fetchEventSettings api_ok;
     fetchItems := fetchItems api_ok;
     fetchEvent := fetchEvent api_ok;
     fetchOrders := fun url tok ev =>
       if is_event_a ev then None else fetchOrders api_ok url tok ev |}.

(** Organizer 1 has a badly configured event A; organizer 2 is fine. *)
Definition api_org1_invalid : IDevconnectPretixAPI :=
  {| fetchEventSettings := fun url _ ev =>
       if String.eqb url "https://one.example" && is_event_a ev
       then Some bad_settings else Some good_settings;
     fetchItems := fetchItems api_ok;
     fetchEvent := fetchEvent api_ok;
     fetchOrders := fetchOrders api_ok |}.

(** Event A as organizer 1 gets it from [api_org1_invalid]. *)
Definition data_a_invalid : EventData :=
  {| settings := bad_settings; eventInfo := eventInfo data_a;
     items := items data_a; tickets := tickets data_a |}.

(** Every call rejects. *)
Definition api_down : IDevconnectPretixAPI :=
  {| fetchEventSettings := fun _ _ _ => None;
     fetchItems := fun _ _ _ => None;
     fetchEvent := fun _ _ _ => None;
     fetchOrders := fun _ _ _ => None |}.

Definition config1 : DevconnectPretixConfig :=
  {| organizers := [organizer1] |}.

Definition config12 : DevconnectPretixConfig :=
  {| organizers := [organizer1; organizer2] |}.

Definition env_ok (c : DevconnectPretixConfig) : PassEnv :=
  {| loaded_config := Some c; reload_resolves := true |}.

(** A store that lags behind the provider: event A under an old name,
    item 7 under an old name, item 9 no longer sold, the ticket of
    position 1001 redeemed and under an old email, the ticket of a
    position that has been refunded since. *)
Definition stale_store : Store :=
  {| events_info :=
       [ {| event_info_id := 4; pretix_events_config_id := "cfg-a";
            event_name := "Old name"; event_is_deleted := false |} ];
     items_info :=
       [ {| item_info_id := 10; item_id := "7";
            devconnect_pretix_events_info_id := 4;
            item_name := "Early bird"; item_is_deleted := false |};
         {| item_info_id := 11; item_id := "9";
            devconnect_pretix_events_info_id := 4;
            item_name := "Sponsor"; item_is_deleted := false |} ];
     tickets_tbl :=
       [ {| email := "old@x.com"; full_name := Some "Ada";
            devconnect_pretix_items_info_id := 10;
            is_deleted := false; is_consumed := true;
            position_id := "1001"; secret := "s1" |};
         {| email := "gone@x.com"; full_name := Some "Zed";
            devconnect_pretix_items_info_id := 11;
            is_deleted := false; is_consumed := false;
            position_id := "999"; secret := "s9" |} ] |}.

(** The store after a first sync of event A. *)
Definition store_after_a : Store :=
  db (snd (syncEvent organizer1 event_a data_a (init_world empty_store))).

End Samples.

(* ================================================================= *)
(** ** Auxiliary notions used to state the properties *)

Definition apply_writes (ws : list Write) (s : Store) : Store :=
  fold_left (fun s wr => apply_write wr s) ws s.

(** What the four provider calls of one event resolve with, when they
    all resolve. *)
Definition fetched (api : IDevconnectPretixAPI)
  (organizer : DevconnectPretixOrganizerConfig)
  (event : DevconnectPretixEventConfig) : option EventData :=
  match fetchEventSettings api (orgURL organizer) (token organizer)
          (eventID event),
        fetchItems api (orgURL organizer) (token organizer) (eventID event),
        fetchEvent api (orgURL organizer) (token organizer) (eventID event),
        fetchOrders api (orgURL organizer) (token organizer) (eventID event)
  with
  | Some st, Some its, Some info, Some tks =>
      Some {| settings := st; eventInfo := info; items := its;
              tickets := tks |}
  | _, _, _, _ => None
  end.

(** The data of all the events of an organizer, when every fetch
    resolves. *)
Fixpoint fetched_all (api : IDevconnectPretixAPI)
  (organizer : DevconnectPretixOrganizerConfig)
  (evs : list DevconnectPretixEventConfig)
  : option (list (DevconnectPretixEventConfig * EventData)) :=
  match evs with
  | [] => Some []
  | ev :: rest =>
      match fetched api organizer ev, fetched_all api organizer rest with
      | Some d, Some l => Some ((ev, d) :: l)
      | _, _ => None
      end
  end.

(** The validation errors of an organizer's fetched events. *)
Definition errors_of (l : list (DevconnectPretixEventConfig * EventData))
  : list string :=
  flat_map (fun ed => checkEventData (snd ed) (fst ed)) l.

(** A fetch failure: one of the four calls rejects. *)
Definition fetch_fails (api : IDevconnectPretixAPI)
  (organizer : DevconnectPretixOrganizerConfig)
  (event : DevconnectPretixEventConfig) : Prop :=
  fetchEventSettings api (orgURL organizer) (token organizer) (eventID event)
    = None
  \/ fetchItems api (orgURL organizer) (token organizer) (eventID event) = None
  \/ fetchEvent api (orgURL organizer) (token organizer) (eventID event) = None
  \/ fetchOrders api (orgURL organizer) (token organizer) (eventID event)
     = None.

(** The world after an aborted unit of work: the store and the trace of
    writes are as before, one more error has been reported. *)
Definition aborted_with (e : Error) (w : World) : World :=
  {| db := db w; writes := writes w; reported := reported w ++ [e] |}.

Definition is_item_write (wr : Write) : bool :=
  match wr with
  | InsertItemInfo _ _ _ | UpdateItemInfo _ _ _ | SoftDeleteItemInfo _ => true
  | _ => false
  end.

Definition is_ticket_write (wr : Write) : bool :=
  match wr with
  | InsertTicket _ | UpdateTicket _ | SoftDeleteTicket _ => true
  | _ => false
  end.

(** Successive passes of the service, each with its own collaborators'
    answers. *)
Definition run_passes (envs : list PassEnv) (st : Service * World)
  : Service * World :=
  fold_left (fun st env => trySync env (fst st) (snd st)) envs st.

(** A pass reaches the end of the [try] block of [trySync]. *)
Definition pass_reaches_end (env : PassEnv) : bool :=
  match loaded_config env with
  | Some _ => reload_resolves env
  | None => false
  end.

(** The write of the event-info phase: insert if absent, else update. *)
Definition event_write (s : Store) (event : DevconnectPretixEventConfig)
  (info : DevconnectPretixEvent) : Write :=
  match fetchPretixEventInfo s (event_config_id event) with
  | None => InsertEventInfo (en (event_api_name info)) (event_config_id event)
  | Some ex =>
      UpdateEventInfo (event_info_id ex) (en (event_api_name info)) false
  end.

(** The world once a list of writes has been issued. *)
Definition wrote (ws : list Write) (w : World) : World :=
  {| db := apply_writes ws (db w);
     writes := writes w ++ ws;
     reported := reported w |}.

(** The writes of the item phase, in the order they are issued. *)
Definition old_item_id (existingItemsInfo : list PretixItemInfo)
  (item : DevconnectPretixItem) : nat :=
  match map_get item_id existingItemsInfo (api_item_key item) with
  | Some oldItem => item_info_id oldItem
  | None => 0
  end.

Definition item_writes (event_info : nat)
  (newActiveItems : list DevconnectPretixItem)
  (existingItemsInfo : list PretixItemInfo) : list Write :=
  map (fun item => InsertItemInfo (api_item_key item) event_info
                     (getI18nString (item_api_name item)))
      (itemsToInsertOf newActiveItems existingItemsInfo)
  ++ map (fun item => UpdateItemInfo (old_item_id existingItemsInfo item)
                        (getI18nString (item_api_name item)) false)
         (itemsToUpdateOf newActiveItems existingItemsInfo)
  ++ map (fun item => SoftDeleteItemInfo (item_info_id item))
         (itemsToRemoveOf newActiveItems existingItemsInfo).

(** The writes of the ticket phase, in the order they are issued. *)
Definition ticket_writes (ticketsFromPretix existingTickets
  : list DevconnectPretixTicket) : list Write :=
  map InsertTicket (newTicketsOf ticketsFromPretix existingTickets)
  ++ map UpdateTicket (updatedTicketsOf ticketsFromPretix existingTickets)
  ++ map SoftDeleteTicket (removedTicketsOf ticketsFromPretix existingTickets).

(** The effect of an item write on the item table, of a ticket write on
    the ticket table. *)
Definition apply_item_write (wr : Write) (t : list PretixItemInfo)
  : list PretixItemInfo :=
  match wr with
  | InsertItemInfo itemID event_info name =>
      insert_item itemID event_info name t
  | UpdateItemInfo id name deleted => update_item id name deleted t
  | SoftDeleteItemInfo id => soft_delete_item id t
  | _ => t
  end.

Definition apply_ticket_write (wr : Write) (t : list DevconnectPretixTicket)
  : list DevconnectPretixTicket :=
  match wr with
  | InsertTicket n => insert_ticket n t
  | UpdateTicket n => update_ticket n t
  | SoftDeleteTicket n => soft_delete_ticket n t
  | _ => t
  end.

(** The item phase of an event detects allow-list drift. *)
Definition drifted (event : DevconnectPretixEventConfig)
  (itemsFromAPI : list DevconnectPretixItem) : bool :=
  existsb (fun i => negb (set_has (map api_item_key itemsFromAPI) i))
          (activeItemIDs event).

(** The world once a write has been issued. *)
Definition written (wr : Write) (w : World) : World :=
  {| db := apply_write wr (db w);
     writes := writes w ++ [wr];
     reported := reported w |}.

(** A computation keeps a relation between the store before and the
    store after, whatever it resolves or rejects with. *)
Definition keeps {A} (RS : Store -> Store -> Prop) (m : M A) : Prop :=
  forall w, RS (db w) (db (snd (m w))).

(** Tickets handed to the insert primitive start unconsumed. *)
Definition inserts_unconsumed (wr : Write) : Prop :=
  match wr with
  | InsertTicket t => is_consumed t = false
  | _ => True
  end.

(** The ids and natural keys of a store are distinct, as the unique
    constraints of its tables require. *)
Definition item_key (i : PretixItemInfo) : nat * string :=
  (devconnect_pretix_events_info_id i, item_id i).

(** Identity of an item row: its id and its natural key.  No write
    changes it. *)
Definition item_ident (i : PretixItemInfo) : nat * (nat * string) :=
  (item_info_id i, item_key i).

Record store_wf (s : Store) : Prop := {
  wf_event_ids : NoDup (map event_info_id (events_info s));
  wf_item_ids : NoDup (map item_info_id (items_info s));
  wf_item_keys : NoDup (map item_key (items_info s));
  wf_positions : NoDup (map position_id (tickets_tbl s))
}.

(** The natural keys of the positions of a list of orders. *)
Definition position_keys (orders : list DevconnectPretixOrder) : list string :=
  map (fun p => toString (pos_id p)) (flat_map positions orders).

(** ** A keyed table and its three-way diff

    The item phase and the ticket phase are the same algorithm on two
    tables: rows [R] are addressed by a key [rk] inside the slice [addr]
    of the table, the incoming entries [N] carry the key [nk]; the
    existing rows are the addressed rows that are [live]. *)
Module Diff.
Section Defs.
Context {R N : Type}.
Variables (rk : R -> string) (nk : N -> string).
Variables (addr live : R -> bool).
Variable differs : R -> N -> bool.
Variable put : N -> R -> R.
Variable del : R -> R.
Variable mk : N -> list R -> R.
Variable incoming : list N.

Definition hit (k : string) (r : R) : bool := addr r && String.eqb (rk r) k.

Definition modify (k : string) (f : R -> R) (t : list R) : list R :=
  map (fun r => if hit k r then f r else r) t.

Definition upsert (n : N) (t : list R) : list R :=
  if existsb (hit (nk n)) t then modify (nk n) (put n) t
  else t ++ [mk n t].

Definition existing (t : list R) : list R :=
  filter (fun r => addr r && live r) t.

Definition to_insert (x : list R) : list N :=
  filter (fun n => negb (map_has rk x (nk n))) incoming.

Definition to_update (x : list R) : list N :=
  filter (fun n => match map_get rk x (nk n) with
                   | Some o => differs o n
                   | None => false
                   end)
         (filter (fun n => map_has rk x (nk n)) incoming).

Definition to_remove (x : list R) : list R :=
  filter (fun e => negb (map_has nk incoming (rk e))) x.

Definition inserted (t : list R) : list R :=
  fold_left (fun t0 n => upsert n t0) (to_insert (existing t)) t.

Definition updated (t : list R) : list R :=
  fold_left (fun t0 n => modify (nk n) (put n) t0)
            (to_update (existing t)) (inserted t).

Definition synced (t : list R) : list R :=
  fold_left (fun t0 e => modify (rk e) del t0)
            (to_remove (existing t)) (updated t).

(** An addressed live row is an untouched existing row of [x] or
    agrees with an incoming entry. *)
Definition settled (x : list R) (r : R) : Prop :=
  addr r = true -> live r = true ->
  In r x
  \/ exists n, In n incoming /\ nk n = rk r /\ differs r n = false.

(** The incoming entry [n] has an addressed live row in [t]. *)
Definition covered (n : N) (t : list R) : Prop :=
  exists r, In r t /\ addr r = true /\ live r = true /\ rk r = nk n.
End Defs.
End Diff.

(** The item table of an event as a keyed table: rows are addressed by
    provider item id inside the event, the live rows are the active
    ones. *)
Module ItemTable.
Definition addr (event_info : nat) (r : PretixItemInfo) : bool :=
  Nat.eqb (devconnect_pretix_events_info_id r) event_info.
Definition live (r : PretixItemInfo) : bool := negb (item_is_deleted r).
Definition differs (o : PretixItemInfo) (n : DevconnectPretixItem) : bool :=
  negb (String.eqb (item_name o) (getI18nString (item_api_name n))).
Definition put (n : DevconnectPretixItem) (r : PretixItemInfo)
  : PretixItemInfo :=
  set_item (getI18nString (item_api_name n)) false r.
Definition del (r : PretixItemInfo) : PretixItemInfo :=
  set_item (item_name r) true r.
Definition mk (event_info : nat) (n : DevconnectPretixItem)
  (t : list PretixItemInfo) : PretixItemInfo :=
  {| item_info_id := fresh_id (map item_info_id t);
     item_id := api_item_key n;
     devconnect_pretix_events_info_id := event_info;
     item_name := getI18nString (item_api_name n);
     item_is_deleted := false |}.
Definition synced (event_info : nat) (incoming : list DevconnectPretixItem)
  (t : list PretixItemInfo) : list PretixItemInfo :=
  Diff.synced item_id api_item_key (addr event_info) live differs put del
    (mk event_info) incoming t.
(** Ids and natural keys are distinct and the rows of [x] are still
    there, up to the fields a write may change. *)
Definition stable (x t : list PretixItemInfo) : Prop :=
  NoDup (map item_info_id t)
  /\ NoDup (map item_key t)
  /\ incl (map item_ident x) (map item_ident t).
End ItemTable.

(** The ticket table as a keyed table: rows are addressed by position
    id, the live rows are the active tickets of the event. *)
Module TicketTable.
Definition addr (r : DevconnectPretixTicket) : bool := true.
Definition live (s : Store) (config_id : string)
  (r : DevconnectPretixTicket) : bool :=
  ticket_in_event s config_id r && negb (is_deleted r).
Definition mk (n : DevconnectPretixTicket)
  (t : list DevconnectPretixTicket) : DevconnectPretixTicket := n.
Definition synced (s : Store) (config_id : string)
  (incoming t : list DevconnectPretixTicket)
  : list DevconnectPretixTicket :=
  Diff.synced position_id position_id addr (live s config_id)
    pretixTicketsDifferent set_ticket set_ticket_deleted mk incoming t.
End TicketTable.

(** Position id and consumed flag of each ticket row, in table order. *)
Definition consumed_flags (s : Store) : list (string * bool) :=
  map (fun t => (position_id t, is_consumed t)) (tickets_tbl s).

(** Existing rows keep their consumed flag; rows created meanwhile start
    unconsumed. *)
Definition consumed_kept (s s' : Store) : Prop :=
  exists created,
    consumed_flags s' = consumed_flags s ++ created
    /\ Forall (fun pc => snd pc = false) created.

(* ================================================================= *)
(** ** Starting the service, and the life of the sync loop *)

(** Kick off a periodic sync: [None] (null) when the server runs for
    Zuzalu or when no provider client was instantiated. *)
Definition startDevconnectPretixSyncService (isZuzalu : bool)
  (devconnectPretixAPI : option IDevconnectPretixAPI) (s : Store)
  : option Engine :=
  if isZuzalu then None
  else match devconnectPretixAPI with
       | None => None
       | Some api => Some (startSyncLoop (new_engine api s))
       end.

(** What happens to a running loop: its pass in flight completes, or a
    timer fires. *)
Inductive LoopEvent :=
| PassCompletes (env : PassEnv)
| TimerFires (h : nat).

Definition loop_step (e : Engine) (ev : LoopEvent) : Engine :=
  match ev with
  | PassCompletes env => pass_completes env e
  | TimerFires h => timer_fires h e
  end.

Definition run_loop (evs : list LoopEvent) (e : Engine) : Engine :=
  fold_left loop_step evs e.

(** The loop is waiting for the timer whose handle is stored in the
    service. *)
Definition waiting_on (h : nat) (e : Engine) : Prop :=
  in_flight e = 0 /\ armed e = [h] /\ timeout (service e) = Some h.

(** ** What the validator accepts *)

Definition settings_ok (st : DevconnectPretixEventSettings) : bool :=
  attendee_emails_asked st && attendee_emails_required st.

Definition item_ok (item : DevconnectPretixItem) : bool :=
  admission item && personalized item
  && match generate_tickets item with
     | Some true => false
     | _ => true
     end.

(** ** What a ticket row and a converted ticket agree on *)

Definition ticket_agrees (row n : DevconnectPretixTicket) : Prop :=
  position_id row = position_id n
  /\ email row = email n
  /\ full_name row = full_name n
  /\ devconnect_pretix_items_info_id row = devconnect_pretix_items_info_id n
  /\ secret row = secret n
  /\ is_deleted row = false.

(** The positions that become tickets: those of the paid orders whose item
    is a known item row. *)
Definition ticketed_positions (orders : list DevconnectPretixOrder)
  (itemsInfo : list PretixItemInfo) : list DevconnectPretixPosition :=
  filter (fun p => map_has item_id itemsInfo (toString (pos_item p)))
         (flat_map positions
            (filter (fun o => String.eqb (status o) "p") orders)).

(* ================================================================= *)
(** ** Database configuration (database/postgresConfiguration.ts) *)

Module PostgresConfiguration.

(** The environment variables the function reads; [None] is undefined. *)
Record ProcessEnv := {
  DATABASE_USERNAME : option string;
  DATABASE_PASSWORD : option string;
  DATABASE_HOST : option string;
  DATABASE_DB_NAME : option string;
  DATABASE_SSL : option string
}.

Record SslSettings := { rejectUnauthorized : bool }.

Record PoolOptions := {
  user : string;
  password : string;
  host : string;
  database : string;
  port : N;
  ssl : option SslSettings;
  connectionTimeoutMillis : N;
  idleTimeoutMillis : N;
  poolSize : N
}.

(** [x || ""] on an environment variable. *)
Definition or_empty (x : option string) : string :=
  match x with
  | Some v => v
  | None => EmptyString
  end.

(** [Array.prototype.includes]. *)
Definition includes (l : list string) (x : string) : bool :=
  existsb (String.eqb x) l.

(** The result is the configuration, or the message of the thrown
    error. *)
Definition getDatabaseConfiguration (env : ProcessEnv) : string + PoolOptions :=
  match DATABASE_USERNAME env with
  | None => inl "Missing environment variable: DATABASE_USERNAME"
  | Some u =>
  match DATABASE_PASSWORD env with
  | None => inl "Missing environment variable: DATABASE_PASSWORD"
  | Some pw =>
  match DATABASE_HOST env with
  | None => inl "Missing environment variable: DATABASE_HOST"
  | Some h =>
  match DATABASE_DB_NAME env with
  | None => inl "Missing environment variable: DATABASE_DB_NAME"
  | Some d =>
  if negb (includes ["true"; "false"] (or_empty (DATABASE_SSL env)))
  then inl "Missing or incorrect env variable: DATABASE_SSL"
  else
    inr {| user := u;
           password := pw;
           host := h;
           database := d;
           port := 5432;
           ssl := match DATABASE_SSL env with
                  | Some v => if String.eqb v "true"
                              then Some {| rejectUnauthorized := false |}
                              else None
                  | None => None
                  end;
           connectionTimeoutMillis := 16000;
           idleTimeoutMillis := 8000;
           poolSize := 8 |}
  end end end end.

Definition sample_env : ProcessEnv :=
  {| DATABASE_USERNAME := Some "admin";
     DATABASE_PASSWORD := Some "password";
     DATABASE_HOST := Some "localhost";
     DATABASE_DB_NAME := Some "postgres";
     DATABASE_SSL := Some "true" |}.

End PostgresConfiguration.

(** More sample data. *)
Module MoreSamples.

(** The store after a first pass over organizer 1: two events. *)
Definition two_event_store : Store :=
  db (snd (syncOrganizer Samples.api_ok Samples.organizer1
             (init_world empty_store))).

(** Event A once every order has been refunded. *)
Definition refunded_order : DevconnectPretixOrder :=
  {| code := "AAA"; order_email := "Buyer@X.com"; status := "c";
     positions := [Samples.position1; Samples.position2] |}.

(** The stale store once every order of event A has been refunded: the
    redeemed ticket of position 1001 is soft-deleted. *)
Definition retired_store : Store :=
  db (snd (syncTickets Samples.organizer1 Samples.event_a [refunded_order]
             (init_world Samples.stale_store))).

Definition env_no_config : PassEnv :=
  {| loaded_config := None; reload_resolves := true |}.

Definition env_reload_rejects : PassEnv :=
  {| loaded_config := Some Samples.config1; reload_resolves := false |}.

(** A loop that waits for its timer, and a loop whose pass is in
    flight. *)
Definition waiting_engine : Engine :=
  pass_completes (Samples.env_ok Samples.config1)
    (startSyncLoop (new_engine Samples.api_ok empty_store)).

Definition running_engine : Engine :=
  startSyncLoop (new_engine Samples.api_ok empty_store).

End MoreSamples.

(* ================================================================= *)
(** ** Text in lower case *)

(** The 26 capital letters of ASCII, by character code. *)
Definition is_capital (c : ascii) : bool :=
  Nat.leb 65 (nat_of_ascii c) && Nat.leb (nat_of_ascii c) 90.

(** ASCII text: every character code is below 128.  This is the text on
    which [toLowerCase] above is [String.prototype.toLowerCase]; the
    case mapping of other characters is not part of the embedding. *)
Definition ascii_text (s : string) : bool :=
  forallb (fun c => Nat.ltb (nat_of_ascii c) 128) (list_ascii_of_string s).

(** [lowercase_of a b]: [b] is [a], character by character, with each
    capital letter replaced by the small letter, whose code is 32 more,
    and every other character kept. *)
Definition lowercase_of (a b : string) : Prop :=
  Forall2
    (fun c d =>
       (is_capital c = true -> nat_of_ascii d = nat_of_ascii c + 32)
       /\ (is_capital c = false -> d = c))
    (list_ascii_of_string a) (list_ascii_of_string b).

(** No capital letter is left. *)
Definition no_capital (s : string) : bool :=
  forallb (fun c => negb (is_capital c)) (list_ascii_of_string s).


(* ================================================================= *)
(** ** The sync of an event, one storage call at a time

    The event syncs of an organizer are started together and each of
    them is suspended at every storage call it awaits, so their calls
    interleave.  Below, a started async function is a [Task]: the tree
    of its storage calls.  The same tree serves to let a storage call
    reject. *)

(** The storage queries the sync of an event awaits. *)
Inductive Call : Type -> Type :=
| FetchEventInfo (config_id : string) : Call (option PretixEventsInfo)
| FetchItemsInfoByEvent (event_info : nat) : Call (list PretixItemInfo)
| FetchTicketsByEvent (config_id : string)
    : Call (list DevconnectPretixTicket)
| StoreWrite (wr : Write) : Call unit.

(** A storage call that goes through. *)
Definition perform {X} (c : Call X) : M X :=
  match c with
  | FetchEventInfo config_id =>
      query (fun s => fetchPretixEventInfo s config_id)
  | FetchItemsInfoByEvent event_info =>
      query (fun s => fetchPretixItemsInfoByEvent s event_info)
  | FetchTicketsByEvent config_id =>
      query (fun s => fetchDevconnectPretixTicketsByEvent s config_id)
  | StoreWrite wr => store_write wr
  end.

(** A started async function: settled; or in the synchronous code of a
    catch block, about to hand an error to the reporter; or suspended on
    a storage call, with what it does once the call has settled. *)
Inductive Task (A : Type) : Type :=
| Settled (o : Outcome A)
| Reporting (e : Error) (rest : Task A)
| Awaiting {X : Type} (c : Call X) (k : Outcome X -> Task A).
Arguments Settled {A} o.
Arguments Reporting {A} e rest.
Arguments Awaiting {A X} c k.

Module Stepwise.

Definition ret {A} (a : A) : Task A := Settled (Resolved a).

Definition throw {A} (e : Error) : Task A := Settled (Rejected e).

(** [await call]. *)
Definition await {X} (c : Call X) : Task X := Awaiting c Settled.

Fixpoint bind {A B} (t : Task A) (f : A -> Task B) : Task B :=
  match t with
  | Settled (Resolved a) => f a
  | Settled (Rejected e) => Settled (Rejected e)
  | Reporting e rest => Reporting e (bind rest f)
  | Awaiting c k => Awaiting c (fun o => bind (k o) f)
  end.

Fixpoint try_catch {A} (t : Task A) (handler : Error -> Task A) : Task A :=
  match t with
  | Settled (Resolved a) => Settled (Resolved a)
  | Settled (Rejected e) => handler e
  | Reporting e rest => Reporting e (try_catch rest handler)
  | Awaiting c k => Awaiting c (fun o => try_catch (k o) handler)
  end.

Declare Scope task_scope.
Delimit Scope task_scope with task.
Notation "x <- c ;; k" := (bind c (fun x => k))
  (at level 61, c at next level, right associativity) : task_scope.
Notation "c ;; k" := (bind c (fun _ => k))
  (at level 61, right associativity) : task_scope.

Definition reportError (e : Error) : Task unit := Reporting e (ret tt).

Fixpoint for_each {A} (l : list A) (f : A -> Task unit) : Task unit :=
  match l with
  | [] => ret tt
  | x :: r => (f x ;; for_each r f)%task
  end.

(** The storage queries, awaited. *)
Definition fetchPretixEventInfo (config_id : string) :=
  await (FetchEventInfo config_id).
Definition fetchPretixItemsInfoByEvent (event_info : nat) :=
  await (FetchItemsInfoByEvent event_info).
Definition fetchDevconnectPretixTicketsByEvent (config_id : string) :=
  await (FetchTicketsByEvent config_id).
Definition insertPretixEventsInfo (name config_id : string) :=
  await (StoreWrite (InsertEventInfo name config_id)).
Definition updatePretixEventsInfo (id : nat) (name : string) (deleted : bool) :=
  await (StoreWrite (UpdateEventInfo id name deleted)).
Definition insertPretixItemsInfo (itemID : string) (event_info : nat)
  (name : string) :=
  await (StoreWrite (InsertItemInfo itemID event_info name)).
Definition updatePretixItemsInfo (id : nat) (name : string) (deleted : bool) :=
  await (StoreWrite (UpdateItemInfo id name deleted)).
Definition softDeletePretixItemInfo (id : nat) :=
  await (StoreWrite (SoftDeleteItemInfo id)).
Definition insertDevconnectPretixTicket (t : DevconnectPretixTicket) :=
  await (StoreWrite (InsertTicket t)).
Definition updateDevconnectPretixTicket (t : DevconnectPretixTicket) :=
  await (StoreWrite (UpdateTicket t)).
Definition softDeleteDevconnectPretixTicket (t : DevconnectPretixTicket) :=
  await (StoreWrite (SoftDeleteTicket t)).

Definition syncEventInfos (organizer : DevconnectPretixOrganizerConfig)
  (event : DevconnectPretixEventConfig) (info : DevconnectPretixEvent)
  : Task bool :=
  let eventConfigID := event_config_id event in
  try_catch
    (let eventNameFromAPI := en (event_api_name info) in
     existingEvent <- fetchPretixEventInfo eventConfigID ;;
     match existingEvent with
     | None => insertPretixEventsInfo eventNameFromAPI eventConfigID
     | Some ex =>
         updatePretixEventsInfo (event_info_id ex) eventNameFromAPI false
     end ;;
     ret true)%task
    (fun e => reportError e ;; ret false)%task.

Definition syncItemInfos (organizer : DevconnectPretixOrganizerConfig)
  (event : DevconnectPretixEventConfig)
  (itemsFromAPI : list DevconnectPretixItem) : Task bool :=
  let eventConfigID := event_config_id event in
  let activeIDs := activeItemIDs event in
  try_catch
    (found <- fetchPretixEventInfo eventConfigID ;;
     match found with
     | None => throw (EventInfoNotFound eventConfigID)
     | Some info =>
         let newItemIDsSet := map api_item_key itemsFromAPI in
         if existsb (fun i => negb (set_has newItemIDsSet i)) activeIDs
         then throw (ActiveItemsMissing activeIDs newItemIDsSet)
         else
           let newActiveItems := newActiveItemsOf activeIDs itemsFromAPI in
           existingItemsInfo <-
             fetchPretixItemsInfoByEvent (event_info_id info) ;;
           for_each (itemsToInsertOf newActiveItems existingItemsInfo)
             (fun item =>
                insertPretixItemsInfo (api_item_key item) (event_info_id info)
                  (getI18nString (item_api_name item))) ;;
           for_each (itemsToUpdateOf newActiveItems existingItemsInfo)
             (fun item =>
                match map_get item_id existingItemsInfo (api_item_key item) with
                | Some oldItem =>
                    updatePretixItemsInfo (item_info_id oldItem)
                      (getI18nString (item_api_name item)) false
                | None => ret tt
                end) ;;
           for_each (itemsToRemoveOf newActiveItems existingItemsInfo)
             (fun item => softDeletePretixItemInfo (item_info_id item)) ;;
           ret true
     end)%task
    (fun e => reportError e ;; ret false)%task.

Definition syncTickets (organizer : DevconnectPretixOrganizerConfig)
  (event : DevconnectPretixEventConfig)
  (pretixOrders : list DevconnectPretixOrder) : Task bool :=
  let eventConfigID := event_config_id event in
  try_catch
    (found <- fetchPretixEventInfo eventConfigID ;;
     match found with
     | None => throw (EventInfoNotFound eventConfigID)
     | Some info =>
         updatedItemsInfo <-
           fetchPretixItemsInfoByEvent (event_info_id info) ;;
         let ticketsFromPretix :=
           fst (ordersToDevconnectTickets pretixOrders updatedItemsInfo) in
         existingTickets <-
           fetchDevconnectPretixTicketsByEvent eventConfigID ;;
         for_each (newTicketsOf ticketsFromPretix existingTickets)
           insertDevconnectPretixTicket ;;
         for_each (updatedTicketsOf ticketsFromPretix existingTickets)
           updateDevconnectPretixTicket ;;
         for_each (removedTicketsOf ticketsFromPretix existingTickets)
           softDeleteDevconnectPretixTicket ;;
         ret true
     end)%task
    (fun e => reportError e ;; ret false)%task.

Definition syncEvent (organizer : DevconnectPretixOrganizerConfig)
  (event : DevconnectPretixEventConfig) (eventData : EventData) : Task unit :=
  try_catch
    (ok1 <- syncEventInfos organizer event (eventInfo eventData) ;;
     if negb ok1 then ret tt
     else
       ok2 <- syncItemInfos organizer event (items eventData) ;;
       if negb ok2 then ret tt
       else
         ok3 <- syncTickets organizer event (tickets eventData) ;;
         if negb ok3 then ret tt else ret tt)%task
    (fun e => reportError e).

End Stepwise.

(** Running a task on its own, to the end.  [faults] says, for its
    storage calls in the order they are made, whether the call rejects
    and with what; calls beyond the list go through.  A call that
    rejects leaves the store as it was. *)
Fixpoint exec {A} (faults : list (option Error)) (t : Task A) : M A :=
  match t with
  | Settled o => fun w => (o, w)
  | Reporting e rest => fun w => exec faults rest (snd (reportError e w))
  | Awaiting c k =>
      fun w =>
        match faults with
        | Some e :: later => exec later (k (Rejected e)) w
        | None :: later => let (o, w') := perform c w in exec later (k o) w'
        | [] => let (o, w') := perform c w in exec [] (k o) w'
        end
  end.

(** The first rejection among the first [n] storage calls. *)
Fixpoint first_fault (n : nat) (faults : list (option Error)) : option Error :=
  match n, faults with
  | S _, Some e :: _ => Some e
  | S m, None :: later => first_fault m later
  | _, _ => None
  end.

(** The synchronous code of a task, up to its next storage call. *)
Fixpoint advance {A} (t : Task A) (w : World) : Task A * World :=
  match t with
  | Reporting e rest => advance rest (snd (reportError e w))
  | _ => (t, w)
  end.

(** The storage call a task is suspended on settles, rejected with
    [fault] or performed, and the task runs up to its next call. *)
Definition resume {A} (fault : option Error) (t : Task A) (w : World)
  : Task A * World :=
  match t with
  | Awaiting c k =>
      match fault with
      | Some e => advance (k (Rejected e)) w
      | None => let (o, w') := perform c w in advance (k o) w'
      end
  | _ => advance t w
  end.

(** The same for the [i]-th task of a pool of started tasks. *)
Fixpoint resume_at {A} (i : nat) (fault : option Error)
  (pool : list (Task A)) (w : World) {struct pool}
  : list (Task A) * World :=
  match pool, i with
  | [], _ => ([], w)
  | t :: r, O => let (t', w') := resume fault t w in (t' :: r, w')
  | t :: r, S j => let (r', w') := resume_at j fault r w in (t :: r', w')
  end.

(** A schedule: which task's pending call settles next, and how. *)
Definition Schedule := list (nat * option Error).

Definition interleave {A} (sched : Schedule) (pool : list (Task A))
  (w : World) : list (Task A) * World :=
  fold_left (fun pw s => resume_at (fst s) (snd s) (fst pw) (snd pw))
            sched (pool, w).

(** [Promise.allSettled] over started tasks whose storage calls settle
    as [sched] says; what is still pending after [sched] is run to the
    end in list order. *)
Definition promise_allSettled_under {A} (sched : Schedule)
  (pool : list (Task A)) : M (list (Outcome A)) :=
  fun w =>
    let (pool', w') := interleave sched pool w in
    promise_allSettled (map (exec []) pool') w'.

(** [syncOrganizer], with the storage calls of its event syncs settling
    as [sched] says. *)
Definition syncOrganizer_under (sched : Schedule) (api : IDevconnectPretixAPI)
  (organizer : DevconnectPretixOrganizerConfig)
  : M (option (list (Outcome unit))) :=
  try_catch
    (allEventData <-
       promise_all
         (map (fun event =>
                 data <- fetchEventData api organizer event ;;
                 ret (event, data))
              (events organizer)) ;;
     let errors :=
       flat_map (fun ed => checkEventData (snd ed) (fst ed)) allEventData in
     if negb (isnil errors)
     then throw (ApiResponseErrors (organizer_id organizer)
                   (join newline errors))
     else
       settled <-
         promise_allSettled_under sched
           (map (fun ed => Stepwise.syncEvent organizer (fst ed) (snd ed))
                allEventData) ;;
       ret (Some settled))
    (fun e => reportError e ;; ret None).

(** A task that cannot settle rejected. *)
Fixpoint never_rejects {A} (t : Task A) : Prop :=
  match t with
  | Settled (Resolved _) => True
  | Settled (Rejected _) => False
  | Reporting _ rest => never_rejects rest
  | Awaiting _ k => forall o, never_rejects (k o)
  end.

(** A task that, as long as its storage calls go through, still has a
    write satisfying [P] to make before it settles. *)
Fixpoint owes {A} (P : Write -> Prop) (t : Task A) : Prop :=
  match t with
  | Settled _ => False
  | Reporting _ rest => owes P rest
  | Awaiting c k =>
      match c with
      | StoreWrite wr => P wr
      | _ => False
      end
      \/ forall x, owes P (k (Resolved x))
  end.

(** The write of the event-info phase of an event, whichever it is. *)
Definition writes_event_info (event : DevconnectPretixEventConfig)
  (info : DevconnectPretixEvent) (wr : Write) : Prop :=
  wr = InsertEventInfo (en (event_api_name info)) (event_config_id event)
  \/ exists id, wr = UpdateEventInfo id (en (event_api_name info)) false.

(** [simulates t m]: the task [t], run alone with every storage call
    going through, is the promise [m]. *)
Definition simulates {A} (t : Task A) (m : M A) : Prop :=
  forall w, exec [] t w = m w.

(** The trace of store writes has only grown from [w] to [w']. *)
Definition grown (w w' : World) : Prop :=
  exists later, writes w' = writes w ++ later.

(** A write satisfying [P] has been made between [w] and [w']. *)
Definition wrote_since (P : Write -> Prop) (w w' : World) : Prop :=
  exists later, writes w' = writes w ++ later /\ Exists P later.

(** Each task of the pool either still owes its write or has made it
    since [w0]. *)
Definition on_course {A} (w0 w : World) (pool : list (Task A))
  (dues : list (Write -> Prop)) : Prop :=
  Forall2 (fun t P => owes P t \/ wrote_since P w0 w) pool dues.

(* ================================================================= *)
(** * Properties *)

(** ** The promise monad *)

Lemma for_each_store_write {A} (g : A -> Write) (l : list A) (w : World) :
  for_each l (fun x => store_write (g x)) w =
  (Resolved tt,
   {| db := apply_writes (map g l) (db w);
      writes := writes w ++ map g l;
      reported := reported w |}).
Proof.
  revert w. induction l as [|x l IH]; intros w; simpl.
  - unfold ret. rewrite app_nil_r. destruct w; reflexivity.
  - unfold bind, store_write at 1. rewrite IH. simpl.
    rewrite <- app_assoc. reflexivity.
Qed.

Lemma promise_allSettled_resolves {A} (tasks : list (M A)) (w : World) :
  exists l, fst (promise_allSettled tasks w) = Resolved l.
Proof.
  revert w. induction tasks as [|t r IH]; intros w; simpl.
  - eexists; reflexivity.
  - destruct (t w) as [o w1]. destruct (IH w1) as [l Hl].
    destruct (promise_allSettled r w1) as [[l'|e] w2]; simpl in *.
    + eexists; reflexivity.
    + discriminate.
Qed.

(** ** Fetching *)

Lemma fetchEventData_fetched api organizer event w :
  fetchEventData api organizer event w =
  (match fetched api organizer event with
   | Some d => Resolved d
   | None => Rejected ApiRejected
   end, w).
Proof.
  unfold fetchEventData, fetched, bind, await_api, ret, throw.
  destruct (fetchEventSettings api _ _ _); [|reflexivity].
  destruct (fetchItems api _ _ _); [|reflexivity].
  destruct (fetchEvent api _ _ _); [|reflexivity].
  destruct (fetchOrders api _ _ _); reflexivity.
Qed.

Lemma fetch_fails_fetched api organizer event :
  fetch_fails api organizer event <-> fetched api organizer event = None.
Proof.
  unfold fetch_fails, fetched.
  destruct (fetchEventSettings api _ _ _), (fetchItems api _ _ _),
    (fetchEvent api _ _ _), (fetchOrders api _ _ _);
    intuition discriminate.
Qed.

Lemma promise_all_fetch api organizer evs w :
  promise_all
    (map (fun event =>
            data <- fetchEventData api organizer event ;; ret (event, data))
         evs) w =
  (match fetched_all api organizer evs with
   | Some l => Resolved l
   | None => Rejected ApiRejected
   end, w).
Proof.
  revert w. induction evs as [|ev rest IH]; intros w; simpl.
  - reflexivity.
  - unfold bind at 1. rewrite fetchEventData_fetched.
    destruct (fetched api organizer ev) as [d|]; simpl.
    + unfold ret at 1. rewrite IH.
      destruct (fetched_all api organizer rest); reflexivity.
    + rewrite IH. reflexivity.
Qed.

Lemma fetched_all_none api organizer evs ev :
  In ev evs -> fetched api organizer ev = None ->
  fetched_all api organizer evs = None.
Proof.
  induction evs as [|x rest IH]; simpl; [tauto|].
  intros [->|Hin] Hf.
  - rewrite Hf. reflexivity.
  - rewrite (IH Hin Hf). destruct (fetched api organizer x); reflexivity.
Qed.

Lemma fetched_all_in api organizer evs l ev d :
  fetched_all api organizer evs = Some l ->
  In ev evs -> fetched api organizer ev = Some d -> In (ev, d) l.
Proof.
  revert l. induction evs as [|x rest IH]; simpl; intros l Hl Hin Hf.
  - contradiction.
  - destruct (fetched api organizer x) as [dx|] eqn:Hx; [|discriminate].
    destruct (fetched_all api organizer rest) as [lr|]; [|discriminate].
    injection Hl as <-. destruct Hin as [->|Hin].
    + left. congruence.
    + right. eapply IH; eauto.
Qed.

(** ** [syncOrganizer], stage by stage *)

Lemma syncOrganizer_fetch_rejected api organizer w :
  fetched_all api organizer (events organizer) = None ->
  syncOrganizer api organizer w = (Resolved None, aborted_with ApiRejected w).
Proof.
  intros H. unfold syncOrganizer, try_catch, bind at 1.
  rewrite promise_all_fetch, H. reflexivity.
Qed.

Lemma syncOrganizer_invalid api organizer w l :
  fetched_all api organizer (events organizer) = Some l ->
  errors_of l <> [] ->
  syncOrganizer api organizer w =
  (Resolved None,
   aborted_with (ApiResponseErrors (organizer_id organizer)
                   (join newline (errors_of l))) w).
Proof.
  intros H He. unfold syncOrganizer, try_catch, bind at 1.
  rewrite promise_all_fetch, H. fold (errors_of l).
  destruct (errors_of l); [congruence|]. reflexivity.
Qed.

Lemma syncOrganizer_valid api organizer w l :
  fetched_all api organizer (events organizer) = Some l ->
  errors_of l = [] ->
  exists settled,
    syncOrganizer api organizer w =
    (Resolved (Some settled),
     snd (promise_allSettled
            (map (fun ed => syncEvent organizer (fst ed) (snd ed)) l) w)).
Proof.
  intros H He. unfold syncOrganizer, try_catch, bind at 1.
  rewrite promise_all_fetch, H. fold (errors_of l). rewrite He. simpl.
  unfold bind.
  destruct (promise_allSettled_resolves
              (map (fun ed => syncEvent organizer (fst ed) (snd ed)) l) w)
    as [settled Hs].
  destruct (promise_allSettled _ w) as [[s|e] w']; simpl in *;
    [|discriminate].
  exists s. reflexivity.
Qed.

Lemma errors_of_in l ev d :
  In (ev, d) l -> checkEventData d ev <> [] -> errors_of l <> [].
Proof.
  unfold errors_of. intros Hin Hne Hnil.
  destruct (checkEventData d ev) as [|m ms] eqn:Hc; [congruence|].
  assert (In m (flat_map (fun ed => checkEventData (snd ed) (fst ed)) l)).
  { apply in_flat_map. exists (ev, d). simpl. rewrite Hc. split; [assumption|now left]. }
  rewrite Hnil in H. contradiction.
Qed.

(** An organizer task never rejects. *)
Lemma syncOrganizer_resolves api organizer w :
  exists r, fst (syncOrganizer api organizer w) = Resolved r.
Proof.
  destruct (fetched_all api organizer (events organizer)) as [l|] eqn:Hf.
  - destruct (errors_of l) as [|m ms] eqn:He.
    + destruct (syncOrganizer_valid api organizer w l Hf He) as [s Hs].
      rewrite Hs. eexists; reflexivity.
    + rewrite (syncOrganizer_invalid api organizer w l Hf) by congruence.
      eexists; reflexivity.
  - rewrite syncOrganizer_fetch_rejected by assumption.
    eexists; reflexivity.
Qed.

(** ** [sync]: the fan-out over organizers *)

Lemma promise_all_organizers api orgs w :
  exists rs,
    promise_all (map (syncOrganizer api) orgs) w =
    (Resolved rs, fold_left (fun w0 o => snd (syncOrganizer api o w0)) orgs w).
Proof.
  revert w. induction orgs as [|o rest IH]; intros w; simpl.
  - eexists; reflexivity.
  - destruct (syncOrganizer_resolves api o w) as [r Hr].
    destruct (syncOrganizer api o w) as [[r'|e] w1]; simpl in *;
      [|discriminate].
    destruct (IH w1) as [rs Hrs]. rewrite Hrs.
    eexists; reflexivity.
Qed.

Lemma sync_runs_every_organizer api cfg w :
  sync api cfg w =
  (Resolved tt,
   fold_left (fun w0 o => snd (syncOrganizer api o w0)) (organizers cfg) w).
Proof.
  unfold sync, try_catch, bind.
  destruct (promise_all_organizers api (organizers cfg) w) as [rs Hrs].
  rewrite Hrs. reflexivity.
Qed.

Lemma syncOrganizer_invalid_event api organizer w ev d :
  In ev (events organizer) ->
  fetched api organizer ev = Some d ->
  checkEventData d ev <> [] ->
  exists e, syncOrganizer api organizer w = (Resolved None, aborted_with e w).
Proof.
  intros Hin Hf Hc.
  destruct (fetched_all api organizer (events organizer)) as [l|] eqn:Hall.
  - eexists. apply (syncOrganizer_invalid api organizer w l Hall).
    eapply errors_of_in; eauto using fetched_all_in.
  - eexists. apply syncOrganizer_fetch_rejected. assumption.
Qed.

(** C1 (as amended): when the fetch of one event fails, the whole pass of
    the organizer is aborted: the task resolves with nothing, the store
    is left as it was (so the rows of every event of the organizer, the
    failed one included, are unchanged), no write is issued and the
    rejection is reported once. *)
Theorem fetch_failure_aborts_organizer_pass api organizer w ev :
  In ev (events organizer) ->
  fetch_fails api organizer ev ->
  syncOrganizer api organizer w = (Resolved None, aborted_with ApiRejected w).
Proof.
  intros Hin Hf. apply syncOrganizer_fetch_rejected.
  apply fetched_all_none with ev; [assumption|].
  apply fetch_fails_fetched. assumption.
Qed.

Lemma fetch_failure_aborts_organizer_pass_witness :
  syncOrganizer Samples.api_orders_a_rejects Samples.organizer1
    (init_world empty_store)
  = (Resolved None, aborted_with ApiRejected (init_world empty_store)).
Proof.
  apply (fetch_failure_aborts_organizer_pass Samples.api_orders_a_rejects
           Samples.organizer1 (init_world empty_store) Samples.event_a).
  - simpl. left. reflexivity.
  - unfold fetch_fails. right. right. right. reflexivity.
Defined.

(** C1 (as stated) fails: organizer 1 has two events, only the orders
    call of event A rejects, event B is fetched and valid and a sync of
    event B would create its rows; yet the pass of the organizer syncs
    nothing, event B included. *)
Lemma fetch_failure_blocks_sibling_events :
  let w := init_world empty_store in
  let w' := snd (syncOrganizer Samples.api_orders_a_rejects
                   Samples.organizer1 w) in
  fetch_fails Samples.api_orders_a_rejects Samples.organizer1 Samples.event_a
  /\ fetched Samples.api_orders_a_rejects Samples.organizer1 Samples.event_b
     = Some Samples.data_b
  /\ checkEventData Samples.data_b Samples.event_b = []
  /\ fetchPretixEventInfo
       (db (snd (syncEvent Samples.organizer1 Samples.event_b
                   Samples.data_b w))) "cfg-b" <> None
  /\ fetchPretixEventInfo (db w') "cfg-b" = None
  /\ writes w' = [].
Proof.
  simpl. repeat split; try reflexivity.
  - unfold fetch_fails. right. right. right. reflexivity.
  - vm_compute. discriminate.
Qed.

(** C3: if validation reports a violation for some event of an organizer,
    the pass of that organizer writes nothing to the store: the store is
    unchanged and no insert, update or soft-delete is issued. *)
Theorem validation_failure_writes_nothing api organizer w ev d :
  In ev (events organizer) ->
  fetched api organizer ev = Some d ->
  checkEventData d ev <> [] ->
  db (snd (syncOrganizer api organizer w)) = db w
  /\ writes (snd (syncOrganizer api organizer w)) = writes w
  /\ fst (syncOrganizer api organizer w) = Resolved None.
Proof.
  intros Hin Hf Hc.
  destruct (syncOrganizer_invalid_event api organizer w ev d Hin Hf Hc)
    as [e He].
  rewrite He. simpl. auto.
Qed.

Lemma validation_failure_writes_nothing_witness :
  db (snd (syncOrganizer Samples.api_org1_invalid Samples.organizer1
             (init_world Samples.store_after_a)))
    = Samples.store_after_a
  /\ writes (snd (syncOrganizer Samples.api_org1_invalid Samples.organizer1
                    (init_world Samples.store_after_a))) = []
  /\ fst (syncOrganizer Samples.api_org1_invalid Samples.organizer1
            (init_world Samples.store_after_a)) = Resolved None.
Proof.
  apply (validation_failure_writes_nothing Samples.api_org1_invalid
           Samples.organizer1 (init_world Samples.store_after_a)
           Samples.event_a Samples.data_a_invalid).
  - simpl. left. reflexivity.
  - reflexivity.
  - vm_compute. discriminate.
Defined.

(** C4: with two organizers A and B, a validation failure in one of A's
    events is caught inside A's task: both tasks resolve, so the join in
    [sync] resolves and its handler is not entered, A leaves the store
    and the write trace untouched, and B is fetched, validated and synced
    in the same pass, whichever of the two tasks comes first.  Whatever
    goes wrong inside an organizer task, the task resolves: no failure
    reaches the join. *)
Theorem organizer_isolation api A B w ev d :
  In ev (events A) ->
  fetched api A ev = Some d ->
  checkEventData d ev <> [] ->
  exists e,
    (exists rB,
       promise_all [syncOrganizer api A; syncOrganizer api B] w
       = (Resolved [None; rB], snd (syncOrganizer api B (aborted_with e w))))
    /\ sync api {| organizers := [A; B] |} w
       = (Resolved tt, snd (syncOrganizer api B (aborted_with e w)))
    /\ sync api {| organizers := [B; A] |} w
       = (Resolved tt, aborted_with e (snd (syncOrganizer api B w)))
    /\ (forall o w0, exists r, fst (syncOrganizer api o w0) = Resolved r).
Proof.
  intros Hin Hf Hc.
  destruct (syncOrganizer_invalid_event api A w ev d Hin Hf Hc) as [e He].
  destruct (syncOrganizer_invalid_event api A
              (snd (syncOrganizer api B w)) ev d Hin Hf Hc) as [e' He'].
  assert (e' = e) as ->.
  { destruct (fetched_all api A (events A)) as [l|] eqn:Hall.
    - assert (Hne : errors_of l <> [])
        by (eapply errors_of_in; eauto using fetched_all_in).
      rewrite (syncOrganizer_invalid api A _ l Hall Hne) in He.
      rewrite (syncOrganizer_invalid api A _ l Hall Hne) in He'.
      unfold aborted_with in He, He'. simpl in He'.
      injection He as He. injection He' as He'.
      apply app_inv_head in He, He'. congruence.
    - rewrite (syncOrganizer_fetch_rejected api A _ Hall) in He.
      rewrite (syncOrganizer_fetch_rejected api A _ Hall) in He'.
      unfold aborted_with in He, He'. simpl in He'.
      injection He as He. injection He' as He'.
      apply app_inv_head in He, He'. congruence. }
  exists e. split; [|split; [|split]].
  4: apply syncOrganizer_resolves.
  - simpl. rewrite He.
    destruct (syncOrganizer_resolves api B (aborted_with e w)) as [r Hr].
    destruct (syncOrganizer api B (aborted_with e w)) as [[r'|x] w1];
      simpl in *; [|discriminate].
    exists r'. reflexivity.
  - rewrite sync_runs_every_organizer. simpl. rewrite He. reflexivity.
  - rewrite sync_runs_every_organizer. simpl. rewrite He'. reflexivity.
Qed.

Lemma organizer_isolation_witness :
  exists e,
    (exists rB,
       promise_all [syncOrganizer Samples.api_org1_invalid Samples.organizer1;
                    syncOrganizer Samples.api_org1_invalid Samples.organizer2]
         (init_world empty_store)
       = (Resolved [None; rB],
          snd (syncOrganizer Samples.api_org1_invalid Samples.organizer2
                 (aborted_with e (init_world empty_store)))))
    /\ sync Samples.api_org1_invalid
         {| organizers := [Samples.organizer1; Samples.organizer2] |}
         (init_world empty_store)
       = (Resolved tt,
          snd (syncOrganizer Samples.api_org1_invalid Samples.organizer2
                 (aborted_with e (init_world empty_store))))
    /\ sync Samples.api_org1_invalid
         {| organizers := [Samples.organizer2; Samples.organizer1] |}
         (init_world empty_store)
       = (Resolved tt,
          aborted_with e
            (snd (syncOrganizer Samples.api_org1_invalid Samples.organizer2
                    (init_world empty_store))))
    /\ (forall o w0,
          exists r,
            fst (syncOrganizer Samples.api_org1_invalid o w0) = Resolved r).
Proof.
  apply (organizer_isolation Samples.api_org1_invalid Samples.organizer1
           Samples.organizer2 (init_world empty_store)
           Samples.event_a Samples.data_a_invalid).
  - simpl. left. reflexivity.
  - reflexivity.
  - vm_compute. discriminate.
Defined.

(** ** Order to ticket conversion *)

Lemma convertOrder_unpaid itemsInfo o :
  status o <> "p" -> convertOrder itemsInfo o = ([], []).
Proof.
  intros H. unfold convertOrder.
  destruct (String.eqb (status o) "p") eqn:E; [|reflexivity].
  apply String.eqb_eq in E. contradiction.
Qed.

(** C8: an order whose status is not paid ("p") contributes no ticket
    (and no log line) to the conversion, whatever its positions are:
    converting a list of orders that contains it gives the same result as
    converting the list without it. *)
Theorem unpaid_order_contributes_nothing before o after itemsInfo :
  status o <> "p" ->
  convertOrder itemsInfo o = ([], [])
  /\ ordersToDevconnectTickets (before ++ o :: after) itemsInfo
     = ordersToDevconnectTickets (before ++ after) itemsInfo.
Proof.
  intros H. pose proof (convertOrder_unpaid itemsInfo o H) as Hc.
  split; [assumption|].
  unfold ordersToDevconnectTickets.
  rewrite !flat_map_app. simpl. rewrite Hc. reflexivity.
Qed.

Lemma unpaid_order_contributes_nothing_witness :
  convertOrder (items_info Samples.store_after_a) Samples.pending_order
    = ([], [])
  /\ ordersToDevconnectTickets
       ([Samples.paid_order] ++ Samples.pending_order :: [Samples.paid_order_b])
       (items_info Samples.store_after_a)
     = ordersToDevconnectTickets
         ([Samples.paid_order] ++ [Samples.paid_order_b])
         (items_info Samples.store_after_a).
Proof.
  apply (unpaid_order_contributes_nothing [Samples.paid_order]
           Samples.pending_order [Samples.paid_order_b]
           (items_info Samples.store_after_a)).
  vm_compute. discriminate.
Defined.

Lemma convertOrder_paid itemsInfo o :
  status o = "p" ->
  convertOrder itemsInfo o =
  (flat_map (fun p => fst (convertPosition o itemsInfo p)) (positions o),
   flat_map (fun p => snd (convertPosition o itemsInfo p)) (positions o)).
Proof.
  intros H. unfold convertOrder. rewrite H. reflexivity.
Qed.

(** ** Lower case *)

Lemma lower_ascii_code c :
  (is_capital c = true ->
   nat_of_ascii (lower_ascii c) = nat_of_ascii c + 32)
  /\ (is_capital c = false -> lower_ascii c = c).
Proof.
  destruct c as [[|] [|] [|] [|] [|] [|] [|] [|]];
    vm_compute; split; intros H; try reflexivity; discriminate H.
Qed.

Lemma lower_ascii_small c : is_capital (lower_ascii c) = false.
Proof.
  destruct c as [[|] [|] [|] [|] [|] [|] [|] [|]]; reflexivity.
Qed.

Lemma lower_ascii_below_128 c :
  Nat.ltb (nat_of_ascii c) 128 = true ->
  Nat.ltb (nat_of_ascii (lower_ascii c)) 128 = true.
Proof.
  destruct c as [[|] [|] [|] [|] [|] [|] [|] [|]];
    vm_compute; intros H; try reflexivity; discriminate H.
Qed.

Lemma toLowerCase_lowercase_of s : lowercase_of s (toLowerCase s).
Proof.
  unfold lowercase_of.
  induction s as [|c s IH]; simpl; constructor;
    [apply lower_ascii_code|assumption].
Qed.

Lemma toLowerCase_no_capital s : no_capital (toLowerCase s) = true.
Proof.
  unfold no_capital.
  induction s as [|c s IH]; simpl; [reflexivity|].
  rewrite lower_ascii_small. assumption.
Qed.

Lemma toLowerCase_ascii_text s :
  ascii_text s = true -> ascii_text (toLowerCase s) = true.
Proof.
  unfold ascii_text.
  induction s as [|c s IH]; simpl; [reflexivity|].
  intros H. apply andb_true_iff in H. destruct H as [Hc Hs].
  rewrite (lower_ascii_below_128 c Hc). auto.
Qed.

(** The small letter is the only character the rule allows, so the
    lower-case form of a text is unique. *)
Lemma lowercase_of_unique a b b' :
  lowercase_of a b -> lowercase_of a b' -> b = b'.
Proof.
  unfold lowercase_of. intros H H'.
  rewrite <- (string_of_list_ascii_of_string b),
          <- (string_of_list_ascii_of_string b').
  f_equal.
  revert H'. generalize (list_ascii_of_string b').
  induction H as [|c d la lb [Hc Hn] Hrest IH]; intros lb' H';
    inversion H' as [|c' d' la' lb'' [Hc' Hn'] Hrest']; subst;
    [reflexivity|].
  f_equal; [|apply IH; assumption].
  destruct (is_capital c) eqn:E.
  - rewrite <- (ascii_nat_embedding d), <- (ascii_nat_embedding d').
    rewrite (Hc eq_refl), (Hc' eq_refl). reflexivity.
  - rewrite (Hn eq_refl), (Hn' eq_refl). reflexivity.
Qed.

Example conversion_lowercases_sample :
  map email
    (fst (ordersToDevconnectTickets [Samples.paid_order]
            (items_info Samples.store_after_a)))
  = ["a@x.com"; "buyer@x.com"].
Proof. reflexivity. Qed.

(** C9: for a position of a paid order whose item matches an active
    ItemInfo row, the conversion produces a ticket for that position
    whose email is the attendee email in lower case when that email is
    present and non-empty, and the purchaser email of the order in lower
    case otherwise; in the second case the fallback is logged, and the
    conversion still returns (it is a total function).  The emails are
    ASCII text, and so is the email of the ticket; lower case is spelt
    out character by character: each capital letter A to Z has become
    the small letter and nothing else has changed. *)
Theorem ticket_email_rule orders itemsInfo o p existingItem :
  In o orders ->
  status o = "p" ->
  In p (positions o) ->
  map_get item_id itemsInfo (toString (pos_item p)) = Some existingItem ->
  ascii_text (order_email o) = true ->
  (forall a, attendee_email p = Some a -> ascii_text a = true) ->
  exists t,
    In t (fst (ordersToDevconnectTickets orders itemsInfo))
    /\ position_id t = toString (pos_id p)
    /\ devconnect_pretix_items_info_id t = item_info_id existingItem
    /\ ascii_text (email t) = true
    /\ no_capital (email t) = true
    /\ (forall a, attendee_email p = Some a -> a <> EmptyString ->
        email t = toLowerCase a /\ lowercase_of a (email t))
    /\ (attendee_email p = None \/ attendee_email p = Some EmptyString ->
        email t = toLowerCase (order_email o)
        /\ lowercase_of (order_email o) (email t)
        /\ In {| orderCode := code o; positionID := positionid p;
                 orderEmail := order_email o |}
              (snd (ordersToDevconnectTickets orders itemsInfo))).
Proof.
  intros Ho Hs Hp Hg Hoe Hae.
  eexists. split; [|split; [|split; [|split; [|split; [|split]]]]].
  - unfold ordersToDevconnectTickets. simpl. apply in_flat_map.
    exists o. split; [assumption|].
    rewrite (convertOrder_paid itemsInfo o Hs). simpl.
    apply in_flat_map. exists p. split; [assumption|].
    unfold convertPosition. rewrite Hg. simpl. left. reflexivity.
  - reflexivity.
  - reflexivity.
  - simpl. apply toLowerCase_ascii_text.
    destruct (attendee_email p) as [a|] eqn:Ha; simpl; [|assumption].
    destruct (is_empty_string a); [assumption|]. apply Hae. reflexivity.
  - simpl. apply toLowerCase_no_capital.
  - intros a Ha Hne. simpl. rewrite Ha. simpl.
    destruct a; [congruence|].
    split; [reflexivity|apply toLowerCase_lowercase_of].
  - intros Hnone. simpl. split; [|split].
    + destruct Hnone as [-> | ->]; reflexivity.
    + destruct Hnone as [-> | ->]; apply toLowerCase_lowercase_of.
    + apply in_flat_map. exists o. split; [assumption|].
      rewrite (convertOrder_paid itemsInfo o Hs). simpl.
      apply in_flat_map. exists p. split; [assumption|].
      unfold convertPosition. rewrite Hg. simpl.
      destruct Hnone as [-> | ->]; simpl; left; reflexivity.
Qed.

Lemma ticket_email_rule_witness :
  exists t,
    In t (fst (ordersToDevconnectTickets
                 [Samples.pending_order; Samples.paid_order]
                 (items_info Samples.store_after_a)))
    /\ position_id t = toString (pos_id Samples.position2)
    /\ devconnect_pretix_items_info_id t = 1
    /\ ascii_text (email t) = true
    /\ no_capital (email t) = true
    /\ (forall a, attendee_email Samples.position2 = Some a ->
        a <> EmptyString ->
        email t = toLowerCase a /\ lowercase_of a (email t))
    /\ (attendee_email Samples.position2 = None
        \/ attendee_email Samples.position2 = Some EmptyString ->
        email t = toLowerCase (order_email Samples.paid_order)
        /\ lowercase_of (order_email Samples.paid_order) (email t)
        /\ In {| orderCode := code Samples.paid_order;
                 positionID := positionid Samples.position2;
                 orderEmail := order_email Samples.paid_order |}
              (snd (ordersToDevconnectTickets
                      [Samples.pending_order; Samples.paid_order]
                      (items_info Samples.store_after_a)))).
Proof.
  apply (ticket_email_rule [Samples.pending_order; Samples.paid_order]
           (items_info Samples.store_after_a) Samples.paid_order
           Samples.position2
           {| item_info_id := 1; item_id := "7";
              devconnect_pretix_events_info_id := 1;
              item_name := "General admission";
              item_is_deleted := false |}).
  - simpl. right. left. reflexivity.
  - reflexivity.
  - simpl. right. left. reflexivity.
  - reflexivity.
  - reflexivity.
  - intros a Ha. discriminate Ha.
Defined.

(** ** The service object and its timer *)

(** C10: once the timer handle has been stored (a pass of the loop has
    completed), [stop] cancels the pending timer but leaves the handle in
    the field; a later [replaceApi] therefore sees the service as running
    and starts the sync loop again. *)
Theorem stop_keeps_timer_handle e h newAPI :
  timeout (service e) = Some h ->
  timeout (service (stop e)) = Some h
  /\ ~ In h (armed (stop e))
  /\ wasRunning (stop e) = true
  /\ in_flight (replaceApi newAPI (stop e)) = S (in_flight (stop e))
  /\ loop_alive (replaceApi newAPI (stop e)) = true.
Proof.
  intros H.
  assert (Hs : timeout (service (stop e)) = Some h).
  { unfold stop. rewrite H. simpl. assumption. }
  assert (Hw : wasRunning (stop e) = true).
  { unfold wasRunning. rewrite Hs. reflexivity. }
  split; [assumption|]. split; [|split; [assumption|]].
  - unfold stop. rewrite H. simpl. unfold clearTimeout.
    intros Hin. apply filter_In in Hin. destruct Hin as [_ Hne].
    rewrite Nat.eqb_refl in Hne. discriminate.
  - unfold replaceApi. rewrite Hw. simpl.
    assert (Hi : in_flight (stop (stop e)) = in_flight (stop e)).
    { unfold stop at 1. rewrite Hs. reflexivity. }
    rewrite Hi. split; [reflexivity|].
    unfold loop_alive. simpl. reflexivity.
Qed.

Lemma stop_keeps_timer_handle_witness :
  let e := pass_completes (Samples.env_ok Samples.config1)
             (startSyncLoop (new_engine Samples.api_ok empty_store)) in
  loop_alive (stop e) = false
  /\ timeout (service (stop e)) = Some 0
  /\ ~ In 0 (armed (stop e))
  /\ wasRunning (stop e) = true
  /\ in_flight (replaceApi Samples.api_down (stop e)) = S (in_flight (stop e))
  /\ loop_alive (replaceApi Samples.api_down (stop e)) = true.
Proof.
  intros e. split; [reflexivity|].
  apply (stop_keeps_timer_handle e 0 Samples.api_down).
  reflexivity.
Defined.

(** ** The readiness flag *)

Lemma trySync_body_outcome api env w :
  fst (trySync_body api env w) =
  match loaded_config env with
  | None => Rejected ConfigNotLoaded
  | Some _ => if reload_resolves env then Resolved tt
              else Rejected ReloadRejected
  end.
Proof.
  unfold trySync_body, getDevconnectPretixConfig, bind at 1, ret.
  destruct (loaded_config env) as [cfg|]; [|reflexivity].
  unfold bind. rewrite sync_runs_every_organizer.
  unfold semaphore_reload. destruct (reload_resolves env); reflexivity.
Qed.

Lemma trySync_flag env svc w :
  hasCompletedSyncSinceStarting (fst (trySync env svc w))
  = hasCompletedSyncSinceStarting svc || pass_reaches_end env.
Proof.
  unfold trySync, pass_reaches_end.
  pose proof (trySync_body_outcome (pretixAPI svc) env w) as H.
  destruct (trySync_body (pretixAPI svc) env w) as [[u|e] w']; simpl in *.
  - destruct (loaded_config env); [|discriminate].
    destruct (reload_resolves env); [|discriminate].
    rewrite orb_true_r. reflexivity.
  - destruct (loaded_config env).
    + destruct (reload_resolves env); [discriminate|].
      rewrite orb_false_r. reflexivity.
    + rewrite orb_false_r. reflexivity.
Qed.

Lemma run_passes_flag envs st :
  hasCompletedSyncSinceStarting (fst (run_passes envs st))
  = hasCompletedSyncSinceStarting (fst st) || existsb pass_reaches_end envs.
Proof.
  revert st. unfold run_passes.
  induction envs as [|env rest IH]; intros st; simpl.
  - rewrite orb_false_r. reflexivity.
  - rewrite IH. simpl. rewrite trySync_flag. rewrite orb_assoc. reflexivity.
Qed.

(** C7 (as amended): the readiness flag is false when the service is
    created, and after any number of passes it is true exactly when some
    pass reached the end of the [try] block of [trySync], that is loaded
    its configuration and had the group-membership reload resolve.  So it
    stays false while every pass so far failed to load the configuration
    or to reload; fetch, validation and phase failures, which are caught
    inside [sync], have no influence on it. *)
Theorem readiness_flag_after_passes api w envs :
  hasCompletedSyncSinceStarting (new_service api) = false
  /\ hasCompletedSyncSinceStarting
       (fst (run_passes envs (new_service api, w)))
     = existsb pass_reaches_end envs.
Proof.
  split; [reflexivity|]. rewrite run_passes_flag. reflexivity.
Qed.

(** C7 (as stated) fails: in the first pass every provider call rejects,
    the failure is reported, and the flag is nevertheless true after the
    pass. *)
Lemma readiness_flag_set_by_failed_pass :
  let r := run_passes [Samples.env_ok Samples.config1]
             (new_service Samples.api_down, init_world empty_store) in
  reported (snd r) = [ApiRejected]
  /\ writes (snd r) = []
  /\ hasCompletedSyncSinceStarting (fst r) = true.
Proof.
  simpl. repeat split; reflexivity.
Qed.

(** ** The event-info phase *)

Lemma syncEventInfos_written organizer event info w :
  syncEventInfos organizer event info w
  = (Resolved true, written (event_write (db w) event info) w).
Proof.
  unfold syncEventInfos, try_catch, bind, query, event_write. simpl.
  destruct (fetchPretixEventInfo (db w) (event_config_id event));
    reflexivity.
Qed.

Lemma find_app_none {A} (f : A -> bool) l1 l2 :
  find f l1 = None -> find f (l1 ++ l2) = find f l2.
Proof.
  induction l1 as [|x l1 IH]; simpl; [reflexivity|].
  destruct (f x); [discriminate|assumption].
Qed.

Lemma find_update_event c id name deleted t :
  find (fun e => String.eqb (pretix_events_config_id e) c)
       (update_event id name deleted t)
  = option_map (fun e => if Nat.eqb (event_info_id e) id
                         then set_event name deleted e else e)
      (find (fun e => String.eqb (pretix_events_config_id e) c) t).
Proof.
  induction t as [|x t IH]; simpl; [reflexivity|].
  destruct (Nat.eqb (event_info_id x) id) eqn:Hid; simpl;
    destruct (String.eqb (pretix_events_config_id x) c); simpl;
    rewrite ?Hid; auto.
Qed.

(** After the event-info phase the EventInfo row of the event exists,
    carries the fetched name and is active. *)
Lemma event_row_after_event_write s event info :
  exists row,
    fetchPretixEventInfo (apply_write (event_write s event info) s)
      (event_config_id event) = Some row
    /\ pretix_events_config_id row = event_config_id event
    /\ event_name row = en (event_api_name info)
    /\ event_is_deleted row = false
    /\ (forall ex, fetchPretixEventInfo s (event_config_id event) = Some ex ->
        event_info_id row = event_info_id ex).
Proof.
  unfold event_write, fetchPretixEventInfo.
  destruct (find _ (events_info s)) as [ex|] eqn:Hf; simpl.
  - rewrite find_update_event, Hf. simpl. rewrite Nat.eqb_refl.
    eexists. split; [reflexivity|]. simpl.
    apply find_some in Hf. destruct Hf as [_ Hc].
    apply String.eqb_eq in Hc. repeat split; auto.
    intros ex' E. congruence.
  - unfold insert_event. rewrite find_app_none by assumption. simpl.
    rewrite String.eqb_refl. eexists. split; [reflexivity|].
    simpl. repeat split; auto. intros ex' E. discriminate.
Qed.

(** ** The item-info phase under allow-list drift *)

Lemma set_has_In l k : set_has l k = true <-> In k l.
Proof.
  unfold set_has. rewrite existsb_exists. split.
  - intros [x [Hin He]]. apply String.eqb_eq in He. subst. assumption.
  - intros H. exists k. split; [assumption|apply String.eqb_refl].
Qed.

Lemma drift_detected active fetched_ids i :
  In i active -> ~ In i fetched_ids ->
  existsb (fun k => negb (set_has fetched_ids k)) active = true.
Proof.
  intros Hin Hnot. apply existsb_exists. exists i. split; [assumption|].
  destruct (set_has fetched_ids i) eqn:E; [|reflexivity].
  apply set_has_In in E. contradiction.
Qed.

Lemma syncItemInfos_drift organizer event its w i :
  In i (activeItemIDs event) ->
  ~ In i (map api_item_key its) ->
  syncItemInfos organizer event its w =
  (Resolved false,
   aborted_with
     (match fetchPretixEventInfo (db w) (event_config_id event) with
      | Some _ => ActiveItemsMissing (activeItemIDs event)
                    (map api_item_key its)
      | None => EventInfoNotFound (event_config_id event)
      end) w).
Proof.
  intros Hin Hnot.
  unfold syncItemInfos, try_catch, bind at 1, query. simpl.
  destruct (fetchPretixEventInfo (db w) (event_config_id event)); simpl.
  - rewrite (drift_detected _ _ i Hin Hnot). reflexivity.
  - reflexivity.
Qed.

(** C5: when the active-item allow-list of an event names an item id
    that is absent from the fetched items, the item-info phase issues no
    write and leaves the store as it was, reports an error and returns
    failure; the error is the drift error as soon as the EventInfo row
    exists, which is the case inside [syncEvent]; there, the ticket phase
    is skipped: after the write of the event-info phase, the only effect
    of [syncEvent] is the report of the drift error. *)
Theorem allow_list_drift_is_fail_closed organizer event data w i :
  In i (activeItemIDs event) ->
  ~ In i (map api_item_key (items data)) ->
  let drift :=
    ActiveItemsMissing (activeItemIDs event)
      (map api_item_key (items data)) in
  (exists e,
     syncItemInfos organizer event (items data) w
     = (Resolved false, aborted_with e w)
     /\ (fetchPretixEventInfo (db w) (event_config_id event) <> None ->
         e = drift))
  /\ syncEvent organizer event data w
     = (Resolved tt,
        aborted_with drift
          (written (event_write (db w) event (eventInfo data)) w)).
Proof.
  intros Hin Hnot drift. split.
  - rewrite (syncItemInfos_drift organizer event (items data) w i Hin Hnot).
    eexists. split; [reflexivity|].
    destruct (fetchPretixEventInfo (db w) (event_config_id event));
      [reflexivity|congruence].
  - unfold syncEvent, try_catch, bind at 1.
    rewrite syncEventInfos_written. simpl. unfold bind at 1.
    rewrite (syncItemInfos_drift organizer event (items data) _ i Hin Hnot).
    simpl.
    destruct (event_row_after_event_write (db w) event (eventInfo data))
      as [row [Hrow _]].
    rewrite Hrow. reflexivity.
Qed.

Lemma allow_list_drift_is_fail_closed_witness :
  let w := init_world Samples.store_after_a in
  let drift := ActiveItemsMissing ["7"] ["8"] in
  (exists e,
     syncItemInfos Samples.organizer1 Samples.event_a [Samples.item8] w
     = (Resolved false, aborted_with e w)
     /\ (fetchPretixEventInfo Samples.store_after_a "cfg-a" <> None ->
         e = drift))
  /\ syncEvent Samples.organizer1 Samples.event_a Samples.data_a_drift w
     = (Resolved tt,
        aborted_with drift
          (written (event_write Samples.store_after_a Samples.event_a
                      (eventInfo Samples.data_a_drift)) w)).
Proof.
  apply (allow_list_drift_is_fail_closed Samples.organizer1 Samples.event_a
           Samples.data_a_drift (init_world Samples.store_after_a) "7").
  - simpl. left. reflexivity.
  - vm_compute. intros [H|[]]. discriminate.
Defined.

(** ** Store relations kept by a whole pass *)

Section Keeps.

Variable RS : Store -> Store -> Prop.
Hypothesis RS_refl : forall s, RS s s.
Hypothesis RS_trans : forall s1 s2 s3, RS s1 s2 -> RS s2 s3 -> RS s1 s3.
Hypothesis RS_write :
  forall wr s, inserts_unconsumed wr -> RS s (apply_write wr s).

Lemma keeps_ret {A} (a : A) : keeps RS (ret a).
Proof. intros w. apply RS_refl. Qed.

Lemma keeps_throw {A} (e : Error) : keeps RS (@throw A e).
Proof. intros w. apply RS_refl. Qed.

Lemma keeps_query {A} (q : Store -> A) : keeps RS (query q).
Proof. intros w. apply RS_refl. Qed.

Lemma keeps_reportError e : keeps RS (reportError e).
Proof. intros w. apply RS_refl. Qed.

Lemma keeps_await_api {A} (r : option A) : keeps RS (await_api r).
Proof. destruct r; intros w; apply RS_refl. Qed.

Lemma keeps_store_write wr :
  inserts_unconsumed wr -> keeps RS (store_write wr).
Proof. intros H w. simpl. apply RS_write. assumption. Qed.

Lemma keeps_bind {A B} (m : M A) (k : A -> M B) :
  keeps RS m -> (forall a, keeps RS (k a)) -> keeps RS (bind m k).
Proof.
  intros Hm Hk w. unfold bind. specialize (Hm w).
  destruct (m w) as [[a|e] w1]; simpl in *.
  - eapply RS_trans; [exact Hm|apply Hk].
  - assumption.
Qed.

Lemma keeps_try_catch {A} (m : M A) (h : Error -> M A) :
  keeps RS m -> (forall e, keeps RS (h e)) -> keeps RS (try_catch m h).
Proof.
  intros Hm Hh w. unfold try_catch. specialize (Hm w).
  destruct (m w) as [[a|e] w1]; simpl in *.
  - assumption.
  - eapply RS_trans; [exact Hm|apply Hh].
Qed.

Lemma keeps_for_each {A} (l : list A) (f : A -> M unit) :
  (forall x, In x l -> keeps RS (f x)) -> keeps RS (for_each l f).
Proof.
  induction l as [|x l IH]; intros H; simpl.
  - apply keeps_ret.
  - apply keeps_bind; [apply H; now left|].
    intros _. apply IH. intros y Hy. apply H. now right.
Qed.

Lemma keeps_promise_all {A} (tasks : list (M A)) :
  (forall t, In t tasks -> keeps RS t) -> keeps RS (promise_all tasks).
Proof.
  induction tasks as [|t r IH]; intros H; simpl.
  - apply keeps_ret.
  - intros w. pose proof (H t (or_introl eq_refl) w) as Ht.
    assert (Hr : keeps RS (promise_all r))
      by (apply IH; intros t' Ht'; apply H; now right).
    destruct (t w) as [[a|e] w1]; simpl in *.
    + specialize (Hr w1).
      destruct (promise_all r w1) as [[l|e] w2]; simpl in *;
        eapply RS_trans; eauto.
    + eapply RS_trans; [exact Ht|apply Hr].
Qed.

Lemma keeps_promise_allSettled {A} (tasks : list (M A)) :
  (forall t, In t tasks -> keeps RS t) ->
  keeps RS (promise_allSettled tasks).
Proof.
  induction tasks as [|t r IH]; intros H; simpl.
  - apply keeps_ret.
  - intros w. pose proof (H t (or_introl eq_refl) w) as Ht.
    assert (Hr : keeps RS (promise_allSettled r))
      by (apply IH; intros t' Ht'; apply H; now right).
    destruct (t w) as [o w1]; simpl in *. specialize (Hr w1).
    destruct (promise_allSettled r w1) as [[l|e] w2]; simpl in *;
      eapply RS_trans; eauto.
Qed.

Lemma converted_tickets_unconsumed orders itemsInfo t :
  In t (fst (ordersToDevconnectTickets orders itemsInfo)) ->
  is_consumed t = false /\ is_deleted t = false.
Proof.
  unfold ordersToDevconnectTickets. simpl. intros H.
  apply in_flat_map in H. destruct H as [o [_ H]].
  unfold convertOrder in H.
  destruct (negb (String.eqb (status o) "p")); [contradiction|].
  simpl in H. apply in_flat_map in H. destruct H as [p [_ H]].
  unfold convertPosition in H.
  destruct (map_get item_id itemsInfo (toString (pos_item p)));
    [|contradiction].
  simpl in H. destruct H as [<-|[]]. split; reflexivity.
Qed.

Lemma keeps_syncEventInfos organizer event info :
  keeps RS (syncEventInfos organizer event info).
Proof.
  unfold syncEventInfos. apply keeps_try_catch.
  - apply keeps_bind; [apply keeps_query|]. intros ex.
    apply keeps_bind; [|intros; apply keeps_ret].
    destruct ex; apply keeps_store_write; exact I.
  - intros e. apply keeps_bind; [apply keeps_reportError|].
    intros; apply keeps_ret.
Qed.

Lemma keeps_syncItemInfos organizer event its :
  keeps RS (syncItemInfos organizer event its).
Proof.
  unfold syncItemInfos. apply keeps_try_catch.
  - apply keeps_bind; [apply keeps_query|]. intros [info|];
      [|apply keeps_throw].
    destruct (existsb _ (activeItemIDs event)); [apply keeps_throw|].
    apply keeps_bind; [apply keeps_query|]. intros existing.
    apply keeps_bind.
    { apply keeps_for_each. intros x _. apply keeps_store_write. exact I. }
    intros _. apply keeps_bind.
    { apply keeps_for_each. intros x _.
      destruct (map_get item_id existing (api_item_key x));
        [apply keeps_store_write; exact I|apply keeps_ret]. }
    intros _. apply keeps_bind; [|intros; apply keeps_ret].
    apply keeps_for_each. intros x _. apply keeps_store_write. exact I.
  - intros e. apply keeps_bind; [apply keeps_reportError|].
    intros; apply keeps_ret.
Qed.

Lemma keeps_syncTickets organizer event orders :
  keeps RS (syncTickets organizer event orders).
Proof.
  unfold syncTickets. apply keeps_try_catch.
  - apply keeps_bind; [apply keeps_query|]. intros [info|];
      [|apply keeps_throw].
    apply keeps_bind; [apply keeps_query|]. intros updatedItemsInfo.
    apply keeps_bind; [apply keeps_query|]. intros existing.
    apply keeps_bind.
    { apply keeps_for_each. intros x Hx. apply keeps_store_write.
      simpl. unfold newTicketsOf in Hx. apply filter_In in Hx.
      destruct Hx as [Hx _].
      apply (converted_tickets_unconsumed _ _ _ Hx). }
    intros _. apply keeps_bind.
    { apply keeps_for_each. intros x _. apply keeps_store_write. exact I. }
    intros _. apply keeps_bind; [|intros; apply keeps_ret].
    apply keeps_for_each. intros x _. apply keeps_store_write. exact I.
  - intros e. apply keeps_bind; [apply keeps_reportError|].
    intros; apply keeps_ret.
Qed.

Lemma keeps_syncEvent organizer event data :
  keeps RS (syncEvent organizer event data).
Proof.
  unfold syncEvent. apply keeps_try_catch; [|apply keeps_reportError].
  apply keeps_bind; [apply keeps_syncEventInfos|]. intros ok1.
  destruct (negb ok1); [apply keeps_ret|].
  apply keeps_bind; [apply keeps_syncItemInfos|]. intros ok2.
  destruct (negb ok2); [apply keeps_ret|].
  apply keeps_bind; [apply keeps_syncTickets|]. intros ok3.
  destruct (negb ok3); apply keeps_ret.
Qed.

Lemma keeps_fetchEventData api organizer event :
  keeps RS (fetchEventData api organizer event).
Proof.
  intros w. rewrite fetchEventData_fetched. apply RS_refl.
Qed.

Lemma keeps_syncOrganizer api organizer :
  keeps RS (syncOrganizer api organizer).
Proof.
  unfold syncOrganizer. apply keeps_try_catch.
  - apply keeps_bind.
    + apply keeps_promise_all. intros t Ht. apply in_map_iff in Ht.
      destruct Ht as [ev [<- _]].
      apply keeps_bind; [apply keeps_fetchEventData|].
      intros; apply keeps_ret.
    + intros l. destruct (negb (isnil _)); [apply keeps_throw|].
      apply keeps_bind; [|intros; apply keeps_ret].
      apply keeps_promise_allSettled. intros t Ht.
      apply in_map_iff in Ht. destruct Ht as [ed [<- _]].
      apply keeps_syncEvent.
  - intros e. apply keeps_bind; [apply keeps_reportError|].
    intros; apply keeps_ret.
Qed.

Lemma keeps_sync api cfg : keeps RS (sync api cfg).
Proof.
  unfold sync. apply keeps_try_catch; [|apply keeps_reportError].
  apply keeps_bind; [|intros; apply keeps_ret].
  apply keeps_promise_all. intros t Ht. apply in_map_iff in Ht.
  destruct Ht as [o [<- _]]. apply keeps_syncOrganizer.
Qed.

Lemma keeps_trySync env svc w :
  RS (db w) (db (snd (trySync env svc w))).
Proof.
  unfold trySync.
  assert (H : keeps RS (trySync_body (pretixAPI svc) env)).
  { unfold trySync_body. apply keeps_bind.
    - unfold getDevconnectPretixConfig. apply keeps_ret.
    - intros [cfg|]; [|apply keeps_throw].
      apply keeps_bind; [apply keeps_sync|]. intros _.
      unfold semaphore_reload.
      destruct (reload_resolves env);
        [apply keeps_ret|apply keeps_throw]. }
  specialize (H w).
  destruct (trySync_body (pretixAPI svc) env w) as [[u|e] w'];
    simpl in *; assumption.
Qed.

End Keeps.

(** ** The consumed flag *)

Lemma consumed_kept_refl s : consumed_kept s s.
Proof.
  exists []. rewrite app_nil_r. split; [reflexivity|constructor].
Qed.

Lemma consumed_kept_trans s1 s2 s3 :
  consumed_kept s1 s2 -> consumed_kept s2 s3 -> consumed_kept s1 s3.
Proof.
  intros [c1 [H1 F1]] [c2 [H2 F2]]. exists (c1 ++ c2). split.
  - rewrite H2, H1, app_assoc. reflexivity.
  - apply Forall_app. split; assumption.
Qed.

Lemma consumed_flags_update_ticket n t :
  map (fun x => (position_id x, is_consumed x)) (update_ticket n t)
  = map (fun x => (position_id x, is_consumed x)) t.
Proof.
  unfold update_ticket. rewrite map_map. apply map_ext.
  intros o. destruct (same_position n o); reflexivity.
Qed.

Lemma consumed_flags_soft_delete_ticket n t :
  map (fun x => (position_id x, is_consumed x)) (soft_delete_ticket n t)
  = map (fun x => (position_id x, is_consumed x)) t.
Proof.
  unfold soft_delete_ticket. rewrite map_map. apply map_ext.
  intros o. destruct (same_position n o); reflexivity.
Qed.

Lemma consumed_kept_write wr s :
  inserts_unconsumed wr -> consumed_kept s (apply_write wr s).
Proof.
  intros H. unfold consumed_kept, consumed_flags.
  destruct wr; simpl; try (apply consumed_kept_refl).
  - unfold insert_ticket. destruct (existsb (same_position t) (tickets_tbl s)).
    + exists []. rewrite consumed_flags_update_ticket, app_nil_r.
      split; [reflexivity|constructor].
    + exists [(position_id t, is_consumed t)]. rewrite map_app. simpl.
      split; [reflexivity|]. constructor; [exact H|constructor].
  - exists []. rewrite consumed_flags_update_ticket, app_nil_r.
    split; [reflexivity|constructor].
  - exists []. rewrite consumed_flags_soft_delete_ticket, app_nil_r.
    split; [reflexivity|constructor].
Qed.

(** C6: no sync operation changes the consumed flag of an existing
    Ticket row.  Through the ticket phase, through the sync of an event
    and through a whole pass, the ticket rows that existed before are
    still there, in place, each with its position id and the consumed
    flag it had; the rows created meanwhile start with the flag false. *)
Theorem consumed_flag_survives_sync organizer event orders data env svc w :
  consumed_kept (db w) (db (snd (syncTickets organizer event orders w)))
  /\ consumed_kept (db w) (db (snd (syncEvent organizer event data w)))
  /\ consumed_kept (db w) (db (snd (trySync env svc w))).
Proof.
  split; [|split].
  - apply (keeps_syncTickets consumed_kept consumed_kept_refl
             consumed_kept_trans consumed_kept_write).
  - apply (keeps_syncEvent consumed_kept consumed_kept_refl
             consumed_kept_trans consumed_kept_write).
  - apply (keeps_trySync consumed_kept consumed_kept_refl
             consumed_kept_trans consumed_kept_write).
Qed.


(** ** JavaScript maps and list helpers *)

Lemma map_get_some {A} (key : A -> string) (l : list A) k x :
  map_get key l k = Some x -> In x l /\ key x = k.
Proof.
  unfold map_get. intros H. apply find_some in H. destruct H as [Hin He].
  apply in_rev in Hin. apply String.eqb_eq in He. auto.
Qed.

Lemma map_has_in {A} (key : A -> string) (l : list A) x :
  In x l -> map_has key l (key x) = true.
Proof.
  unfold map_has, map_get. intros H.
  destruct (find (fun y => String.eqb (key y) (key x)) (rev l)) eqn:E;
    [reflexivity|].
  apply in_rev in H. apply (find_none _ _ E) in H.
  rewrite String.eqb_refl in H. discriminate.
Qed.

Lemma map_has_true {A} (key : A -> string) (l : list A) k :
  map_has key l k = true -> exists x, In x l /\ key x = k.
Proof.
  unfold map_has. destruct (map_get key l k) as [x|] eqn:E; [|discriminate].
  intros _. exists x. apply map_get_some. assumption.
Qed.

Lemma NoDup_map_eq {A B} (f : A -> B) (l : list A) x y :
  NoDup (map f l) -> In x l -> In y l -> f x = f y -> x = y.
Proof.
  induction l as [|a l IH]; simpl; [tauto|].
  intros Hnd Hx Hy Hf. inversion Hnd as [|? ? Hnot Hnd']; subst.
  destruct Hx as [->|Hx], Hy as [->|Hy].
  - reflexivity.
  - exfalso. apply Hnot. rewrite Hf. apply in_map. assumption.
  - exfalso. apply Hnot. rewrite <- Hf. apply in_map. assumption.
  - apply IH; assumption.
Qed.

Lemma NoDup_map_filter {Row Key} (key : Row -> Key) (keep : Row -> bool)
  (rows : list Row) (Hnd : NoDup (map key rows)) :
  NoDup (map key (filter keep rows)).
Proof.
  induction rows as [|a l IH]; simpl; [trivial|].
  inversion Hnd as [|? ? Hnot Hnd']; subst.
  destruct (keep a); simpl; [|auto].
  constructor; [|auto].
  intros Hin. apply Hnot. apply in_map_iff in Hin.
  destruct Hin as [x [Hx Hin]]. apply filter_In in Hin.
  rewrite <- Hx. apply in_map. tauto.
Qed.

Lemma filter_nil {Row} (keep : Row -> bool) (rows : list Row)
  (H : forall r, In r rows -> keep r = false) : filter keep rows = [].
Proof.
  revert H. induction rows as [|a l IH]; simpl; intros H; [reflexivity|].
  rewrite (H a) by now left. apply IH. intros x Hx. apply H. now right.
Qed.

Lemma fold_left_map {A B C} (f : A -> C -> A) (g : B -> C) (l : list B) a :
  fold_left f (map g l) a = fold_left (fun a0 x => f a0 (g x)) l a.
Proof.
  revert a. induction l as [|x l IH]; intros a; simpl; [reflexivity|].
  apply IH.
Qed.

(** ** The three-way diff of a keyed table reaches a fixed point *)

Section DiffFacts.
Context {R N : Type}.
Variables (rk : R -> string) (nk : N -> string).
Variables (addr live : R -> bool).
Variable differs : R -> N -> bool.
Variable put : N -> R -> R.
Variable del : R -> R.
Variable mk : N -> list R -> R.
Variable incoming : list N.

Hypothesis put_rk : forall n r, rk (put n r) = rk r.
Hypothesis put_addr : forall n r, addr (put n r) = addr r.
Hypothesis put_live : forall n r, In n incoming -> live (put n r) = true.
Hypothesis put_differs : forall n r, differs (put n r) n = false.
Hypothesis del_rk : forall r, rk (del r) = rk r.
Hypothesis del_addr : forall r, addr (del r) = addr r.
Hypothesis del_live : forall r, live (del r) = false.
Hypothesis mk_rk : forall n t, rk (mk n t) = nk n.
Hypothesis mk_addr : forall n t, addr (mk n t) = true.
Hypothesis mk_live : forall n t, In n incoming -> live (mk n t) = true.
Hypothesis mk_differs : forall n t, differs (mk n t) n = false.
Hypothesis incoming_nodup : NoDup (map nk incoming).

Local Abbreviation hit := (Diff.hit rk addr).
Local Abbreviation modify := (Diff.modify rk addr).
Local Abbreviation upsert := (Diff.upsert rk nk addr put mk).
Local Abbreviation existing := (Diff.existing addr live).
Local Abbreviation to_insert := (Diff.to_insert rk nk incoming).
Local Abbreviation to_update := (Diff.to_update rk nk differs incoming).
Local Abbreviation to_remove := (Diff.to_remove rk nk incoming).

Lemma hit_true k r : hit k r = true <-> addr r = true /\ rk r = k.
Proof.
  unfold Diff.hit. rewrite andb_true_iff, String.eqb_eq. tauto.
Qed.

(** A fold of modifications on distinct keys touches each row once. *)
Lemma fold_modify {A} (kf : A -> string) (g : A -> R -> R) (l : list A) :
  (forall a r, rk (g a r) = rk r) ->
  (forall a r, addr (g a r) = addr r) ->
  NoDup (map kf l) ->
  forall t,
    fold_left (fun t0 a => modify (kf a) (g a) t0) l t =
    map (fun r => match find (fun a => hit (kf a) r) l with
                  | Some a => g a r
                  | None => r
                  end) t.
Proof.
  intros Hrk Haddr. induction l as [|a l IH]; intros Hnd t; simpl.
  - symmetry. apply map_id.
  - inversion Hnd as [|? ? Hnot Hnd']; subst.
    rewrite (IH Hnd'). unfold Diff.modify at 1. rewrite map_map.
    apply map_ext. intros r.
    destruct (hit (kf a) r) eqn:Hh; [|reflexivity].
    assert (Hnone : find (fun a0 => hit (kf a0) (g a r)) l = None).
    { destruct (find (fun a0 => hit (kf a0) (g a r)) l) as [b|] eqn:Hf;
        [|reflexivity].
      exfalso. apply find_some in Hf. destruct Hf as [Hb Hhb].
      apply hit_true in Hhb. apply hit_true in Hh.
      rewrite Hrk in Hhb. apply Hnot.
      replace (kf a) with (kf b) by (destruct Hhb, Hh; congruence).
      apply in_map. assumption. }
    rewrite Hnone. reflexivity.
Qed.

Variable x : list R.

Local Abbreviation settled := (Diff.settled rk nk addr live differs incoming x).
Local Abbreviation covered := (Diff.covered rk nk addr live).

Lemma upsert_settled n t :
  In n incoming ->
  (forall r, In r t -> settled r) ->
  forall r, In r (upsert n t) -> settled r.
Proof.
  intros Hn Ht r Hr. unfold Diff.settled. unfold Diff.upsert in Hr.
  destruct (existsb (hit (nk n)) t).
  - unfold Diff.modify in Hr. apply in_map_iff in Hr.
    destruct Hr as [r0 [<- Hr0]].
    destruct (hit (nk n) r0) eqn:Hh; [|apply Ht; assumption].
    intros _ _. right. exists n. apply hit_true in Hh.
    rewrite put_rk. intuition.
  - apply in_app_or in Hr.
    destruct Hr as [Hr|[<-|[]]]; [apply Ht; assumption|].
    intros _ _. right. exists n. rewrite mk_rk. auto.
Qed.

Lemma fold_upsert_settled l :
  (forall n, In n l -> In n incoming) ->
  forall t, (forall r, In r t -> settled r) ->
  forall r, In r (fold_left (fun t0 n => upsert n t0) l t) -> settled r.
Proof.
  induction l as [|n l IH]; intros Hl t Ht; simpl; [assumption|].
  apply IH.
  - intros m Hm. apply Hl. now right.
  - apply upsert_settled; [apply Hl; now left|assumption].
Qed.

Lemma upsert_keeps_covered n0 n t :
  In n0 incoming -> covered n t -> covered n (upsert n0 t).
Proof.
  intros Hn0 [r [Hr [Ha [Hl Hk]]]]. unfold Diff.upsert.
  destruct (existsb (hit (nk n0)) t).
  - exists (if hit (nk n0) r then put n0 r else r). split.
    + unfold Diff.modify. apply in_map_iff. exists r. auto.
    + destruct (hit (nk n0) r); [|auto].
      rewrite put_rk, put_addr, put_live; auto.
  - exists r. split; [apply in_or_app; now left|auto].
Qed.

Lemma upsert_covers n t : In n incoming -> covered n (upsert n t).
Proof.
  intros Hn. unfold Diff.upsert.
  destruct (existsb (hit (nk n)) t) eqn:He.
  - apply existsb_exists in He. destruct He as [r [Hr Hh]].
    exists (put n r). split.
    + unfold Diff.modify. apply in_map_iff. exists r.
      rewrite Hh. auto.
    + apply hit_true in Hh. rewrite put_rk, put_addr, put_live; intuition.
  - exists (mk n t). split; [apply in_or_app; right; now left|].
    rewrite mk_rk, mk_addr, mk_live; auto.
Qed.

Lemma fold_upsert_covered l n :
  (forall m, In m l -> In m incoming) ->
  forall t, covered n t \/ In n l ->
  covered n (fold_left (fun t0 m => upsert m t0) l t).
Proof.
  induction l as [|m l IH]; intros Hl t H; simpl.
  - destruct H as [H|[]]. assumption.
  - apply IH; [intros m' Hm'; apply Hl; now right|].
    destruct H as [H|[->|H]].
    + left. apply upsert_keeps_covered; [apply Hl; now left|assumption].
    + left. apply upsert_covers. apply Hl. now left.
    + now right.
Qed.

End DiffFacts.

Section DiffFixedPoint.
Context {R N : Type}.
Variables (rk : R -> string) (nk : N -> string).
Variables (addr live : R -> bool).
Variable differs : R -> N -> bool.
Variable put : N -> R -> R.
Variable del : R -> R.
Variable mk : N -> list R -> R.
Variable incoming : list N.

Hypothesis put_rk : forall n r, rk (put n r) = rk r.
Hypothesis put_addr : forall n r, addr (put n r) = addr r.
Hypothesis put_live : forall n r, In n incoming -> live (put n r) = true.
Hypothesis put_differs : forall n r, differs (put n r) n = false.
Hypothesis del_rk : forall r, rk (del r) = rk r.
Hypothesis del_addr : forall r, addr (del r) = addr r.
Hypothesis del_live : forall r, live (del r) = false.
Hypothesis mk_rk : forall n t, rk (mk n t) = nk n.
Hypothesis mk_addr : forall n t, addr (mk n t) = true.
Hypothesis mk_live : forall n t, In n incoming -> live (mk n t) = true.
Hypothesis mk_differs : forall n t, differs (mk n t) n = false.
Hypothesis incoming_nodup : NoDup (map nk incoming).

Variable t : list R.
Hypothesis existing_nodup : NoDup (map rk (Diff.existing addr live t)).

Local Abbreviation hit := (Diff.hit rk addr).
Local Abbreviation x := (Diff.existing addr live t).
Local Abbreviation ta := (Diff.inserted rk nk addr live put mk incoming t).
Local Abbreviation tb :=
  (Diff.updated rk nk addr live differs put mk incoming t).
Local Abbreviation tc :=
  (Diff.synced rk nk addr live differs put del mk incoming t).
Local Abbreviation to_insert := (Diff.to_insert rk nk incoming).
Local Abbreviation to_update := (Diff.to_update rk nk differs incoming).
Local Abbreviation to_remove := (Diff.to_remove rk nk incoming).

Lemma to_insert_incl l n : In n (to_insert l) -> In n incoming.
Proof. unfold Diff.to_insert. intros H. apply filter_In in H. tauto. Qed.

Lemma to_update_incl l n : In n (to_update l) -> In n incoming.
Proof.
  unfold Diff.to_update. intros H. apply filter_In in H.
  destruct H as [H _]. apply filter_In in H. tauto.
Qed.

Lemma inserted_settled r :
  In r ta -> Diff.settled rk nk addr live differs incoming x r.
Proof.
  unfold Diff.inserted.
  apply (fold_upsert_settled rk nk addr live differs put mk incoming
           put_rk put_differs mk_rk mk_differs x).
  - apply to_insert_incl.
  - intros r0 Hr0 Ha Hl. left. unfold Diff.existing.
    apply filter_In. rewrite Ha, Hl. auto.
Qed.

Lemma inserted_covered n :
  In n incoming -> Diff.covered rk nk addr live n ta.
Proof.
  intros Hn. unfold Diff.inserted.
  apply (fold_upsert_covered rk nk addr live put mk incoming
           put_rk put_addr put_live mk_rk mk_addr mk_live).
  - apply to_insert_incl.
  - destruct (map_has rk x (nk n)) eqn:Hh.
    + left. apply map_has_true in Hh. destruct Hh as [r [Hr Hk]].
      unfold Diff.existing in Hr. apply filter_In in Hr.
      destruct Hr as [Hr Hal]. apply andb_true_iff in Hal.
      exists r. tauto.
    + right. unfold Diff.to_insert. apply filter_In.
      rewrite Hh. auto.
Qed.

Lemma updated_closed :
  tb = map (fun r => match find (fun n => hit (nk n) r) (to_update x) with
                     | Some n => put n r
                     | None => r
                     end) ta.
Proof.
  unfold Diff.updated.
  apply (fold_modify rk addr nk put (to_update x) put_rk put_addr).
  unfold Diff.to_update. do 2 apply NoDup_map_filter. assumption.
Qed.

Lemma synced_closed :
  tc = map (fun r => match find (fun e => hit (rk e) r) (to_remove x) with
                     | Some _ => del r
                     | None => r
                     end) tb.
Proof.
  unfold Diff.synced.
  apply (fold_modify rk addr rk (fun _ => del) (to_remove x)
           (fun _ => del_rk) (fun _ => del_addr)).
  unfold Diff.to_remove. apply NoDup_map_filter. assumption.
Qed.

Lemma hit_self r : addr r = true -> hit (rk r) r = true.
Proof. intros H. unfold Diff.hit. rewrite H, String.eqb_refl. reflexivity. Qed.

(** Every existing row of the synced table agrees with an incoming
    entry. *)
Lemma synced_rows_agree r :
  In r tc -> addr r = true -> live r = true ->
  exists n, In n incoming /\ nk n = rk r /\ differs r n = false.
Proof.
  rewrite synced_closed. intros Hr Ha Hl.
  apply in_map_iff in Hr. destruct Hr as [r2 [Hr Hr2]].
  destruct (find (fun e => hit (rk e) r2) (to_remove x)) as [e|] eqn:F3.
  { subst r. rewrite del_live in Hl. discriminate. }
  subst r2. rewrite updated_closed in Hr2.
  apply in_map_iff in Hr2. destruct Hr2 as [r1 [Hr Hr1]].
  destruct (find (fun n => hit (nk n) r1) (to_update x)) as [n|] eqn:F2.
  { subst r. apply find_some in F2. destruct F2 as [Hn Hh].
    apply (hit_true rk addr) in Hh. exists n.
    rewrite put_rk. split; [eapply to_update_incl; eauto|].
    split; [symmetry; tauto|apply put_differs]. }
  subst r1.
  destruct (inserted_settled r Hr1 Ha Hl) as [Hx|H]; [|assumption].
  assert (Hkeep : map_has nk incoming (rk r) = true).
  { destruct (map_has nk incoming (rk r)) eqn:E; [reflexivity|].
    assert (Hin : In r (to_remove x)).
    { unfold Diff.to_remove. apply filter_In. rewrite E. auto. }
    apply (find_none _ _ F3) in Hin. rewrite hit_self in Hin by assumption.
    discriminate. }
  apply map_has_true in Hkeep. destruct Hkeep as [n [Hn Hk]].
  exists n. split; [assumption|]. split; [assumption|].
  assert (Hhas : map_has rk x (nk n) = true).
  { rewrite Hk. apply map_has_in. assumption. }
  destruct (map_get rk x (nk n)) as [o|] eqn:Hg.
  2:{ unfold map_has in Hhas. rewrite Hg in Hhas. discriminate. }
  assert (o = r) as ->.
  { apply map_get_some in Hg. destruct Hg as [Ho Hko].
    apply (NoDup_map_eq rk x); auto. congruence. }
  destruct (differs r n) eqn:Hd; [|reflexivity].
  assert (Hin : In n (to_update x)).
  { unfold Diff.to_update. apply filter_In. rewrite Hg. split; [|assumption].
    apply filter_In. auto. }
  apply (find_none _ _ F2) in Hin. unfold Diff.hit in Hin.
  rewrite Ha, Hk, String.eqb_refl in Hin. discriminate.
Qed.

(** Every incoming entry has an existing row in the synced table. *)
Lemma synced_covers n :
  In n incoming -> Diff.covered rk nk addr live n tc.
Proof.
  intros Hn. destruct (inserted_covered n Hn) as [r [Hr [Ha [Hl Hk]]]].
  set (r2 := match find (fun m => hit (nk m) r) (to_update x) with
             | Some m => put m r
             | None => r
             end).
  assert (H2 : In r2 tb /\ addr r2 = true /\ live r2 = true
               /\ rk r2 = nk n).
  { split.
    - rewrite updated_closed. apply in_map_iff. exists r. auto.
    - unfold r2.
      destruct (find (fun m => hit (nk m) r) (to_update x)) as [m|] eqn:F;
        [|auto].
      apply find_some in F. destruct F as [Hm _].
      apply to_update_incl in Hm.
      rewrite put_addr, put_rk, put_live; auto. }
  destruct H2 as [Hr2 [Ha2 [Hl2 Hk2]]].
  exists r2. split; [|auto].
  rewrite synced_closed. apply in_map_iff. exists r2. split; [|assumption].
  destruct (find (fun e => hit (rk e) r2) (to_remove x)) as [e|] eqn:F;
    [|reflexivity].
  exfalso. apply find_some in F. destruct F as [He Hh].
  apply (hit_true rk addr) in Hh. destruct Hh as [_ Hh].
  unfold Diff.to_remove in He. apply filter_In in He.
  destruct He as [_ He].
  rewrite <- Hh, Hk2, (map_has_in nk incoming n Hn) in He. discriminate.
Qed.

(** Once the table is synced, the diff against the same incoming
    entries is empty. *)
Theorem synced_fixed_point :
  to_insert (Diff.existing addr live tc) = []
  /\ to_update (Diff.existing addr live tc) = []
  /\ to_remove (Diff.existing addr live tc) = [].
Proof.
  assert (Hex : forall r, In r (Diff.existing addr live tc) ->
                In r tc /\ addr r = true /\ live r = true).
  { intros r Hr. unfold Diff.existing in Hr. apply filter_In in Hr.
    destruct Hr as [Hr Hal]. apply andb_true_iff in Hal. tauto. }
  split; [|split].
  - unfold Diff.to_insert. apply filter_nil. intros n Hn.
    destruct (synced_covers n Hn) as [r [Hr [Ha [Hl Hk]]]].
    rewrite <- Hk. rewrite map_has_in; [reflexivity|].
    unfold Diff.existing. apply filter_In. rewrite Ha, Hl. auto.
  - unfold Diff.to_update. apply filter_nil. intros n Hn.
    apply filter_In in Hn. destruct Hn as [Hn _].
    destruct (map_get rk (Diff.existing addr live tc) (nk n)) as [o|] eqn:Hg;
      [|reflexivity].
    apply map_get_some in Hg. destruct Hg as [Ho Hk].
    apply Hex in Ho. destruct Ho as [Ho [Ha Hl]].
    destruct (synced_rows_agree o Ho Ha Hl) as [n' [Hn' [Hk' Hd]]].
    assert (n' = n) as ->; [|assumption].
    apply (NoDup_map_eq nk incoming); auto. congruence.
  - unfold Diff.to_remove. apply filter_nil. intros r Hr.
    apply Hex in Hr. destruct Hr as [Hr [Ha Hl]].
    destruct (synced_rows_agree r Hr Ha Hl) as [n [Hn [Hk _]]].
    rewrite <- Hk, (map_has_in nk incoming n Hn). reflexivity.
Qed.

End DiffFixedPoint.


(** ** The phases as lists of writes *)

Lemma wrote_nil w : wrote [] w = w.
Proof. unfold wrote. simpl. rewrite app_nil_r. destruct w; reflexivity. Qed.

Lemma wrote_app l1 l2 w : wrote l2 (wrote l1 w) = wrote (l1 ++ l2) w.
Proof.
  unfold wrote, apply_writes. simpl.
  rewrite fold_left_app, app_assoc. reflexivity.
Qed.

Lemma written_wrote wr w : written wr w = wrote [wr] w.
Proof. reflexivity. Qed.

Lemma for_each_wrote {A} (g : A -> Write) (l : list A) (w : World) :
  for_each l (fun x => store_write (g x)) w = (Resolved tt, wrote (map g l) w).
Proof. apply for_each_store_write. Qed.

Lemma for_each_ext {A} (f g : A -> M unit) (l : list A) :
  (forall x, In x l -> f x = g x) -> for_each l f = for_each l g.
Proof.
  induction l as [|x l IH]; intros H; simpl; [reflexivity|].
  rewrite (H x) by now left. rewrite IH; [reflexivity|].
  intros y Hy. apply H. now right.
Qed.

Lemma itemsToUpdateOf_old newActiveItems existingItemsInfo item :
  In item (itemsToUpdateOf newActiveItems existingItemsInfo) ->
  exists oldItem,
    map_get item_id existingItemsInfo (api_item_key item) = Some oldItem.
Proof.
  unfold itemsToUpdateOf. intros H. apply filter_In in H.
  destruct H as [_ H].
  destruct (map_get item_id existingItemsInfo (api_item_key item)) as [o|];
    [eexists; reflexivity|discriminate].
Qed.

Lemma syncItemInfos_wrote organizer event its w info :
  fetchPretixEventInfo (db w) (event_config_id event) = Some info ->
  drifted event its = false ->
  syncItemInfos organizer event its w =
  (Resolved true,
   wrote (item_writes (event_info_id info)
            (newActiveItemsOf (activeItemIDs event) its)
            (fetchPretixItemsInfoByEvent (db w) (event_info_id info))) w).
Proof.
  intros Hf Hd. unfold drifted in Hd.
  unfold syncItemInfos, try_catch, bind at 1, query. simpl.
  rewrite Hf, Hd. unfold bind at 1. simpl.
  set (na := newActiveItemsOf (activeItemIDs event) its).
  set (x := fetchPretixItemsInfoByEvent (db w) (event_info_id info)).
  unfold insertPretixItemsInfo, softDeletePretixItemInfo.
  unfold bind at 1.
  rewrite (for_each_wrote
             (fun item => InsertItemInfo (api_item_key item)
                            (event_info_id info)
                            (getI18nString (item_api_name item)))).
  unfold bind at 1.
  rewrite (for_each_ext _
             (fun item => store_write
                (UpdateItemInfo (old_item_id x item)
                   (getI18nString (item_api_name item)) false))).
  2:{ intros item Hin. unfold old_item_id.
      destruct (itemsToUpdateOf_old na x item Hin) as [o Ho].
      rewrite Ho. reflexivity. }
  rewrite (for_each_wrote
             (fun item => UpdateItemInfo (old_item_id x item)
                            (getI18nString (item_api_name item)) false)).
  unfold bind at 1.
  rewrite (for_each_wrote (fun item => SoftDeleteItemInfo (item_info_id item))).
  unfold ret. rewrite !wrote_app. unfold item_writes.
  rewrite <- ?app_assoc. reflexivity.
Qed.

Lemma syncTickets_wrote organizer event orders w info :
  fetchPretixEventInfo (db w) (event_config_id event) = Some info ->
  syncTickets organizer event orders w =
  (Resolved true,
   wrote (ticket_writes
            (fst (ordersToDevconnectTickets orders
                    (fetchPretixItemsInfoByEvent (db w) (event_info_id info))))
            (fetchDevconnectPretixTicketsByEvent (db w)
               (event_config_id event))) w).
Proof.
  intros Hf.
  unfold syncTickets, try_catch, bind at 1, query. simpl.
  rewrite Hf. unfold bind at 1. simpl. unfold bind at 1. simpl.
  unfold insertDevconnectPretixTicket, updateDevconnectPretixTicket,
    softDeleteDevconnectPretixTicket.
  unfold bind at 1. rewrite (for_each_wrote InsertTicket).
  unfold bind at 1. rewrite (for_each_wrote UpdateTicket).
  unfold bind at 1. rewrite (for_each_wrote SoftDeleteTicket).
  unfold ret. rewrite !wrote_app. unfold ticket_writes.
  rewrite <- ?app_assoc. reflexivity.
Qed.

(** Item writes leave the other tables alone, and so do ticket writes. *)
Lemma apply_item_writes ws s :
  forallb is_item_write ws = true ->
  apply_writes ws s =
  {| events_info := events_info s;
     items_info := fold_left (fun t wr => apply_item_write wr t) ws
                     (items_info s);
     tickets_tbl := tickets_tbl s |}.
Proof.
  revert s. unfold apply_writes.
  induction ws as [|wr ws IH]; intros s H; simpl.
  - destruct s; reflexivity.
  - simpl in H. apply andb_true_iff in H. destruct H as [Hw H].
    rewrite (IH _ H). destruct wr; try discriminate; reflexivity.
Qed.

Lemma apply_ticket_writes ws s :
  forallb is_ticket_write ws = true ->
  apply_writes ws s =
  {| events_info := events_info s;
     items_info := items_info s;
     tickets_tbl := fold_left (fun t wr => apply_ticket_write wr t) ws
                      (tickets_tbl s) |}.
Proof.
  revert s. unfold apply_writes.
  induction ws as [|wr ws IH]; intros s H; simpl.
  - destruct s; reflexivity.
  - simpl in H. apply andb_true_iff in H. destruct H as [Hw H].
    rewrite (IH _ H). destruct wr; try discriminate; reflexivity.
Qed.

Lemma forallb_map_const {A B} (p : B -> bool) (g : A -> B) (l : list A) :
  (forall a, p (g a) = true) -> forallb p (map g l) = true.
Proof.
  intros H. induction l as [|a l IH]; simpl; [reflexivity|].
  rewrite H, IH. reflexivity.
Qed.

Lemma item_writes_are_item_writes e na x :
  forallb is_item_write (item_writes e na x) = true.
Proof.
  unfold item_writes. rewrite !forallb_app.
  rewrite !forallb_map_const; auto.
Qed.

Lemma ticket_writes_are_ticket_writes tk xt :
  forallb is_ticket_write (ticket_writes tk xt) = true.
Proof.
  unfold ticket_writes. rewrite !forallb_app.
  rewrite !forallb_map_const; auto.
Qed.


(** ** The item phase on the item table *)

Lemma fresh_id_not_in l : ~ In (fresh_id l) l.
Proof.
  unfold fresh_id. intros H.
  assert (Hall : Forall (fun k => k <= list_max l) l)
    by (apply list_max_le; apply Nat.le_refl).
  rewrite Forall_forall in Hall. apply Hall in H. lia.
Qed.

Lemma item_ids_of_idents t :
  map item_info_id t = map fst (map item_ident t).
Proof. rewrite map_map. reflexivity. Qed.

Lemma item_keys_of_idents t :
  map item_key t = map snd (map item_ident t).
Proof. rewrite map_map. reflexivity. Qed.

Section ItemPhase.
Variable E : nat.
Variable na : list DevconnectPretixItem.

Local Abbreviation addr := (ItemTable.addr E).
Local Abbreviation modify := (Diff.modify item_id addr).
Local Abbreviation upsert :=
  (Diff.upsert item_id api_item_key addr ItemTable.put (ItemTable.mk E)).

Lemma item_modify_idents k f t :
  (forall r, item_ident (f r) = item_ident r) ->
  map item_ident (modify k f t) = map item_ident t.
Proof.
  intros H. unfold Diff.modify. rewrite map_map. apply map_ext.
  intros r. destruct (Diff.hit item_id addr k r); auto.
Qed.

Lemma item_modify_stable x k f t :
  (forall r, item_ident (f r) = item_ident r) ->
  ItemTable.stable x t -> ItemTable.stable x (modify k f t).
Proof.
  intros Hf [Hi [Hk Hx]]. unfold ItemTable.stable.
  rewrite item_ids_of_idents, item_keys_of_idents, item_modify_idents
    by assumption.
  rewrite <- item_ids_of_idents, <- item_keys_of_idents. auto.
Qed.

Lemma item_upsert_stable x n t :
  ItemTable.stable x t -> ItemTable.stable x (upsert n t).
Proof.
  intros H. unfold Diff.upsert.
  destruct (existsb (Diff.hit item_id addr (api_item_key n)) t) eqn:He.
  - apply item_modify_stable; [reflexivity|assumption].
  - destruct H as [Hi [Hk Hx]]. unfold ItemTable.stable.
    rewrite !map_app. simpl. split; [|split].
    + apply NoDup_app; [assumption|repeat constructor; simpl; tauto|].
      intros a Ha [<-|[]]. revert Ha. apply fresh_id_not_in.
    + apply NoDup_app; [assumption|repeat constructor; simpl; tauto|].
      * intros a Ha [<-|[]]. apply in_map_iff in Ha.
        destruct Ha as [r [Hr Hin]].
        assert (Hh : Diff.hit item_id addr (api_item_key n) r = true).
        { unfold Diff.hit, ItemTable.addr. unfold item_key in Hr.
          simpl in Hr. injection Hr as -> ->.
          rewrite Nat.eqb_refl, String.eqb_refl. reflexivity. }
        assert (existsb (Diff.hit item_id addr (api_item_key n)) t = true)
          by (apply existsb_exists; eauto).
        congruence.
    + intros a Ha. apply in_or_app. left. apply Hx. assumption.
Qed.

Lemma item_fold_upsert_stable x l t :
  ItemTable.stable x t ->
  ItemTable.stable x (fold_left (fun t0 n => upsert n t0) l t).
Proof.
  revert t. induction l as [|n l IH]; intros t H; simpl; [assumption|].
  apply IH. apply item_upsert_stable. assumption.
Qed.

(** On a table with distinct ids and distinct natural keys, addressing a
    row by its id is addressing it by its natural key. *)
Lemma item_by_id_is_by_key x t o r :
  ItemTable.stable x t -> In o x -> In r t ->
  Nat.eqb (item_info_id r) (item_info_id o)
  = item_key_is (item_id o) (devconnect_pretix_events_info_id o) r.
Proof.
  intros [Hi [Hk Hx]] Ho Hr.
  assert (Ho' : In (item_ident o) (map item_ident t))
    by (apply Hx; apply in_map; assumption).
  apply in_map_iff in Ho'. destruct Ho' as [o' [Hido Ho']].
  unfold item_ident, item_key in Hido. injection Hido as Hid He Hki.
  unfold item_key_is.
  destruct (Nat.eqb (item_info_id r) (item_info_id o)) eqn:E1.
  - apply Nat.eqb_eq in E1.
    assert (r = o') by (apply (NoDup_map_eq item_info_id t); congruence).
    subst r. rewrite He, Hki, Nat.eqb_refl, String.eqb_refl. reflexivity.
  - symmetry. apply not_true_is_false. intros E2.
    apply andb_true_iff in E2. destruct E2 as [Ee Ek].
    apply Nat.eqb_eq in Ee. apply String.eqb_eq in Ek.
    assert (r = o').
    { apply (NoDup_map_eq item_key t); auto. unfold item_key. congruence. }
    subst r. rewrite Hid, Nat.eqb_refl in E1. discriminate.
Qed.

Variable x : list PretixItemInfo.
Hypothesis x_addr : forall o, In o x -> devconnect_pretix_events_info_id o = E.

Lemma item_update_by_key t n o :
  ItemTable.stable x t ->
  map_get item_id x (api_item_key n) = Some o ->
  update_item (old_item_id x n) (getI18nString (item_api_name n)) false t
  = modify (api_item_key n) (ItemTable.put n) t.
Proof.
  intros Hst Hg. unfold old_item_id. rewrite Hg.
  apply map_get_some in Hg. destruct Hg as [Ho Hk].
  unfold update_item, Diff.modify. apply map_ext_in. intros r Hr.
  rewrite (item_by_id_is_by_key x t o r Hst Ho Hr).
  rewrite (x_addr o Ho), Hk. reflexivity.
Qed.

Lemma item_soft_delete_by_key t o :
  ItemTable.stable x t -> In o x ->
  soft_delete_item (item_info_id o) t = modify (item_id o) ItemTable.del t.
Proof.
  intros Hst Ho.
  unfold soft_delete_item, Diff.modify. apply map_ext_in. intros r Hr.
  rewrite (item_by_id_is_by_key x t o r Hst Ho Hr).
  rewrite (x_addr o Ho). reflexivity.
Qed.

Lemma item_fold_update l t :
  (forall n, In n l -> exists o, map_get item_id x (api_item_key n) = Some o) ->
  ItemTable.stable x t ->
  fold_left (fun t0 n =>
               update_item (old_item_id x n)
                 (getI18nString (item_api_name n)) false t0) l t
  = fold_left (fun t0 n => modify (api_item_key n) (ItemTable.put n) t0) l t
  /\ ItemTable.stable x
       (fold_left (fun t0 n => modify (api_item_key n) (ItemTable.put n) t0)
          l t).
Proof.
  revert t. induction l as [|n l IH]; intros t Hl Hst; cbn [fold_left];
    [auto|].
  destruct (Hl n (or_introl eq_refl)) as [o Ho].
  rewrite (item_update_by_key t n o Hst Ho).
  apply IH.
  - intros m Hm. apply Hl. now right.
  - apply item_modify_stable; [reflexivity|assumption].
Qed.

Lemma item_fold_soft_delete l t :
  incl l x ->
  ItemTable.stable x t ->
  fold_left (fun t0 o => soft_delete_item (item_info_id o) t0) l t
  = fold_left (fun t0 o => modify (item_id o) ItemTable.del t0) l t.
Proof.
  revert t. induction l as [|o l IH]; intros t Hl Hst; cbn [fold_left];
    [auto|].
  rewrite (item_soft_delete_by_key t o Hst (Hl o (or_introl eq_refl))).
  apply IH.
  - intros m Hm. apply Hl. now right.
  - apply item_modify_stable; [reflexivity|assumption].
Qed.

End ItemPhase.

Lemma fetched_items_event s E o :
  In o (fetchPretixItemsInfoByEvent s E) ->
  In o (items_info s)
  /\ devconnect_pretix_events_info_id o = E /\ item_is_deleted o = false.
Proof.
  unfold fetchPretixItemsInfoByEvent. intros H. apply filter_In in H.
  destruct H as [Hin H]. apply andb_true_iff in H. destruct H as [He Hd].
  apply Nat.eqb_eq in He. apply negb_true_iff in Hd. auto.
Qed.

(** The writes of the item phase, run on a well-formed item table, sync
    the table of the event with the incoming items. *)
Lemma item_phase_table E na s :
  NoDup (map item_info_id (items_info s)) ->
  NoDup (map item_key (items_info s)) ->
  fold_left (fun t wr => apply_item_write wr t)
    (item_writes E na (fetchPretixItemsInfoByEvent s E)) (items_info s)
  = ItemTable.synced E na (items_info s)
  /\ NoDup (map item_info_id (ItemTable.synced E na (items_info s)))
  /\ NoDup (map item_key (ItemTable.synced E na (items_info s))).
Proof.
  intros Hi Hk.
  set (t := items_info s). set (x := fetchPretixItemsInfoByEvent s E).
  assert (Hx : forall o, In o x -> devconnect_pretix_events_info_id o = E)
    by (intros o Ho; apply (fetched_items_event s E o Ho)).
  assert (Hst : ItemTable.stable x t).
  { split; [assumption|]. split; [assumption|].
    intros a Ha. apply in_map_iff in Ha. destruct Ha as [o [<- Ho]].
    apply in_map. apply (fetched_items_event s E o Ho). }
  unfold item_writes. rewrite !fold_left_app, !fold_left_map. simpl.
  set (ta := fold_left
               (fun t0 n => insert_item (api_item_key n) E
                              (getI18nString (item_api_name n)) t0)
               (itemsToInsertOf na x) t).
  assert (Hta : ItemTable.stable x ta)
    by (apply (item_fold_upsert_stable E x (itemsToInsertOf na x) t Hst)).
  destruct (item_fold_update E x Hx (itemsToUpdateOf na x) ta
              (itemsToUpdateOf_old na x) Hta) as [Hupd Htb].
  rewrite Hupd.
  rewrite (item_fold_soft_delete E x Hx (itemsToRemoveOf na x) _); auto.
  2:{ intros o Ho. unfold itemsToRemoveOf in Ho. apply filter_In in Ho. tauto. }
  split; [reflexivity|].
  assert (Hfin : ItemTable.stable x (ItemTable.synced E na t)).
  { unfold ItemTable.synced, Diff.synced.
    generalize (Diff.to_remove item_id api_item_key na
                  (Diff.existing (ItemTable.addr E) ItemTable.live t)).
    intros l. revert Htb.
    change (Diff.updated item_id api_item_key (ItemTable.addr E)
              ItemTable.live ItemTable.differs ItemTable.put
              (ItemTable.mk E) na t)
      with (fold_left
              (fun t0 n => Diff.modify item_id (ItemTable.addr E)
                             (api_item_key n) (ItemTable.put n) t0)
              (itemsToUpdateOf na x) ta).
    generalize (fold_left
              (fun t0 n => Diff.modify item_id (ItemTable.addr E)
                             (api_item_key n) (ItemTable.put n) t0)
              (itemsToUpdateOf na x) ta).
    induction l as [|o l IH]; intros t0 H0; simpl; [assumption|].
    apply IH. apply item_modify_stable; [reflexivity|assumption]. }
  destruct Hfin as [H1 [H2 _]]. auto.
Qed.


Lemma existing_items_nodup E t :
  NoDup (map item_key t) ->
  NoDup (map item_id (Diff.existing (ItemTable.addr E) ItemTable.live t)).
Proof.
  unfold Diff.existing.
  induction t as [|a t IH]; simpl; intros H; [constructor|].
  inversion H as [|? ? Hnot Hnd]; subst.
  destruct (ItemTable.addr E a && ItemTable.live a) eqn:Ha; [|auto].
  simpl. constructor; [|auto].
  intros Hin. apply Hnot. apply in_map_iff in Hin.
  destruct Hin as [r [Hk Hr]]. apply filter_In in Hr. destruct Hr as [Hr Hal].
  apply in_map_iff. exists r. split; [|assumption].
  apply andb_true_iff in Ha, Hal. destruct Ha as [Ha _], Hal as [Hal _].
  unfold ItemTable.addr in Ha, Hal. apply Nat.eqb_eq in Ha, Hal.
  unfold item_key. congruence.
Qed.

(** Once the item table of the event is synced, the item phase has
    nothing to write. *)
Lemma item_phase_fixed_point E na t s' :
  NoDup (map api_item_key na) ->
  NoDup (map item_key t) ->
  items_info s' = ItemTable.synced E na t ->
  item_writes E na (fetchPretixItemsInfoByEvent s' E) = [].
Proof.
  intros Hna Hk Hs'.
  destruct (synced_fixed_point item_id api_item_key (ItemTable.addr E)
              ItemTable.live ItemTable.differs ItemTable.put ItemTable.del
              (ItemTable.mk E) na) with (t := t) as [H1 [H2 H3]];
    try reflexivity; try assumption.
  - intros n r. unfold ItemTable.differs, ItemTable.put. simpl.
    rewrite String.eqb_refl. reflexivity.
  - intros n t0. unfold ItemTable.addr, ItemTable.mk. simpl.
    apply Nat.eqb_refl.
  - intros n t0. unfold ItemTable.differs, ItemTable.mk. simpl.
    rewrite String.eqb_refl. reflexivity.
  - apply existing_items_nodup. assumption.
  - unfold item_writes, fetchPretixItemsInfoByEvent. rewrite Hs'.
    unfold ItemTable.synced.
    change (itemsToInsertOf na ?x)
      with (Diff.to_insert item_id api_item_key na x).
    change (itemsToUpdateOf na ?x)
      with (Diff.to_update item_id api_item_key ItemTable.differs na x).
    change (itemsToRemoveOf na ?x)
      with (Diff.to_remove item_id api_item_key na x).
    change (filter _ ?t0)
      with (Diff.existing (ItemTable.addr E) ItemTable.live t0).
    rewrite H1, H2, H3. reflexivity.
Qed.

(** ** The ticket phase on the ticket table *)

Lemma ticket_phase_table s c tk :
  fold_left (fun t wr => apply_ticket_write wr t)
    (ticket_writes tk (fetchDevconnectPretixTicketsByEvent s c))
    (tickets_tbl s)
  = TicketTable.synced s c tk (tickets_tbl s).
Proof.
  unfold ticket_writes. rewrite !fold_left_app, !fold_left_map.
  reflexivity.
Qed.

Lemma ticket_in_event_ext s s' c t :
  events_info s' = events_info s ->
  items_info s' = items_info s ->
  ticket_in_event s' c t = ticket_in_event s c t.
Proof. intros He Hi. unfold ticket_in_event. rewrite He, Hi. reflexivity. Qed.

Lemma option_string_eqb_refl o : option_string_eqb o o = true.
Proof. destruct o; simpl; [apply String.eqb_refl|reflexivity]. Qed.

Lemma ticket_not_different n r : pretixTicketsDifferent (set_ticket n r) n = false.
Proof.
  unfold pretixTicketsDifferent, set_ticket. simpl.
  rewrite !String.eqb_refl, option_string_eqb_refl, Nat.eqb_refl.
  destruct (is_deleted n); reflexivity.
Qed.

Lemma ticket_same n : pretixTicketsDifferent n n = false.
Proof.
  unfold pretixTicketsDifferent.
  rewrite !String.eqb_refl, option_string_eqb_refl, Nat.eqb_refl.
  destruct (is_deleted n); reflexivity.
Qed.

(** Once the ticket table is synced, the ticket phase has nothing to
    write. *)
Lemma ticket_phase_fixed_point s c tk s' :
  NoDup (map position_id tk) ->
  NoDup (map position_id (tickets_tbl s)) ->
  (forall n, In n tk -> ticket_in_event s c n = true /\ is_deleted n = false) ->
  events_info s' = events_info s ->
  items_info s' = items_info s ->
  tickets_tbl s' = TicketTable.synced s c tk (tickets_tbl s) ->
  ticket_writes tk (fetchDevconnectPretixTicketsByEvent s' c) = [].
Proof.
  intros Htk Ht Hin He Hi Hs'.
  destruct (synced_fixed_point position_id position_id TicketTable.addr
              (TicketTable.live s c) pretixTicketsDifferent set_ticket
              set_ticket_deleted TicketTable.mk tk)
    with (t := tickets_tbl s) as [H1 [H2 H3]];
    try reflexivity; try assumption.
  - intros n r Hn. destruct (Hin n Hn) as [Hev Hd].
    unfold TicketTable.live. simpl. rewrite Hd.
    unfold ticket_in_event in *. simpl. rewrite Hev. reflexivity.
  - apply ticket_not_different.
  - intros r. unfold TicketTable.live. simpl. apply andb_false_r.
  - intros n t0 Hn. destruct (Hin n Hn) as [Hev Hd].
    unfold TicketTable.live, TicketTable.mk. rewrite Hev, Hd. reflexivity.
  - intros n t0. apply ticket_same.
  - unfold Diff.existing. apply NoDup_map_filter. assumption.
  - assert (Hx : fetchDevconnectPretixTicketsByEvent s' c
                 = Diff.existing TicketTable.addr (TicketTable.live s c)
                     (TicketTable.synced s c tk (tickets_tbl s))).
    { unfold fetchDevconnectPretixTicketsByEvent, Diff.existing.
      rewrite Hs'. apply filter_ext. intros t0.
      rewrite (ticket_in_event_ext s s' c t0 He Hi). reflexivity. }
    rewrite Hx. unfold ticket_writes, TicketTable.synced.
    change (newTicketsOf tk ?x)
      with (Diff.to_insert position_id position_id tk x).
    change (updatedTicketsOf tk ?x)
      with (Diff.to_update position_id position_id pretixTicketsDifferent
              tk x).
    change (removedTicketsOf tk ?x)
      with (Diff.to_remove position_id position_id tk x).
    rewrite H1, H2, H3. reflexivity.
Qed.

(** The converted tickets belong to the event and are active. *)
Lemma converted_ticket_in_event s c e orders n :
  fetchPretixEventInfo s c = Some e ->
  In n (fst (ordersToDevconnectTickets orders
               (fetchPretixItemsInfoByEvent s (event_info_id e)))) ->
  ticket_in_event s c n = true.
Proof.
  intros He Hn. unfold ordersToDevconnectTickets in Hn. simpl in Hn.
  apply in_flat_map in Hn. destruct Hn as [o [_ Hn]].
  unfold convertOrder in Hn.
  destruct (negb (String.eqb (status o) "p")); [contradiction|].
  simpl in Hn. apply in_flat_map in Hn. destruct Hn as [p [_ Hn]].
  unfold convertPosition in Hn.
  destruct (map_get item_id _ (toString (pos_item p))) as [ex|] eqn:Hg;
    [|contradiction].
  simpl in Hn. destruct Hn as [<-|[]].
  apply map_get_some in Hg. destruct Hg as [Hex _].
  apply fetched_items_event in Hex. destruct Hex as [Hex [Hev _]].
  unfold fetchPretixEventInfo in He. apply find_some in He.
  destruct He as [Hein Hc].
  unfold ticket_in_event. apply existsb_exists. exists ex.
  split; [assumption|]. simpl. rewrite Nat.eqb_refl. simpl.
  apply existsb_exists. exists e. split; [assumption|].
  rewrite Hev, Nat.eqb_refl, Hc. reflexivity.
Qed.

(** Distinct position ids give distinct ticket keys. *)
Lemma converted_keys_are_position_keys orders info k :
  In k (map position_id (fst (ordersToDevconnectTickets orders info))) ->
  In k (position_keys orders).
Proof.
  unfold ordersToDevconnectTickets, position_keys. simpl. intros H.
  apply in_map_iff in H. destruct H as [t [<- Ht]].
  apply in_flat_map in Ht. destruct Ht as [o [Ho Ht]].
  unfold convertOrder in Ht.
  destruct (negb (String.eqb (status o) "p")); [contradiction|].
  simpl in Ht. apply in_flat_map in Ht. destruct Ht as [p [Hp Ht]].
  unfold convertPosition in Ht.
  destruct (map_get item_id info (toString (pos_item p))); [|contradiction].
  simpl in Ht. destruct Ht as [<-|[]]. simpl.
  apply in_map_iff. exists p. split; [reflexivity|].
  apply in_flat_map. exists o. auto.
Qed.

Lemma NoDup_app_disjoint {Key} (front back : list Key) (k : Key)
  (Hnd : NoDup (front ++ back)) (Hfront : In k front) (Hback : In k back) :
  False.
Proof.
  revert Hnd Hfront Hback.
  induction front as [|x l1 IH]; simpl; [tauto|].
  intros H [->|Hin] H2.
  - inversion H as [|? ? Hnot _]; subst. apply Hnot.
    apply in_or_app. now right.
  - inversion H; subst. eapply IH; eauto.
Qed.

Lemma converted_positions_nodup o info ps :
  NoDup (map (fun p => toString (pos_id p)) ps) ->
  NoDup (map position_id
           (flat_map (fun p => fst (convertPosition o info p)) ps)).
Proof.
  induction ps as [|p ps IH]; simpl; intros H; [constructor|].
  inversion H as [|? ? Hnot Hnd]; subst.
  unfold convertPosition at 1.
  destruct (map_get item_id info (toString (pos_item p))); simpl; [|auto].
  constructor; [|auto].
  intros Hin. apply Hnot. apply in_map_iff in Hin.
  destruct Hin as [t [Hk Ht]]. apply in_flat_map in Ht.
  destruct Ht as [q [Hq Ht]]. unfold convertPosition in Ht.
  destruct (map_get item_id info (toString (pos_item q))); [|contradiction].
  simpl in Ht. destruct Ht as [<-|[]]. simpl in Hk.
  rewrite <- Hk. apply in_map_iff. exists q. auto.
Qed.

Lemma converted_tickets_nodup orders info :
  NoDup (position_keys orders) ->
  NoDup (map position_id (fst (ordersToDevconnectTickets orders info))).
Proof.
  induction orders as [|o orders IH]; intros H; [constructor|].
  unfold position_keys in H. simpl in H. rewrite map_app in H.
  change (fst (ordersToDevconnectTickets (o :: orders) info))
    with (fst (convertOrder info o)
          ++ fst (ordersToDevconnectTickets orders info)).
  rewrite map_app. apply NoDup_app.
  - unfold convertOrder.
    destruct (negb (String.eqb (status o) "p")); simpl; [constructor|].
    apply converted_positions_nodup.
    apply NoDup_app_remove_r in H. assumption.
  - apply IH. apply NoDup_app_remove_l in H. assumption.
  - intros k Hk Hk2. apply converted_keys_are_position_keys in Hk2.
    apply (NoDup_app_disjoint _ _ k H); [|assumption].
    assert (Hin : In k (position_keys [o])).
    { apply (converted_keys_are_position_keys [o] info).
      unfold ordersToDevconnectTickets. simpl. rewrite app_nil_r.
      assumption. }
    unfold position_keys in Hin. simpl in Hin. rewrite app_nil_r in Hin.
    assumption.
Qed.


(** ** [syncEvent] as a list of writes *)

Lemma syncItemInfos_drifted organizer event its w info :
  fetchPretixEventInfo (db w) (event_config_id event) = Some info ->
  drifted event its = true ->
  syncItemInfos organizer event its w =
  (Resolved false,
   aborted_with (ActiveItemsMissing (activeItemIDs event)
                   (map api_item_key its)) w).
Proof.
  intros Hf Hd. unfold drifted in Hd.
  unfold syncItemInfos, try_catch, bind at 1, query. simpl.
  rewrite Hf, Hd. reflexivity.
Qed.

Lemma syncEvent_drifted organizer event data w :
  drifted event (items data) = true ->
  syncEvent organizer event data w =
  (Resolved tt,
   aborted_with (ActiveItemsMissing (activeItemIDs event)
                   (map api_item_key (items data)))
     (written (event_write (db w) event (eventInfo data)) w)).
Proof.
  intros Hd. unfold syncEvent, try_catch, bind at 1.
  rewrite syncEventInfos_written. simpl. unfold bind at 1.
  destruct (event_row_after_event_write (db w) event (eventInfo data))
    as [row [Hrow _]].
  rewrite (syncItemInfos_drifted organizer event (items data)
             (written (event_write (db w) event (eventInfo data)) w)
             row Hrow Hd).
  reflexivity.
Qed.

Lemma events_info_item_writes e na x s :
  events_info (apply_writes (item_writes e na x) s) = events_info s.
Proof.
  rewrite apply_item_writes by apply item_writes_are_item_writes.
  reflexivity.
Qed.

Lemma syncEvent_wrote organizer event data w e :
  drifted event (items data) = false ->
  let w1 := written (event_write (db w) event (eventInfo data)) w in
  fetchPretixEventInfo (db w1) (event_config_id event) = Some e ->
  let w2 :=
    wrote (item_writes (event_info_id e)
             (newActiveItemsOf (activeItemIDs event) (items data))
             (fetchPretixItemsInfoByEvent (db w1) (event_info_id e))) w1 in
  syncEvent organizer event data w =
  (Resolved tt,
   wrote (ticket_writes
            (fst (ordersToDevconnectTickets (tickets data)
                    (fetchPretixItemsInfoByEvent (db w2) (event_info_id e))))
            (fetchDevconnectPretixTicketsByEvent (db w2)
               (event_config_id event))) w2).
Proof.
  intros Hd w1 He w2. unfold syncEvent, try_catch, bind at 1.
  rewrite syncEventInfos_written. fold w1. simpl. unfold bind at 1.
  rewrite (syncItemInfos_wrote organizer event (items data) w1 e He Hd).
  fold w2. simpl. unfold bind at 1.
  assert (He2 : fetchPretixEventInfo (db w2) (event_config_id event) = Some e).
  { unfold fetchPretixEventInfo, w2, wrote. simpl.
    rewrite events_info_item_writes. exact He. }
  rewrite (syncTickets_wrote organizer event (tickets data) w2 e He2).
  reflexivity.
Qed.

(** ** Running [syncEvent] again *)

Lemma event_write_nodup s event info :
  NoDup (map event_info_id (events_info s)) ->
  NoDup (map event_info_id
           (events_info (apply_write (event_write s event info) s))).
Proof.
  intros H. unfold event_write.
  destruct (fetchPretixEventInfo s (event_config_id event)); simpl.
  - unfold update_event. rewrite map_map.
    erewrite map_ext; [exact H|].
    intros r. destruct (Nat.eqb (event_info_id r) (event_info_id p));
      reflexivity.
  - unfold insert_event. rewrite map_app. simpl.
    apply NoDup_app; [assumption|repeat constructor; simpl; tauto|].
    intros a Ha [<-|[]]. revert Ha. apply fresh_id_not_in.
Qed.

Lemma event_update_again t e :
  NoDup (map event_info_id t) ->
  In e t ->
  update_event (event_info_id e) (event_name e) (event_is_deleted e) t = t.
Proof.
  intros Hnd He. unfold update_event.
  rewrite <- (map_id t) at 2. apply map_ext_in. intros r Hr.
  destruct (Nat.eqb (event_info_id r) (event_info_id e)) eqn:E;
    [|reflexivity].
  apply Nat.eqb_eq in E.
  assert (r = e) by (apply (NoDup_map_eq event_info_id t); auto).
  subst r. destruct e; reflexivity.
Qed.

(** On a store where the EventInfo row of the event carries the fetched
    name, the write of the event-info phase is an update that changes
    nothing. *)
Lemma event_write_again s event info e :
  NoDup (map event_info_id (events_info s)) ->
  fetchPretixEventInfo s (event_config_id event) = Some e ->
  event_name e = en (event_api_name info) ->
  event_is_deleted e = false ->
  event_write s event info
  = UpdateEventInfo (event_info_id e) (en (event_api_name info)) false
  /\ apply_write (event_write s event info) s = s.
Proof.
  intros Hnd He Hn Hdel. unfold event_write. rewrite He.
  split; [reflexivity|]. simpl. rewrite <- Hn, <- Hdel.
  rewrite event_update_again; [destruct s; reflexivity|assumption|].
  unfold fetchPretixEventInfo in He. apply find_some in He. tauto.
Qed.

Lemma written_same wr w :
  apply_write wr (db w) = db w ->
  written wr w =
  {| db := db w; writes := writes w ++ [wr]; reported := reported w |}.
Proof. intros H. unfold written. rewrite H. reflexivity. Qed.

(** C2 (as amended): on a well-formed store, with provider data whose
    item ids and position ids are distinct, a second [syncEvent] with
    the same data right after the first issues exactly one store write,
    the update of the EventInfo row of the event-info phase (it rewrites
    the name that is already there), and no ItemInfo or Ticket insert,
    update or soft-delete; the store after the second run is the store
    after the first. *)
Theorem second_syncEvent_rewrites_event_info_only organizer event data w :
  store_wf (db w) ->
  NoDup (map api_item_key (items data)) ->
  NoDup (position_keys (tickets data)) ->
  let w1 := snd (syncEvent organizer event data w) in
  let w2 := snd (syncEvent organizer event data w1) in
  db w2 = db w1
  /\ exists id,
       writes w2
       = writes w1
         ++ [UpdateEventInfo id (en (event_api_name (eventInfo data))) false].
Proof.
  intros [Hev Hii Hik Hpos] Hitems Hkeys.
  set (s0 := db w).
  set (wr := event_write s0 event (eventInfo data)).
  destruct (event_row_after_event_write s0 event (eventInfo data))
    as [e [He [Hc [Hn [Hdel _]]]]].
  fold wr in He.
  assert (Hev1 : NoDup (map event_info_id (events_info (apply_write wr s0))))
    by (apply event_write_nodup; assumption).
  destruct (drifted event (items data)) eqn:Hd.
  - (* the item phase fails on both runs *)
    cbv zeta. rewrite (syncEvent_drifted organizer event data w Hd).
    fold s0 wr. cbn [snd].
    set (w3 := aborted_with _ (written wr w)).
    rewrite (syncEvent_drifted organizer event data w3 Hd). cbn [snd].
    change (db w3) with (apply_write wr s0).
    destruct (event_write_again (apply_write wr s0) event (eventInfo data) e
                Hev1 He Hn Hdel) as [Hw Hsame].
    unfold aborted_with at 1. cbn [db writes].
    unfold written at 1 2. cbn [db writes].
    change (db w3) with (apply_write wr s0).
    rewrite Hsame, Hw. split; [reflexivity|].
    exists (event_info_id e). reflexivity.
  - (* all three phases run on both runs *)
    cbv zeta.
    rewrite (syncEvent_wrote organizer event data w e Hd He).
    fold s0 wr.
    set (w1 := written wr w).
    set (na := newActiveItemsOf (activeItemIDs event) (items data)).
    set (iw := item_writes (event_info_id e) na
                 (fetchPretixItemsInfoByEvent (db w1) (event_info_id e))).
    set (w2 := wrote iw w1).
    set (tk := fst (ordersToDevconnectTickets (tickets data)
                      (fetchPretixItemsInfoByEvent (db w2) (event_info_id e)))).
    set (tw := ticket_writes tk
                 (fetchDevconnectPretixTicketsByEvent (db w2)
                    (event_config_id event))).
    simpl snd. set (w3 := wrote tw w2).
    (* the three tables after the first run *)
    assert (Hs1i : items_info (db w1) = items_info s0)
      by (unfold w1, wr, event_write; simpl;
          destruct (fetchPretixEventInfo s0 (event_config_id event));
          reflexivity).
    assert (Hs1t : tickets_tbl (db w1) = tickets_tbl s0)
      by (unfold w1, wr, event_write; simpl;
          destruct (fetchPretixEventInfo s0 (event_config_id event));
          reflexivity).
    assert (Hs2 : db w2 =
                  {| events_info := events_info (db w1);
                     items_info := ItemTable.synced (event_info_id e) na
                                     (items_info (db w1));
                     tickets_tbl := tickets_tbl (db w1) |}).
    { change (db w2) with (apply_writes iw (db w1)).
      unfold iw.
      rewrite apply_item_writes by apply item_writes_are_item_writes.
      destruct (item_phase_table (event_info_id e) na (db w1)) as [Ht _];
        [rewrite Hs1i; assumption|rewrite Hs1i; assumption|].
      rewrite Ht. reflexivity. }
    assert (Hs3 : db w3 =
                  {| events_info := events_info (db w2);
                     items_info := items_info (db w2);
                     tickets_tbl := TicketTable.synced (db w2)
                                      (event_config_id event) tk
                                      (tickets_tbl (db w2)) |}).
    { change (db w3) with (apply_writes tw (db w2)).
      unfold tw.
      rewrite apply_ticket_writes by apply ticket_writes_are_ticket_writes.
      rewrite ticket_phase_table. reflexivity. }
    assert (He2 : fetchPretixEventInfo (db w2) (event_config_id event) = Some e).
    { unfold fetchPretixEventInfo. rewrite Hs2. exact He. }
    assert (He3 : fetchPretixEventInfo (db w3) (event_config_id event) = Some e).
    { unfold fetchPretixEventInfo. rewrite Hs3. exact He2. }
    assert (Hev3 : NoDup (map event_info_id (events_info (db w3)))).
    { rewrite Hs3. cbn [events_info]. rewrite Hs2. exact Hev1. }
    clearbody w3.
    (* the second run *)
    destruct (event_write_again (db w3) event (eventInfo data) e
                Hev3 He3 Hn Hdel) as [Hw Hsame].
    set (wr' := event_write (db w3) event (eventInfo data)) in *.
    assert (Hw4 : written wr' w3 =
                  {| db := db w3; writes := writes w3 ++ [wr'];
                     reported := reported w3 |})
      by (apply written_same; assumption).
    assert (He4 : fetchPretixEventInfo (db (written wr' w3))
                    (event_config_id event) = Some e)
      by (rewrite Hw4; exact He3).
    rewrite (syncEvent_wrote organizer event data w3 e Hd He4).
    fold wr'. rewrite Hw4. cbn [db].
    assert (Hiw : item_writes (event_info_id e) na
                    (fetchPretixItemsInfoByEvent (db w3) (event_info_id e))
                  = []).
    { apply (item_phase_fixed_point (event_info_id e) na
               (items_info (db w1)) (db w3)).
      - unfold na, newActiveItemsOf. apply NoDup_map_filter. assumption.
      - rewrite Hs1i. assumption.
      - rewrite Hs3. cbn [items_info]. rewrite Hs2. reflexivity. }
    fold na. rewrite Hiw. rewrite wrote_nil. cbn [db].
    assert (Hfi : fetchPretixItemsInfoByEvent (db w3) (event_info_id e)
                  = fetchPretixItemsInfoByEvent (db w2) (event_info_id e)).
    { unfold fetchPretixItemsInfoByEvent. rewrite Hs3. reflexivity. }
    rewrite Hfi. fold tk.
    assert (Htw : ticket_writes tk
                    (fetchDevconnectPretixTicketsByEvent (db w3)
                       (event_config_id event)) = []).
    { apply (ticket_phase_fixed_point (db w2) (event_config_id event) tk
               (db w3)).
      - apply converted_tickets_nodup. assumption.
      - rewrite Hs2. cbn [tickets_tbl]. rewrite Hs1t. assumption.
      - intros n Hn0. split.
        + apply (converted_ticket_in_event (db w2) (event_config_id event) e
                   (tickets data) n He2 Hn0).
        + apply (converted_tickets_unconsumed _ _ _ Hn0).
      - rewrite Hs3. reflexivity.
      - rewrite Hs3. reflexivity.
      - rewrite Hs3. reflexivity. }
    rewrite Htw. rewrite wrote_nil. cbn [snd db writes].
    split; [reflexivity|].
    exists (event_info_id e). rewrite Hw. reflexivity.
Qed.

Ltac nodup_concrete :=
  repeat (constructor; [simpl; intuition (discriminate || congruence)|]);
  constructor.

Lemma second_syncEvent_rewrites_event_info_only_witness :
  let w := init_world Samples.stale_store in
  let w1 := snd (syncEvent Samples.organizer1 Samples.event_a
                   Samples.data_a w) in
  let w2 := snd (syncEvent Samples.organizer1 Samples.event_a
                   Samples.data_a w1) in
  db w2 = db w1
  /\ exists id,
       writes w2
       = writes w1
         ++ [UpdateEventInfo id
               (en (event_api_name (eventInfo Samples.data_a))) false].
Proof.
  apply (second_syncEvent_rewrites_event_info_only Samples.organizer1
           Samples.event_a Samples.data_a (init_world Samples.stale_store)).
  - constructor; simpl; nodup_concrete.
  - simpl. nodup_concrete.
  - vm_compute. nodup_concrete.
Defined.

(** C2 (as stated) fails: after a first sync of event A into the empty
    store, a second sync with the same data issues a store write, the
    update of the EventInfo row. *)
Lemma second_syncEvent_issues_an_update :
  let w1 := snd (syncEvent Samples.organizer1 Samples.event_a Samples.data_a
                   (init_world empty_store)) in
  writes (snd (syncEvent Samples.organizer1 Samples.event_a Samples.data_a
                 (init_world (db w1))))
  = [UpdateEventInfo 1 "Event A" false].
Proof. reflexivity. Qed.


(* ================================================================= *)
(** * Further properties of the service *)

(** ** The validator *)

Lemma validateEventSettings_nil st :
  validateEventSettings st = [] <-> settings_ok st = true.
Proof.
  unfold validateEventSettings, settings_ok.
  destruct (attendee_emails_asked st), (attendee_emails_required st);
    simpl; split; intros H; try reflexivity; discriminate.
Qed.

Lemma validateEventItem_nil item :
  validateEventItem item = [] <-> item_ok item = true.
Proof.
  unfold validateEventItem, item_ok.
  destruct (admission item), (personalized item),
    (generate_tickets item) as [[|]|];
    simpl; split; intros H; try reflexivity; discriminate.
Qed.

Lemma flat_map_nil {Row Out} (f : Row -> list Out) (rows : list Row) :
  flat_map f rows = [] <-> (forall r, In r rows -> f r = []).
Proof.
  induction rows as [|a l IH]; simpl.
  - split; [intros _ r []|reflexivity].
  - split.
    + intros H. apply app_eq_nil in H. destruct H as [Ha Hl].
      intros r [<-|Hr]; [assumption|]. apply IH; assumption.
    + intros H. rewrite (H a) by now left. simpl. apply IH.
      intros r Hr. apply H. now right.
Qed.

(** X1: the validator accepts an event exactly when its settings ask for and
    require the attendee email and every fetched item on the allow-list
    is an admission product, personalized, and not forced to generate
    tickets. *)
Theorem checkEventData_accepts_iff eventData eventConfig :
  checkEventData eventData eventConfig = []
  <-> settings_ok (settings eventData) = true
      /\ (forall item,
            In item (items eventData) ->
            In (toString (item_api_id item)) (activeItemIDs eventConfig) ->
            item_ok item = true).
Proof.
  unfold checkEventData. split.
  - intros H. apply app_eq_nil in H. destruct H as [Hs Hi]. split.
    + apply validateEventSettings_nil.
      destruct (validateEventSettings (settings eventData));
        [reflexivity|discriminate].
    + intros item Hin Hact.
      rewrite flat_map_nil in Hi. specialize (Hi item Hin).
      apply set_has_In in Hact. rewrite Hact in Hi.
      apply validateEventItem_nil.
      destruct (validateEventItem item); [reflexivity|discriminate].
  - intros [Hs Hi]. apply validateEventSettings_nil in Hs. rewrite Hs.
    simpl. apply flat_map_nil. intros item Hin.
    destruct (set_has (activeItemIDs eventConfig)
                (toString (item_api_id item))) eqn:Hact; [|reflexivity].
    apply set_has_In in Hact. specialize (Hi item Hin Hact).
    apply validateEventItem_nil in Hi. rewrite Hi. reflexivity.
Qed.

Lemma flat_map_filter_skip {Row Out} (keep : Row -> bool)
  (f : Row -> list Out) (rows : list Row)
  (H : forall r, keep r = false -> f r = []) :
  flat_map f (filter keep rows) = flat_map f rows.
Proof.
  induction rows as [|a l IH]; simpl; [reflexivity|].
  destruct (keep a) eqn:Ha; simpl.
  - rewrite IH. reflexivity.
  - rewrite (H a Ha). simpl. exact IH.
Qed.

(** X2: the verdict of the validator depends on the settings, on the name
    and slug of the event and on the allow-listed items only: the items
    that are not on the allow-list and the orders play no part. *)
Theorem checkEventData_ignores_inactive_items st info its orders orders'
  eventConfig :
  checkEventData
    {| settings := st; eventInfo := info; items := its; tickets := orders |}
    eventConfig
  = checkEventData
      {| settings := st; eventInfo := info;
         items := newActiveItemsOf (activeItemIDs eventConfig) its;
         tickets := orders' |}
      eventConfig.
Proof.
  unfold checkEventData, newActiveItemsOf. simpl. f_equal.
  symmetry. apply flat_map_filter_skip.
  intros item H. unfold api_item_key in H. rewrite H. reflexivity.
Qed.

(** ** Fetching the data of an event *)

(** X3: [fetchEventData] rejects exactly when one of the four provider calls
    rejects; when it resolves, its result carries the four responses; in
    both cases the store, the write trace and the error reports are
    untouched. *)
Theorem fetchEventData_all_or_nothing api organizer event w :
  snd (fetchEventData api organizer event w) = w
  /\ (fetch_fails api organizer event
      <-> fst (fetchEventData api organizer event w) = Rejected ApiRejected)
  /\ (forall d,
        fst (fetchEventData api organizer event w) = Resolved d <->
        fetchEventSettings api (orgURL organizer) (token organizer)
          (eventID event) = Some (settings d)
        /\ fetchItems api (orgURL organizer) (token organizer)
             (eventID event) = Some (items d)
        /\ fetchEvent api (orgURL organizer) (token organizer)
             (eventID event) = Some (eventInfo d)
        /\ fetchOrders api (orgURL organizer) (token organizer)
             (eventID event) = Some (tickets d)).
Proof.
  rewrite fetchEventData_fetched. simpl. split; [reflexivity|].
  rewrite fetch_fails_fetched. unfold fetched.
  destruct (fetchEventSettings api _ _ _) as [st|],
    (fetchItems api _ _ _) as [its|],
    (fetchEvent api _ _ _) as [info|],
    (fetchOrders api _ _ _) as [tks|];
    (split; [split; intros H; try reflexivity; discriminate|]);
    intros d; (split; [intros H; try discriminate|intros [H1 [H2 [H3 H4]]];
                                                   try discriminate]).
  - injection H as <-. simpl. auto.
  - destruct d. simpl in *. congruence.
Qed.

(** ** Order to ticket conversion, as a whole *)

Lemma convertPosition_position_ids order itemsInfo p :
  map position_id (fst (convertPosition order itemsInfo p))
  = if map_has item_id itemsInfo (toString (pos_item p))
    then [toString (pos_id p)] else [].
Proof.
  unfold convertPosition, map_has.
  destruct (map_get item_id itemsInfo (toString (pos_item p)));
    reflexivity.
Qed.

Lemma map_flat_map {Row Mid Out} (g : Mid -> Out) (f : Row -> list Mid)
  (rows : list Row) :
  map g (flat_map f rows) = flat_map (fun r => map g (f r)) rows.
Proof.
  induction rows as [|a l IH]; simpl; [reflexivity|].
  rewrite map_app, IH. reflexivity.
Qed.

Lemma map_filter_as_flat_map {Row Out} (g : Row -> Out) (keep : Row -> bool)
  (rows : list Row) :
  map g (filter keep rows)
  = flat_map (fun r => if keep r then [g r] else []) rows.
Proof.
  induction rows as [|a l IH]; simpl; [reflexivity|].
  destruct (keep a); simpl; rewrite IH; reflexivity.
Qed.

(** X4: the conversion yields one ticket for each position of a paid order
    whose item is a known item row, and nothing else: the position ids
    of the tickets are the decimal ids of those positions, in the order
    of the orders and of their positions.  A position whose item is
    unknown is dropped. *)
Theorem converted_tickets_are_ticketed_positions orders itemsInfo :
  map position_id (fst (ordersToDevconnectTickets orders itemsInfo))
  = map (fun p => toString (pos_id p)) (ticketed_positions orders itemsInfo).
Proof.
  unfold ordersToDevconnectTickets, ticketed_positions. simpl.
  induction orders as [|o orders IH]; simpl; [reflexivity|].
  rewrite map_app, IH. unfold convertOrder at 1.
  destruct (String.eqb (status o) "p"); simpl; [|reflexivity].
  rewrite filter_app, map_app. f_equal.
  rewrite map_flat_map, map_filter_as_flat_map.
  apply flat_map_ext. intros p. apply convertPosition_position_ids.
Qed.





(** ** [syncEvent] and [syncOrganizer] on valid data *)

Lemma syncItemInfos_resolves organizer event its w :
  exists ok, fst (syncItemInfos organizer event its w) = Resolved ok.
Proof.
  unfold syncItemInfos, try_catch.
  match goal with
  | |- context [match ?m w with _ => _ end] => destruct (m w) as [[ok|e] w']
  end; simpl; eexists; reflexivity.
Qed.

Lemma syncTickets_resolves organizer event orders w :
  exists ok, fst (syncTickets organizer event orders w) = Resolved ok.
Proof.
  unfold syncTickets, try_catch.
  match goal with
  | |- context [match ?m w with _ => _ end] => destruct (m w) as [[ok|e] w']
  end; simpl; eexists; reflexivity.
Qed.



Lemma fetched_all_events api organizer evs l :
  fetched_all api organizer evs = Some l -> map fst l = evs.
Proof.
  revert l. induction evs as [|ev evs IH]; simpl; intros l H.
  - injection H as <-. reflexivity.
  - destruct (fetched api organizer ev); [|discriminate].
    destruct (fetched_all api organizer evs) as [l'|]; [|discriminate].
    injection H as <-. simpl. rewrite (IH l' eq_refl). reflexivity.
Qed.

(** ** Tasks: running one alone is the promise of the embedding *)

Lemma simulates_ret {A} (a : A) : simulates (Stepwise.ret a) (ret a).
Proof. intros w. reflexivity. Qed.

Lemma simulates_throw {A} (e : Error) :
  simulates (@Stepwise.throw A e) (throw e).
Proof. intros w. reflexivity. Qed.

Lemma simulates_await {X} (c : Call X) :
  simulates (Stepwise.await c) (perform c).
Proof.
  intros w. simpl. destruct (perform c w) as [o w']. reflexivity.
Qed.

Lemma simulates_reportError e :
  simulates (Stepwise.reportError e) (reportError e).
Proof. intros w. reflexivity. Qed.

Lemma simulates_bind {A B} (t : Task A) (m : M A) (f : A -> Task B)
  (g : A -> M B) :
  simulates t m -> (forall a, simulates (f a) (g a)) ->
  simulates (Stepwise.bind t f) (bind m g).
Proof.
  unfold simulates. revert m.
  induction t as [[a|e]|e rest IH|X c k IH]; intros m Ht Hf w; simpl.
  - unfold bind. rewrite <- Ht. simpl. apply Hf.
  - unfold bind. rewrite <- Ht. reflexivity.
  - rewrite (IH (fun w0 => exec [] rest w0)); [|reflexivity|assumption].
    unfold bind. rewrite <- Ht. reflexivity.
  - unfold bind at 1. rewrite <- Ht. simpl.
    destruct (perform c w) as [o w'].
    rewrite (IH o (fun w0 => exec [] (k o) w0)); [|reflexivity|assumption].
    reflexivity.
Qed.

Lemma simulates_try_catch {A} (t : Task A) (m : M A)
  (h : Error -> Task A) (g : Error -> M A) :
  simulates t m -> (forall e, simulates (h e) (g e)) ->
  simulates (Stepwise.try_catch t h) (try_catch m g).
Proof.
  unfold simulates. revert m.
  induction t as [[a|e]|e rest IH|X c k IH]; intros m Ht Hh w; simpl.
  - unfold try_catch. rewrite <- Ht. reflexivity.
  - unfold try_catch. rewrite <- Ht. simpl. apply Hh.
  - rewrite (IH (fun w0 => exec [] rest w0)); [|reflexivity|assumption].
    unfold try_catch. rewrite <- Ht. reflexivity.
  - unfold try_catch at 1. rewrite <- Ht. simpl.
    destruct (perform c w) as [o w'].
    rewrite (IH o (fun w0 => exec [] (k o) w0)); [|reflexivity|assumption].
    reflexivity.
Qed.

Lemma simulates_for_each {A} (l : list A) (f : A -> Task unit)
  (g : A -> M unit) :
  (forall x, simulates (f x) (g x)) ->
  simulates (Stepwise.for_each l f) (for_each l g).
Proof.
  intros H. induction l as [|x r IH]; simpl.
  - apply simulates_ret.
  - apply simulates_bind; [apply H|intros _; assumption].
Qed.

Ltac simulate :=
  repeat first
    [ apply simulates_try_catch
    | apply simulates_bind
    | apply simulates_for_each
    | apply simulates_ret
    | apply simulates_throw
    | apply simulates_reportError
    | exact (simulates_await (FetchEventInfo _))
    | exact (simulates_await (FetchItemsInfoByEvent _))
    | exact (simulates_await (FetchTicketsByEvent _))
    | exact (simulates_await (StoreWrite _))
    | intro ].

Lemma simulates_syncEventInfos organizer event info :
  simulates (Stepwise.syncEventInfos organizer event info)
            (syncEventInfos organizer event info).
Proof.
  unfold Stepwise.syncEventInfos, syncEventInfos. simulate.
  destruct a; simulate.
Qed.

Lemma simulates_syncItemInfos organizer event its :
  simulates (Stepwise.syncItemInfos organizer event its)
            (syncItemInfos organizer event its).
Proof.
  unfold Stepwise.syncItemInfos, syncItemInfos. simulate.
  destruct a as [info|]; [|simulate].
  destruct (existsb _ (activeItemIDs event)); simulate.
  destruct (map_get item_id a (api_item_key x)); simulate.
Qed.

Lemma simulates_syncTickets organizer event orders :
  simulates (Stepwise.syncTickets organizer event orders)
            (syncTickets organizer event orders).
Proof.
  unfold Stepwise.syncTickets, syncTickets. simulate.
  destruct a as [info|]; simulate.
Qed.

Lemma simulates_syncEvent organizer event data :
  simulates (Stepwise.syncEvent organizer event data)
            (syncEvent organizer event data).
Proof.
  unfold Stepwise.syncEvent, syncEvent.
  apply simulates_try_catch; [|intros e; apply simulates_reportError].
  apply simulates_bind; [apply simulates_syncEventInfos|].
  intros ok1. destruct ok1; cbn [negb]; [|apply simulates_ret].
  apply simulates_bind; [apply simulates_syncItemInfos|].
  intros ok2. destruct ok2; cbn [negb]; [|apply simulates_ret].
  apply simulates_bind; [apply simulates_syncTickets|].
  intros ok3. destruct ok3; apply simulates_ret.
Qed.

(** ** Tasks under any schedule *)

Lemma never_rejects_try_catch {A} (t : Task A) (h : Error -> Task A) :
  (forall e, never_rejects (h e)) -> never_rejects (Stepwise.try_catch t h).
Proof.
  intros Hh. induction t as [[a|e]|e rest IH|X c k IH]; simpl; auto.
Qed.

Lemma never_rejects_syncEvent organizer event data :
  never_rejects (Stepwise.syncEvent organizer event data).
Proof.
  unfold Stepwise.syncEvent. apply never_rejects_try_catch.
  intros e. exact I.
Qed.

Lemma never_rejects_exec {A} (t : Task A) faults w :
  never_rejects t -> exists a, fst (exec faults t w) = Resolved a.
Proof.
  revert faults w.
  induction t as [[a|e]|e rest IH|X c k IH]; intros faults w H; simpl in *.
  - eexists. reflexivity.
  - contradiction.
  - apply IH. assumption.
  - destruct faults as [|[e|] later].
    + destruct (perform c w) as [o w']. apply IH, H.
    + apply IH, H.
    + destruct (perform c w) as [o w']. apply IH, H.
Qed.

Lemma never_rejects_advance {A} (t : Task A) w :
  never_rejects t -> never_rejects (fst (advance t w)).
Proof.
  revert w. induction t as [o|e rest IH|X c k IH]; intros w H; simpl;
    [assumption|apply IH; assumption|assumption].
Qed.

Lemma never_rejects_resume {A} fault (t : Task A) w :
  never_rejects t -> never_rejects (fst (resume fault t w)).
Proof.
  intros H. destruct t as [o|e rest|X c k].
  - assumption.
  - apply (never_rejects_advance (Reporting e rest)). assumption.
  - simpl. destruct fault as [e|].
    + apply never_rejects_advance, H.
    + destruct (perform c w) as [o w']. apply never_rejects_advance, H.
Qed.

Lemma never_rejects_resume_at {A} i fault (pool : list (Task A)) w :
  Forall never_rejects pool ->
  Forall never_rejects (fst (resume_at i fault pool w)).
Proof.
  revert i w. induction pool as [|t r IH]; intros i w H; simpl.
  - constructor.
  - inversion H as [|t0 r0 Ht Hr]; subst. destruct i as [|j].
    + pose proof (never_rejects_resume fault t w Ht) as Ht'.
      destruct (resume fault t w) as [t' w']. simpl in *.
      constructor; assumption.
    + pose proof (IH j w Hr) as Hr'.
      destruct (resume_at j fault r w) as [r' w']. simpl in *.
      constructor; assumption.
Qed.

Lemma interleave_cons {A} s sched (pool : list (Task A)) w :
  interleave (s :: sched) pool w
  = interleave sched (fst (resume_at (fst s) (snd s) pool w))
                     (snd (resume_at (fst s) (snd s) pool w)).
Proof.
  unfold interleave. simpl.
  destruct (resume_at (fst s) (snd s) pool w). reflexivity.
Qed.

Lemma never_rejects_interleave {A} sched (pool : list (Task A)) w :
  Forall never_rejects pool ->
  Forall never_rejects (fst (interleave sched pool w)).
Proof.
  revert pool w. induction sched as [|s sched IH]; intros pool w H.
  - assumption.
  - rewrite interleave_cons. apply IH, never_rejects_resume_at, H.
Qed.

Lemma resume_at_length {A} i fault (pool : list (Task A)) w :
  List.length (fst (resume_at i fault pool w)) = List.length pool.
Proof.
  revert i w. induction pool as [|t r IH]; intros i w; simpl; [reflexivity|].
  destruct i as [|j].
  - destruct (resume fault t w). reflexivity.
  - specialize (IH j w). destruct (resume_at j fault r w). simpl in *.
    rewrite IH. reflexivity.
Qed.

Lemma interleave_length {A} sched (pool : list (Task A)) w :
  List.length (fst (interleave sched pool w)) = List.length pool.
Proof.
  revert pool w. induction sched as [|s sched IH]; intros pool w.
  - reflexivity.
  - rewrite interleave_cons, IH. apply resume_at_length.
Qed.

Lemma every_task_fulfilled (pool : list (Task unit)) w :
  Forall never_rejects pool ->
  fst (promise_allSettled (map (exec []) pool) w)
  = Resolved (map (fun _ => Resolved tt) pool).
Proof.
  revert w. induction pool as [|t r IH]; intros w H; simpl; [reflexivity|].
  inversion H as [|t0 r0 Ht Hr]; subst.
  destruct (never_rejects_exec t [] w Ht) as [[] Ha].
  destruct (exec [] t w) as [o w1]. simpl in Ha. subst o.
  specialize (IH w1 Hr).
  destruct (promise_allSettled (map (exec []) r) w1) as [[res|e] w2];
    simpl in *; congruence.
Qed.

Lemma same_length_same_results {Row Other Out} (c : Out)
  (rows : list Row) (others : list Other) :
  List.length rows = List.length others ->
  map (fun _ => c) rows = map (fun _ => c) others.
Proof.
  revert others. induction rows as [|a l IH]; intros [|b m] H;
    simpl in *; try discriminate; [reflexivity|].
  f_equal. apply IH. congruence.
Qed.

(** *** The trace of writes only grows *)

Lemma grown_refl w : grown w w.
Proof. exists []. rewrite app_nil_r. reflexivity. Qed.

Lemma grown_trans w1 w2 w3 : grown w1 w2 -> grown w2 w3 -> grown w1 w3.
Proof.
  intros [a Ha] [b Hb]. exists (a ++ b). rewrite Hb, Ha, app_assoc.
  reflexivity.
Qed.

Lemma wrote_since_later P w0 w w' :
  wrote_since P w0 w -> grown w w' -> wrote_since P w0 w'.
Proof.
  intros [a [Ha Hex]] [b Hb]. exists (a ++ b). split.
  - rewrite Hb, Ha, app_assoc. reflexivity.
  - apply Exists_app. left. assumption.
Qed.

Lemma wrote_since_earlier P w0 w w' :
  grown w0 w -> wrote_since P w w' -> wrote_since P w0 w'.
Proof.
  intros [a Ha] [b [Hb Hex]]. exists (a ++ b). split.
  - rewrite Hb, Ha, app_assoc. reflexivity.
  - apply Exists_app. right. assumption.
Qed.

Lemma wrote_since_grown P w w' : wrote_since P w w' -> grown w w'.
Proof. intros [a [Ha _]]. exists a. assumption. Qed.

Lemma perform_grown {X} (c : Call X) w : grown w (snd (perform c w)).
Proof.
  destruct c; simpl; try apply grown_refl. exists [wr]. reflexivity.
Qed.

Lemma perform_resolves {X} (c : Call X) w :
  exists x, fst (perform c w) = Resolved x.
Proof. destruct c; simpl; eexists; reflexivity. Qed.

Lemma reportError_grown e w : grown w (snd (reportError e w)).
Proof. exists []. simpl. rewrite app_nil_r. reflexivity. Qed.

Lemma advance_grown {A} (t : Task A) w : grown w (snd (advance t w)).
Proof.
  revert w. induction t as [o|e rest IH|X c k IH]; intros w; simpl;
    try apply grown_refl.
  eapply grown_trans; [apply (reportError_grown e w)|apply IH].
Qed.

Lemma advance_owes {A} P (t : Task A) w :
  owes P t -> owes P (fst (advance t w)).
Proof.
  revert w. induction t as [o|e rest IH|X c k IH]; intros w H; simpl;
    [assumption|apply IH; assumption|assumption].
Qed.

Lemma resume_grown {A} fault (t : Task A) w :
  grown w (snd (resume fault t w)).
Proof.
  destruct t as [o|e rest|X c k].
  - apply grown_refl.
  - apply (advance_grown (Reporting e rest)).
  - simpl. destruct fault as [e|]; [apply advance_grown|].
    pose proof (perform_grown c w) as Hg.
    destruct (perform c w) as [o w']. simpl in Hg.
    eapply grown_trans; [exact Hg|apply advance_grown].
Qed.

Lemma resume_owes {A} P (t : Task A) w :
  owes P t ->
  owes P (fst (resume None t w)) \/ wrote_since P w (snd (resume None t w)).
Proof.
  intros H. destruct t as [o|e rest|X c k].
  - contradiction.
  - left. apply (advance_owes P (Reporting e rest)). assumption.
  - simpl in *. destruct H as [H|H].
    + right. destruct c; try contradiction. simpl.
      eapply wrote_since_later; [|apply advance_grown].
      exists [wr]. split; [reflexivity|]. constructor. assumption.
    + left. destruct (perform_resolves c w) as [x Hx].
      destruct (perform c w) as [o w']. simpl in Hx. subst o.
      apply advance_owes, H.
Qed.

Lemma exec_grown {A} faults (t : Task A) w :
  grown w (snd (exec faults t w)).
Proof.
  revert faults w.
  induction t as [o|e rest IH|X c k IH]; intros faults w; simpl.
  - apply grown_refl.
  - eapply grown_trans; [apply (reportError_grown e w)|apply IH].
  - pose proof (perform_grown c w) as Hg.
    destruct faults as [|[e|] later]; try apply IH;
      destruct (perform c w) as [o w']; simpl in Hg;
      (eapply grown_trans; [exact Hg|apply IH]).
Qed.

Lemma exec_owes {A} P (t : Task A) w :
  owes P t -> wrote_since P w (snd (exec [] t w)).
Proof.
  revert w.
  induction t as [o|e rest IH|X c k IH]; intros w H; simpl in *.
  - contradiction.
  - eapply wrote_since_earlier; [apply (reportError_grown e w)|].
    apply IH. assumption.
  - destruct H as [H|H].
    + destruct c; try contradiction. simpl.
      eapply wrote_since_later; [|apply exec_grown].
      exists [wr]. split; [reflexivity|]. constructor. assumption.
    + pose proof (perform_grown c w) as Hg.
      destruct (perform_resolves c w) as [x Hx].
      destruct (perform c w) as [o w']. simpl in Hx, Hg. subst o.
      eapply wrote_since_earlier; [exact Hg|]. apply IH, H.
Qed.

(** *** What each task of a pool still has to write *)

Lemma on_course_later {A} w0 w w' (pool : list (Task A)) dues :
  grown w w' -> on_course w0 w pool dues -> on_course w0 w' pool dues.
Proof.
  intros Hg H. induction H as [|t P pool dues [Ht|Ht] Hr IH];
    constructor; auto.
  right. eapply wrote_since_later; eassumption.
Qed.

Lemma resume_at_grown {A} i fault (pool : list (Task A)) w :
  grown w (snd (resume_at i fault pool w)).
Proof.
  revert i w. induction pool as [|t r IH]; intros i w; simpl.
  - apply grown_refl.
  - destruct i as [|j].
    + pose proof (resume_grown fault t w) as Hg.
      destruct (resume fault t w). assumption.
    + specialize (IH j w). destruct (resume_at j fault r w). assumption.
Qed.

Lemma resume_at_on_course {A} i w0 w (pool : list (Task A)) dues :
  grown w0 w -> on_course w0 w pool dues ->
  on_course w0 (snd (resume_at i None pool w))
            (fst (resume_at i None pool w)) dues.
Proof.
  intros Hg0 H. revert i.
  induction H as [|t P pool dues Ht Hr IH]; intros i; simpl.
  - constructor.
  - destruct i as [|j].
    + pose proof (resume_grown None t w) as Hg.
      pose proof (resume_owes P t w) as Ho.
      destruct (resume None t w) as [t' w']. simpl in *.
      constructor.
      * destruct Ht as [Ht|Ht].
        -- destruct (Ho Ht) as [Ho'|Ho']; [left; assumption|].
           right. eapply wrote_since_earlier; eassumption.
        -- right. eapply wrote_since_later; eassumption.
      * eapply on_course_later; eassumption.
    + pose proof (resume_at_grown j None pool w) as Hg.
      specialize (IH j).
      destruct (resume_at j None pool w) as [r' w']. simpl in *.
      constructor; [|assumption].
      destruct Ht as [Ht|Ht]; [left; assumption|].
      right. eapply wrote_since_later; eassumption.
Qed.

Lemma interleave_grown {A} sched (pool : list (Task A)) w :
  grown w (snd (interleave sched pool w)).
Proof.
  revert pool w. induction sched as [|s sched IH]; intros pool w.
  - apply grown_refl.
  - rewrite interleave_cons.
    eapply grown_trans; [|apply IH]. apply resume_at_grown.
Qed.

Lemma interleave_on_course {A} sched w0 w (pool : list (Task A)) dues :
  Forall (fun s => snd s = None) sched ->
  grown w0 w -> on_course w0 w pool dues ->
  on_course w0 (snd (interleave sched pool w))
            (fst (interleave sched pool w)) dues.
Proof.
  intros Hs. revert pool w.
  induction Hs as [|[i fault] sched Hf Hs IH]; intros pool w Hg H.
  - assumption.
  - simpl in Hf. subst fault. rewrite interleave_cons. simpl.
    apply IH.
    + eapply grown_trans; [exact Hg|apply resume_at_grown].
    + apply resume_at_on_course; assumption.
Qed.

Lemma allSettled_grown {A} faults (pool : list (Task A)) w :
  grown w (snd (promise_allSettled (map (exec faults) pool) w)).
Proof.
  revert w. induction pool as [|t r IH]; intros w; simpl.
  - apply grown_refl.
  - pose proof (exec_grown faults t w) as Hg.
    destruct (exec faults t w) as [o w1]. simpl in Hg.
    specialize (IH w1).
    destruct (promise_allSettled (map (exec faults) r) w1) as [[l|e] w2];
      simpl in *; eapply grown_trans; eassumption.
Qed.

Lemma allSettled_pays {A} w0 w (pool : list (Task A)) dues :
  grown w0 w -> on_course w0 w pool dues ->
  Forall
    (fun P =>
       wrote_since P w0 (snd (promise_allSettled (map (exec []) pool) w)))
    dues.
Proof.
  intros Hg H. revert dues w H Hg.
  induction pool as [|t r IH]; intros dues w H Hg;
    inversion H as [|t0 P r0 dues' Ht Hr]; subst; simpl.
  - constructor.
  - pose proof (exec_grown [] t w) as Hg1.
    pose proof (exec_owes P t w) as Ho.
    destruct (exec [] t w) as [o w1]. simpl in Hg1, Ho.
    assert (Hg01 : grown w0 w1) by (eapply grown_trans; eassumption).
    pose proof (allSettled_grown [] r w1) as Hg2.
    specialize (IH dues' w1 (on_course_later w0 w w1 r dues' Hg1 Hr) Hg01).
    destruct (promise_allSettled (map (exec []) r) w1) as [[l|e] w2];
      simpl in *.
    + constructor; [|assumption].
      destruct Ht as [Ht|Ht].
      * eapply wrote_since_later; [|exact Hg2].
        eapply wrote_since_earlier; [exact Hg|]. apply Ho. assumption.
      * eapply wrote_since_later; [exact Ht|].
        eapply grown_trans; eassumption.
    + constructor; [|assumption].
      destruct Ht as [Ht|Ht].
      * eapply wrote_since_later; [|exact Hg2].
        eapply wrote_since_earlier; [exact Hg|]. apply Ho. assumption.
      * eapply wrote_since_later; [exact Ht|].
        eapply grown_trans; eassumption.
Qed.

Lemma owes_syncEvent organizer event data :
  owes (writes_event_info event (eventInfo data))
       (Stepwise.syncEvent organizer event data).
Proof.
  unfold Stepwise.syncEvent, Stepwise.syncEventInfos. simpl. right.
  intros [ex|]; simpl; left; unfold writes_event_info.
  - right. eexists. reflexivity.
  - left. reflexivity.
Qed.

Lemma event_syncs_on_course organizer w
  (l : list (DevconnectPretixEventConfig * EventData)) :
  on_course w w
    (map (fun ed => Stepwise.syncEvent organizer (fst ed) (snd ed)) l)
    (map (fun ed => writes_event_info (fst ed) (eventInfo (snd ed))) l).
Proof.
  induction l as [|ed l IH]; simpl; constructor; [|assumption].
  left. apply owes_syncEvent.
Qed.

(** With no schedule the event syncs run one after the other, as in
    [syncOrganizer]. *)
Lemma promise_allSettled_simulated {A} (pool : list (Task A))
  (promises : list (M A)) w :
  Forall2 simulates pool promises ->
  promise_allSettled (map (exec []) pool) w = promise_allSettled promises w.
Proof.
  intros H. revert w. induction H as [|t m pool promises Ht Hr IH];
    intros w; simpl; [reflexivity|].
  rewrite (Ht w). destruct (m w) as [o w1]. rewrite IH. reflexivity.
Qed.

Lemma syncOrganizer_under_nil api organizer w :
  syncOrganizer_under [] api organizer w = syncOrganizer api organizer w.
Proof.
  unfold syncOrganizer_under, syncOrganizer, try_catch.
  unfold bind at 1. unfold bind at 4.
  rewrite promise_all_fetch.
  destruct (fetched_all api organizer (events organizer)) as [l|];
    [|reflexivity].
  destruct (negb (isnil _)); [reflexivity|].
  unfold bind, promise_allSettled_under, interleave. simpl.
  rewrite (promise_allSettled_simulated _
             (map (fun ed => syncEvent organizer (fst ed) (snd ed)) l)).
  - reflexivity.
  - clear. induction l as [|ed l IH]; simpl; constructor;
      [apply simulates_syncEvent|assumption].
Qed.

Lemma syncOrganizer_under_valid sched api organizer w l :
  fetched_all api organizer (events organizer) = Some l ->
  errors_of l = [] ->
  syncOrganizer_under sched api organizer w
  = (match fst (promise_allSettled_under sched
                  (map (fun ed => Stepwise.syncEvent organizer (fst ed) (snd ed))
                       l) w) with
     | Resolved settled => Resolved (Some settled)
     | Rejected e => Resolved None
     end,
     match fst (promise_allSettled_under sched
                  (map (fun ed => Stepwise.syncEvent organizer (fst ed) (snd ed))
                       l) w) with
     | Resolved settled =>
         snd (promise_allSettled_under sched
                (map (fun ed => Stepwise.syncEvent organizer (fst ed) (snd ed))
                     l) w)
     | Rejected e =>
         aborted_with e
           (snd (promise_allSettled_under sched
                   (map (fun ed =>
                           Stepwise.syncEvent organizer (fst ed) (snd ed))
                        l) w))
     end).
Proof.
  intros Hf He.
  unfold syncOrganizer_under, try_catch, bind at 1.
  rewrite promise_all_fetch, Hf. fold (errors_of l). rewrite He. simpl.
  unfold bind.
  destruct (promise_allSettled_under sched _ w) as [[settled|e] w1];
    reflexivity.
Qed.

(** X7: when every fetch of an organizer resolves and validation finds
    nothing, the sync of every configured event is started with the data
    fetched for it, and however the storage calls of these syncs
    interleave, and whichever of them reject, the organizer task
    resolves with one fulfilled result per event.  When no storage call
    rejects, the event-info write of every event has been made by then.
    The schedule that interleaves nothing is [syncOrganizer]. *)
Theorem syncOrganizer_syncs_every_event api organizer w l sched :
  fetched_all api organizer (events organizer) = Some l ->
  errors_of l = [] ->
  map fst l = events organizer
  /\ fst (syncOrganizer_under sched api organizer w)
     = Resolved (Some (map (fun _ => Resolved tt) (events organizer)))
  /\ (Forall (fun s => snd s = None) sched ->
      exists later,
        writes (snd (syncOrganizer_under sched api organizer w))
        = writes w ++ later
        /\ forall ev d, In (ev, d) l ->
             Exists (writes_event_info ev (eventInfo d)) later)
  /\ syncOrganizer_under [] api organizer w = syncOrganizer api organizer w.
Proof.
  intros Hf He. pose proof (fetched_all_events _ _ _ _ Hf) as Hev.
  split; [assumption|].
  set (pool := map (fun ed => Stepwise.syncEvent organizer (fst ed) (snd ed)) l).
  assert (Hnr : Forall never_rejects pool).
  { unfold pool. apply Forall_forall. intros t Ht.
    apply in_map_iff in Ht. destruct Ht as [ed [<- _]].
    apply never_rejects_syncEvent. }
  assert (Hres : fst (promise_allSettled_under sched pool w)
                 = Resolved (map (fun _ => Resolved tt) (events organizer))).
  { unfold promise_allSettled_under.
    pose proof (never_rejects_interleave sched pool w Hnr) as Hnr'.
    pose proof (interleave_length sched pool w) as Hlen.
    destruct (interleave sched pool w) as [pool' w']. simpl in *.
    rewrite (every_task_fulfilled pool' w' Hnr').
    f_equal. apply same_length_same_results.
    rewrite Hlen. unfold pool. rewrite List.length_map, <- Hev.
    rewrite List.length_map. reflexivity. }
  rewrite (syncOrganizer_under_valid sched api organizer w l Hf He).
  fold pool. rewrite Hres. simpl.
  split; [reflexivity|]. split; [|apply syncOrganizer_under_nil].
  intros Hs.
  pose proof (interleave_on_course sched w w pool _ Hs (grown_refl w)
                (event_syncs_on_course organizer w l)) as Hc.
  pose proof (interleave_grown sched pool w) as Hg.
  unfold promise_allSettled_under.
  destruct (interleave sched pool w) as [pool' w']. simpl in Hc, Hg.
  pose proof (allSettled_pays w w' pool' _ Hg Hc) as Hp.
  pose proof (allSettled_grown [] pool' w') as Hg'.
  destruct (grown_trans _ _ _ Hg Hg') as [later Hlater].
  exists later. split; [assumption|].
  intros ev d Hin. rewrite Forall_forall in Hp.
  destruct (Hp (writes_event_info ev (eventInfo d))) as [later' [Hl Hex]].
  { apply in_map_iff. exists (ev, d). split; [reflexivity|assumption]. }
  rewrite Hlater in Hl. apply app_inv_head in Hl. subst later'.
  assumption.
Qed.

Lemma syncOrganizer_syncs_every_event_witness :
  let l := [(Samples.event_a, Samples.data_a);
            (Samples.event_b, Samples.data_b)] in
  let sched := [(0, None); (1, None); (1, None); (0, None);
                (1, None); (0, None)] in
  let w := init_world empty_store in
  map fst l = events Samples.organizer1
  /\ fst (syncOrganizer_under sched Samples.api_ok Samples.organizer1 w)
     = Resolved (Some (map (fun _ => Resolved tt)
                         (events Samples.organizer1)))
  /\ (Forall (fun s : nat * option Error => snd s = None) sched ->
      exists later,
        writes (snd (syncOrganizer_under sched Samples.api_ok
                       Samples.organizer1 w))
        = writes w ++ later
        /\ forall ev d, In (ev, d) l ->
             Exists (writes_event_info ev (eventInfo d)) later)
  /\ syncOrganizer_under [] Samples.api_ok Samples.organizer1 w
     = syncOrganizer Samples.api_ok Samples.organizer1 w.
Proof.
  intros l sched w.
  apply (syncOrganizer_syncs_every_event Samples.api_ok Samples.organizer1
           w l sched); reflexivity.
Defined.

(** The order of the writes depends on the schedule: when the two event
    syncs of organizer 1 take turns, both event-info rows are written
    before the first item row; in list order the item row of the first
    event comes second. *)
Example interleaved_event_syncs :
  let w := init_world empty_store in
  let turns := [(0, None); (1, None); (0, None); (1, None)] in
  map is_item_write
      (firstn 2 (writes (snd (syncOrganizer_under turns Samples.api_ok
                                Samples.organizer1 w))))
  = [false; false]
  /\ map is_item_write
         (firstn 2 (writes (snd (syncOrganizer Samples.api_ok
                                   Samples.organizer1 w))))
     = [false; true].
Proof. vm_compute. split; reflexivity. Qed.

(** X8: validation collects before it aborts: when every fetch resolves,
    each violation of each event of the organizer is part of the single
    error the organizer task reports. *)
Theorem every_violation_is_reported api organizer w l ev d m :
  fetched_all api organizer (events organizer) = Some l ->
  In ev (events organizer) ->
  fetched api organizer ev = Some d ->
  In m (checkEventData d ev) ->
  In m (errors_of l)
  /\ reported (snd (syncOrganizer api organizer w))
     = reported w
       ++ [ApiResponseErrors (organizer_id organizer)
             (join newline (errors_of l))].
Proof.
  intros Hf Hin Hd Hm.
  assert (Hml : In m (errors_of l)).
  { unfold errors_of. apply in_flat_map. exists (ev, d).
    split; [eapply fetched_all_in; eauto|assumption]. }
  split; [assumption|].
  rewrite (syncOrganizer_invalid api organizer w l Hf).
  - reflexivity.
  - intros Hnil. rewrite Hnil in Hml. contradiction.
Qed.

Lemma every_violation_is_reported_witness :
  let l := [(Samples.event_a, Samples.data_a_invalid);
            (Samples.event_b, Samples.data_b)] in
  let m := hd EmptyString
             (checkEventData Samples.data_a_invalid Samples.event_a) in
  In m (errors_of l)
  /\ reported (snd (syncOrganizer Samples.api_org1_invalid
                      Samples.organizer1 (init_world empty_store)))
     = reported (init_world empty_store)
       ++ [ApiResponseErrors (organizer_id Samples.organizer1)
             (join newline (errors_of l))].
Proof.
  intros l m.
  apply (every_violation_is_reported Samples.api_org1_invalid
           Samples.organizer1 (init_world empty_store) l
           Samples.event_a Samples.data_a_invalid m).
  - reflexivity.
  - simpl. left. reflexivity.
  - reflexivity.
  - vm_compute. left. reflexivity.
Defined.

(** ** The event-info phase *)

Lemma syncEventInfos_calls_go_through organizer event info w faults :
  first_fault 2 faults = None ->
  exec faults (Stepwise.syncEventInfos organizer event info) w
  = (Resolved true, written (event_write (db w) event info) w).
Proof.
  intros Hf. unfold Stepwise.syncEventInfos, event_write, written.
  destruct faults as [|[e|] [|[e'|] later]]; simpl in *;
    try discriminate Hf; unfold query;
    destruct (fetchPretixEventInfo (db w) (event_config_id event));
    reflexivity.
Qed.

Lemma syncEventInfos_call_rejects organizer event info w faults e :
  first_fault 2 faults = Some e ->
  exec faults (Stepwise.syncEventInfos organizer event info) w
  = (Resolved false, aborted_with e w).
Proof.
  intros Hf. unfold Stepwise.syncEventInfos.
  destruct faults as [|[e1|] [|[e2|] later]]; simpl in *;
    try discriminate Hf; try (injection Hf as <-); unfold query;
    try reflexivity;
    destruct (fetchPretixEventInfo (db w) (event_config_id event));
    reflexivity.
Qed.

(** X9: the event-info phase never rejects, whatever its two storage
    calls do.  When the fetch and the write go through it returns
    success and has acted as an upsert on the event-config id:
    afterwards the EventInfo row of the event exists, is active and
    carries the fetched name; a row that existed keeps its id and no
    second row is created; the item and ticket tables are not touched
    and nothing is reported.  When one of the two calls rejects, it
    returns failure, reports the rejection and leaves the store as it
    was.  With every call going through, the phase run call by call is
    [syncEventInfos]. *)
Theorem syncEventInfos_upserts organizer event info w faults :
  let r := exec faults (Stepwise.syncEventInfos organizer event info) w in
  let w' := snd r in
  (first_fault 2 faults = None ->
   fst r = Resolved true
   /\ reported w' = reported w
   /\ (exists row,
         fetchPretixEventInfo (db w') (event_config_id event) = Some row
         /\ event_name row = en (event_api_name info)
         /\ event_is_deleted row = false
         /\ match fetchPretixEventInfo (db w) (event_config_id event) with
            | Some old => event_info_id row = event_info_id old
            | None => True
            end)
   /\ List.length (events_info (db w'))
      = List.length (events_info (db w))
        + match fetchPretixEventInfo (db w) (event_config_id event) with
          | Some _ => 0
          | None => 1
          end
   /\ items_info (db w') = items_info (db w)
   /\ tickets_tbl (db w') = tickets_tbl (db w))
  /\ (forall e, first_fault 2 faults = Some e ->
      fst r = Resolved false
      /\ db w' = db w
      /\ writes w' = writes w
      /\ reported w' = reported w ++ [e])
  /\ exec [] (Stepwise.syncEventInfos organizer event info) w
     = syncEventInfos organizer event info w.
Proof.
  cbv zeta. split; [|split].
  - intros Hf. rewrite (syncEventInfos_calls_go_through _ _ _ _ _ Hf). simpl.
    split; [reflexivity|]. split; [reflexivity|]. split; [|split].
    + destruct (event_row_after_event_write (db w) event info)
        as [row [Hrow [_ [Hn [Hd Hid]]]]].
      exists row. repeat split; try assumption.
      destruct (fetchPretixEventInfo (db w) (event_config_id event)) as [old|];
        [apply Hid; reflexivity|exact I].
    + unfold event_write.
      destruct (fetchPretixEventInfo (db w) (event_config_id event)); simpl.
      * unfold update_event. rewrite List.length_map. lia.
      * unfold insert_event. rewrite List.length_app. simpl. reflexivity.
    + unfold event_write.
      destruct (fetchPretixEventInfo (db w) (event_config_id event));
        simpl; auto.
  - intros e Hf. rewrite (syncEventInfos_call_rejects _ _ _ _ _ _ Hf).
    simpl. auto.
  - apply simulates_syncEventInfos.
Qed.

(** The write of the event-info phase rejects on a store that has the
    row: failure is returned, the rejection reported, the name not
    rewritten. *)
Example syncEventInfos_write_rejected e :
  exec [None; Some e]
       (Stepwise.syncEventInfos Samples.organizer1 Samples.event_a
          (eventInfo Samples.data_a))
       (init_world Samples.stale_store)
  = (Resolved false, aborted_with e (init_world Samples.stale_store)).
Proof. reflexivity. Qed.

Lemma find_app_some {Row} (keep : Row -> bool) (front back : list Row) r :
  find keep front = Some r -> find keep (front ++ back) = Some r.
Proof.
  induction front as [|a l IH]; simpl; [discriminate|].
  destruct (keep a); [trivial|assumption].
Qed.

(** X10: on a store with distinct EventInfo ids, the event-info phase of an
    event leaves the EventInfo row of every other event config as it
    was. *)
Theorem syncEventInfos_leaves_other_events organizer event info w other :
  NoDup (map event_info_id (events_info (db w))) ->
  other <> event_config_id event ->
  fetchPretixEventInfo (db (snd (syncEventInfos organizer event info w))) other
  = fetchPretixEventInfo (db w) other.
Proof.
  intros Hnd Hne. rewrite syncEventInfos_written. simpl.
  unfold event_write, fetchPretixEventInfo.
  destruct (find (fun e => String.eqb (pretix_events_config_id e)
                             (event_config_id event))
                 (events_info (db w))) as [old|] eqn:Hold; simpl.
  - rewrite find_update_event.
    destruct (find (fun e => String.eqb (pretix_events_config_id e) other)
                   (events_info (db w))) as [r|] eqn:Hr; [|reflexivity].
    simpl. destruct (Nat.eqb (event_info_id r) (event_info_id old)) eqn:E;
      [|reflexivity].
    exfalso. apply Nat.eqb_eq in E.
    apply find_some in Hold, Hr. destruct Hold as [Ho Hoc], Hr as [Hr Hrc].
    assert (r = old) by (apply (NoDup_map_eq event_info_id _ r old Hnd); auto).
    subst r. apply String.eqb_eq in Hoc, Hrc. congruence.
  - unfold insert_event.
    destruct (find (fun e => String.eqb (pretix_events_config_id e) other)
                   (events_info (db w))) as [r|] eqn:Hr.
    + rewrite (find_app_some _ _ _ r Hr). reflexivity.
    + rewrite find_app_none by assumption. simpl.
      destruct (String.eqb (event_config_id event) other) eqn:E;
        [|reflexivity].
      apply String.eqb_eq in E. congruence.
Qed.


Lemma syncEventInfos_leaves_other_events_witness :
  fetchPretixEventInfo
    (db (snd (syncEventInfos Samples.organizer1 Samples.event_a
                (eventInfo Samples.data_a_drift)
                (init_world MoreSamples.two_event_store)))) "cfg-b"
  = fetchPretixEventInfo (db (init_world MoreSamples.two_event_store)) "cfg-b".
Proof.
  apply (syncEventInfos_leaves_other_events Samples.organizer1 Samples.event_a
           (eventInfo Samples.data_a_drift)
           (init_world MoreSamples.two_event_store) "cfg-b").
  - vm_compute. nodup_concrete.
  - discriminate.
Defined.

(** ** The item and ticket phases without their EventInfo row *)

(** X11: the item phase and the ticket phase both need the EventInfo row of
    the event: when it is missing, each of them reports that it could not
    be found and returns failure without a single write. *)
Theorem phases_need_the_event_info_row organizer event its orders w :
  fetchPretixEventInfo (db w) (event_config_id event) = None ->
  syncItemInfos organizer event its w
  = (Resolved false,
     aborted_with (EventInfoNotFound (event_config_id event)) w)
  /\ syncTickets organizer event orders w
     = (Resolved false,
        aborted_with (EventInfoNotFound (event_config_id event)) w).
Proof.
  intros H. split.
  - unfold syncItemInfos, try_catch, bind at 1, query. simpl.
    rewrite H. reflexivity.
  - unfold syncTickets, try_catch, bind at 1, query. simpl.
    rewrite H. reflexivity.
Qed.

Lemma phases_need_the_event_info_row_witness :
  syncItemInfos Samples.organizer1 Samples.event_b [Samples.item8]
    (init_world Samples.store_after_a)
  = (Resolved false,
     aborted_with (EventInfoNotFound "cfg-b")
       (init_world Samples.store_after_a))
  /\ syncTickets Samples.organizer1 Samples.event_b [Samples.paid_order_b]
       (init_world Samples.store_after_a)
     = (Resolved false,
        aborted_with (EventInfoNotFound "cfg-b")
          (init_world Samples.store_after_a)).
Proof.
  apply (phases_need_the_event_info_row Samples.organizer1 Samples.event_b
           [Samples.item8] [Samples.paid_order_b]
           (init_world Samples.store_after_a)).
  reflexivity.
Defined.

(** ** The ticket phase when no order is paid *)

Lemma unpaid_orders_convert_to_nothing orders itemsInfo :
  (forall o, In o orders -> status o <> "p") ->
  fst (ordersToDevconnectTickets orders itemsInfo) = [].
Proof.
  intros H. unfold ordersToDevconnectTickets. simpl.
  apply flat_map_nil. intros o Ho.
  rewrite (convertOrder_unpaid itemsInfo o (H o Ho)). reflexivity.
Qed.

Lemma filter_all {Row} (keep : Row -> bool) (rows : list Row)
  (H : forall r, In r rows -> keep r = true) : filter keep rows = rows.
Proof.
  revert H. induction rows as [|a l IH]; simpl; intros H; [reflexivity|].
  rewrite (H a) by now left. f_equal. apply IH.
  intros r Hr. apply H. now right.
Qed.

Lemma ticket_writes_nothing_incoming xt :
  ticket_writes [] xt = map SoftDeleteTicket xt.
Proof.
  unfold ticket_writes, newTicketsOf, updatedTicketsOf, removedTicketsOf.
  simpl. rewrite filter_all; [reflexivity|]. intros r _. reflexivity.
Qed.

Lemma fold_soft_delete_ticket l t :
  fold_left (fun t0 n => soft_delete_ticket n t0) l t
  = map (fun r => if existsb (fun n => same_position n r) l
                  then set_ticket_deleted r else r) t.
Proof.
  revert t. induction l as [|n l IH]; intros t; simpl.
  - symmetry. apply map_id.
  - rewrite IH. unfold soft_delete_ticket. rewrite map_map.
    apply map_ext. intros r.
    destruct (same_position n r) eqn:Hn; simpl; [|reflexivity].
    destruct (existsb _ l); reflexivity.
Qed.

(** X12: when the fetch brings no paid order (every order was refunded or is
    pending, or there is none), the ticket phase inserts and updates
    nothing and soft-deletes each active ticket of the event: afterwards
    the event has no active ticket left. *)
Theorem no_paid_order_retires_every_ticket organizer event orders w info :
  fetchPretixEventInfo (db w) (event_config_id event) = Some info ->
  (forall o, In o orders -> status o <> "p") ->
  let w' := snd (syncTickets organizer event orders w) in
  writes w'
  = writes w
    ++ map SoftDeleteTicket
         (fetchDevconnectPretixTicketsByEvent (db w) (event_config_id event))
  /\ fetchDevconnectPretixTicketsByEvent (db w') (event_config_id event) = [].
Proof.
  intros Hf Hun. cbv zeta.
  rewrite (syncTickets_wrote organizer event orders w info Hf).
  rewrite (unpaid_orders_convert_to_nothing orders _ Hun).
  rewrite ticket_writes_nothing_incoming. simpl.
  split; [reflexivity|].
  set (xt := fetchDevconnectPretixTicketsByEvent (db w)
               (event_config_id event)).
  rewrite apply_ticket_writes by (apply forallb_map_const; reflexivity).
  rewrite fold_left_map. simpl.
  change (fold_left (fun t wr => soft_delete_ticket wr t) xt (tickets_tbl (db w)))
    with (fold_left (fun t0 n => soft_delete_ticket n t0) xt
            (tickets_tbl (db w))).
  rewrite fold_soft_delete_ticket.
  unfold fetchDevconnectPretixTicketsByEvent at 1. simpl.
  apply filter_nil. intros r' Hr'. apply in_map_iff in Hr'.
  destruct Hr' as [r [<- Hr]].
  destruct (existsb (fun n => same_position n r) xt) eqn:Hex.
  - simpl. apply andb_false_r.
  - change (ticket_in_event _ (event_config_id event) r)
      with (ticket_in_event (db w) (event_config_id event) r).
    destruct (ticket_in_event (db w) (event_config_id event) r
              && negb (is_deleted r)) eqn:Hlive; [|reflexivity].
    exfalso.
    assert (Hin : In r xt).
    { unfold xt, fetchDevconnectPretixTicketsByEvent. apply filter_In.
      auto. }
    assert (existsb (fun n => same_position n r) xt = true).
    { apply existsb_exists. exists r. split; [assumption|].
      unfold same_position. apply String.eqb_refl. }
    congruence.
Qed.

Lemma no_paid_order_retires_every_ticket_witness :
  let w := init_world Samples.store_after_a in
  let w' := snd (syncTickets Samples.organizer1 Samples.event_a
                   [MoreSamples.refunded_order; Samples.pending_order] w) in
  writes w'
  = writes w
    ++ map SoftDeleteTicket
         (fetchDevconnectPretixTicketsByEvent (db w) "cfg-a")
  /\ fetchDevconnectPretixTicketsByEvent (db w') "cfg-a" = [].
Proof.
  apply (no_paid_order_retires_every_ticket Samples.organizer1 Samples.event_a
           [MoreSamples.refunded_order; Samples.pending_order]
           (init_world Samples.store_after_a)
           {| event_info_id := 1; pretix_events_config_id := "cfg-a";
              event_name := "Event A"; event_is_deleted := false |}).
  - reflexivity.
  - simpl. intros o [<-|[<-|[]]]; discriminate.
Defined.

(** ** Unique ids and natural keys are kept *)

Lemma store_wf_write wr s : store_wf s -> store_wf (apply_write wr s).
Proof.
  intros [Hev Hii Hik Hpos].
  destruct wr; constructor; simpl; try assumption.
  - unfold insert_event. rewrite map_app. simpl.
    apply NoDup_app; [assumption|repeat constructor; simpl; tauto|].
    intros a Ha [<-|[]]. revert Ha. apply fresh_id_not_in.
  - unfold update_event. rewrite map_map.
    erewrite map_ext; [exact Hev|].
    intros r. destruct (Nat.eqb (event_info_id r) id); reflexivity.
  - unfold insert_item.
    destruct (existsb (item_key_is itemID event_info) (items_info s)).
    + rewrite map_map. erewrite map_ext; [exact Hii|].
      intros r. destruct (item_key_is itemID event_info r); reflexivity.
    + rewrite map_app. simpl.
      apply NoDup_app; [assumption|repeat constructor; simpl; tauto|].
      intros a Ha [<-|[]]. revert Ha. apply fresh_id_not_in.
  - unfold insert_item.
    destruct (existsb (item_key_is itemID event_info) (items_info s)) eqn:He.
    + rewrite map_map. erewrite map_ext; [exact Hik|].
      intros r. destruct (item_key_is itemID event_info r); reflexivity.
    + rewrite map_app. simpl.
      apply NoDup_app; [assumption|repeat constructor; simpl; tauto|].
      intros a Ha [<-|[]]. apply in_map_iff in Ha.
      destruct Ha as [r [Hk Hr]].
      assert (existsb (item_key_is itemID event_info) (items_info s) = true).
      { apply existsb_exists. exists r. split; [assumption|].
        unfold item_key in Hk. injection Hk as Hk1 Hk2.
        unfold item_key_is. rewrite Hk1, Hk2, Nat.eqb_refl, String.eqb_refl.
        reflexivity. }
      congruence.
  - unfold update_item. rewrite map_map. erewrite map_ext; [exact Hii|].
    intros r. destruct (Nat.eqb (item_info_id r) id); reflexivity.
  - unfold update_item. rewrite map_map. erewrite map_ext; [exact Hik|].
    intros r. destruct (Nat.eqb (item_info_id r) id); reflexivity.
  - unfold soft_delete_item. rewrite map_map.
    erewrite map_ext; [exact Hii|].
    intros r. destruct (Nat.eqb (item_info_id r) id); reflexivity.
  - unfold soft_delete_item. rewrite map_map.
    erewrite map_ext; [exact Hik|].
    intros r. destruct (Nat.eqb (item_info_id r) id); reflexivity.
  - unfold insert_ticket.
    destruct (existsb (same_position t) (tickets_tbl s)) eqn:He.
    + unfold update_ticket. rewrite map_map.
      erewrite map_ext; [exact Hpos|].
      intros r. destruct (same_position t r); reflexivity.
    + rewrite map_app. simpl.
      apply NoDup_app; [assumption|repeat constructor; simpl; tauto|].
      intros a Ha [<-|[]]. apply in_map_iff in Ha.
      destruct Ha as [r [Hk Hr]].
      assert (existsb (same_position t) (tickets_tbl s) = true).
      { apply existsb_exists. exists r. split; [assumption|].
        unfold same_position. rewrite Hk. apply String.eqb_refl. }
      congruence.
  - unfold update_ticket. rewrite map_map. erewrite map_ext; [exact Hpos|].
    intros r. destruct (same_position t r); reflexivity.
  - unfold soft_delete_ticket. rewrite map_map.
    erewrite map_ext; [exact Hpos|].
    intros r. destruct (same_position t r); reflexivity.
Qed.

(** X13: the ids and the natural keys of the store stay distinct through the
    sync of an event and through a whole pass: no sync ever creates a
    second EventInfo id, ItemInfo id, ItemInfo (event, item id) key or
    Ticket position id. *)
Theorem sync_never_duplicates_a_key organizer event data env svc w :
  store_wf (db w) ->
  store_wf (db (snd (syncEvent organizer event data w)))
  /\ store_wf (db (snd (trySync env svc w))).
Proof.
  intros H. split.
  - revert H.
    apply (keeps_syncEvent (fun s s' => store_wf s -> store_wf s')); auto.
    intros wr s _. apply store_wf_write.
  - revert H.
    apply (keeps_trySync (fun s s' => store_wf s -> store_wf s')); auto.
    intros wr s _. apply store_wf_write.
Qed.

Lemma sync_never_duplicates_a_key_witness :
  store_wf (db (snd (syncEvent Samples.organizer1 Samples.event_a
                       Samples.data_a (init_world Samples.stale_store))))
  /\ store_wf (db (snd (trySync (Samples.env_ok Samples.config12)
                          (new_service Samples.api_ok)
                          (init_world Samples.stale_store)))).
Proof.
  apply (sync_never_duplicates_a_key Samples.organizer1 Samples.event_a
           Samples.data_a (Samples.env_ok Samples.config12)
           (new_service Samples.api_ok) (init_world Samples.stale_store)).
  constructor; simpl; nodup_concrete.
Defined.


(** ** A pass, from the configuration load to the readiness flag *)

(** X14: when the configuration cannot be loaded, the pass is over at once:
    nothing is fetched or written, the store is as it was, the failure is
    reported and the service, its readiness flag included, is
    unchanged. *)
Theorem trySync_without_configuration env svc w :
  loaded_config env = None ->
  trySync env svc w = (svc, aborted_with ConfigNotLoaded w).
Proof.
  intros H. unfold trySync, trySync_body, getDevconnectPretixConfig,
              bind, ret.
  rewrite H. reflexivity.
Qed.

Lemma trySync_without_configuration_witness :
  trySync MoreSamples.env_no_config (new_service Samples.api_ok)
    (init_world Samples.stale_store)
  = (new_service Samples.api_ok,
     aborted_with ConfigNotLoaded (init_world Samples.stale_store)).
Proof.
  apply (trySync_without_configuration MoreSamples.env_no_config
           (new_service Samples.api_ok) (init_world Samples.stale_store)).
  reflexivity.
Defined.

(** X15: when the configuration loads, the pass syncs the organizers; the
    group-membership reload comes after the sync and decides alone
    whether the pass counts: if it resolves the readiness flag is set, if
    it rejects the rejection is reported and the service is unchanged,
    while the store keeps what the sync wrote. *)
Theorem trySync_with_configuration env svc w cfg :
  loaded_config env = Some cfg ->
  trySync env svc w
  = if reload_resolves env
    then ({| pretixAPI := pretixAPI svc; timeout := timeout svc;
             hasCompletedSyncSinceStarting := true |},
          snd (sync (pretixAPI svc) cfg w))
    else (svc,
          aborted_with ReloadRejected (snd (sync (pretixAPI svc) cfg w))).
Proof.
  intros H. unfold trySync, trySync_body, getDevconnectPretixConfig,
              bind at 1, ret.
  rewrite H. unfold bind.
  rewrite sync_runs_every_organizer. simpl.
  unfold semaphore_reload. destruct (reload_resolves env); reflexivity.
Qed.

Lemma trySync_with_configuration_witness :
  trySync MoreSamples.env_reload_rejects (new_service Samples.api_ok)
    (init_world empty_store)
  = if reload_resolves MoreSamples.env_reload_rejects
    then ({| pretixAPI := Samples.api_ok; timeout := None;
             hasCompletedSyncSinceStarting := true |},
          snd (sync Samples.api_ok Samples.config1 (init_world empty_store)))
    else (new_service Samples.api_ok,
          aborted_with ReloadRejected
            (snd (sync Samples.api_ok Samples.config1
                    (init_world empty_store)))).
Proof.
  apply (trySync_with_configuration MoreSamples.env_reload_rejects
           (new_service Samples.api_ok) (init_world empty_store)
           Samples.config1).
  reflexivity.
Defined.

(** ** The service object: [replaceApi], the timer, [stop] *)

(** [replaceApi] always installs the new client and resets the readiness
    flag; it leaves the stored timer handle and the world alone; it
    cancels the timer of the stored handle and starts a loop exactly when
    a handle is stored, so on a service whose first pass has not
    completed it starts nothing. *)
Theorem replaceApi_effect newAPI e :
  pretixAPI (service (replaceApi newAPI e)) = newAPI
  /\ hasCompletedSyncSinceStarting (service (replaceApi newAPI e)) = false
  /\ timeout (service (replaceApi newAPI e)) = timeout (service e)
  /\ world (replaceApi newAPI e) = world e
  /\ in_flight (replaceApi newAPI e)
     = (if wasRunning e then S (in_flight e) else in_flight e)
  /\ armed (replaceApi newAPI e)
     = match timeout (service e) with
       | Some h => clearTimeout h (armed e)
       | None => armed e
       end.
Proof.
  unfold replaceApi, wasRunning, stop.
  destruct (timeout (service e)) as [h|] eqn:Ht; simpl;
    rewrite ?Ht; repeat split; reflexivity.
Qed.

Lemma loop_step_waiting_or_running e ev :
  (in_flight e = 1 /\ armed e = []) \/ (exists h, waiting_on h e) ->
  (in_flight (loop_step e ev) = 1 /\ armed (loop_step e ev) = [])
  \/ (exists h, waiting_on h (loop_step e ev)).
Proof.
  intros [[Hf Ha]|[h [Hf [Ha Ht]]]]; destruct ev as [env|h']; simpl.
  - right. unfold pass_completes. rewrite Hf.
    destruct (trySync env (service e) (world e)) as [svc w].
    exists (next_handle e). unfold waiting_on. simpl. rewrite Ha. auto.
  - left. unfold timer_fires. rewrite Ha. simpl. auto.
  - right. exists h. unfold pass_completes. rewrite Hf.
    unfold waiting_on. auto.
  - unfold timer_fires. rewrite Ha. simpl.
    destruct (Nat.eqb h' h) eqn:E.
    + left. simpl. rewrite Hf. apply Nat.eqb_eq in E. subst h'.
      unfold clearTimeout. simpl. rewrite Nat.eqb_refl. simpl. auto.
    + right. exists h. unfold waiting_on. auto.
Qed.

(** X16: passes never overlap and timers never pile up: once the service has
    been started, whatever passes complete and whatever timers fire, the
    loop is either running one pass with no timer pending, or waiting on
    exactly one timer, the one whose handle the service stores. *)
Theorem sync_loop_is_single isZuzalu api s e evs :
  startDevconnectPretixSyncService isZuzalu api s = Some e ->
  (in_flight (run_loop evs e) = 1 /\ armed (run_loop evs e) = [])
  \/ (exists h, waiting_on h (run_loop evs e)).
Proof.
  intros H. unfold startDevconnectPretixSyncService in H.
  destruct isZuzalu; [discriminate|].
  destruct api as [a|]; [|discriminate]. injection H as <-.
  assert (H0 : (in_flight (startSyncLoop (new_engine a s)) = 1
                /\ armed (startSyncLoop (new_engine a s)) = [])
               \/ (exists h, waiting_on h (startSyncLoop (new_engine a s))))
    by (left; split; reflexivity).
  revert H0. generalize (startSyncLoop (new_engine a s)).
  unfold run_loop. induction evs as [|ev evs IH]; intros e H0; simpl.
  - assumption.
  - apply IH. apply loop_step_waiting_or_running. assumption.
Qed.

Lemma sync_loop_is_single_witness :
  let e := startSyncLoop (new_engine Samples.api_ok empty_store) in
  let evs := [PassCompletes (Samples.env_ok Samples.config1); TimerFires 0;
              TimerFires 0; PassCompletes MoreSamples.env_no_config] in
  (in_flight (run_loop evs e) = 1 /\ armed (run_loop evs e) = [])
  \/ (exists h, waiting_on h (run_loop evs e)).
Proof.
  intros e evs.
  apply (sync_loop_is_single false (Some Samples.api_ok) empty_store e evs).
  reflexivity.
Defined.

Lemma run_loop_stopped evs e :
  in_flight e = 0 -> armed e = [] -> run_loop evs e = e.
Proof.
  revert e. unfold run_loop.
  induction evs as [|ev evs IH]; intros e Hf Ha; simpl; [reflexivity|].
  assert (Hs : loop_step e ev = e).
  { destruct ev; simpl.
    - unfold pass_completes. rewrite Hf. reflexivity.
    - unfold timer_fires. rewrite Ha. reflexivity. }
  rewrite Hs. apply IH; assumption.
Qed.

(** X17: [stop] ends a loop that is waiting for its timer: the timer is
    cancelled, the loop is no longer alive, and from then on no pass
    runs, so the world stays as it is whatever timer fires. *)
Theorem stop_ends_a_waiting_loop e h evs :
  waiting_on h e ->
  loop_alive (stop e) = false
  /\ run_loop evs (stop e) = stop e
  /\ world (run_loop evs (stop e)) = world e.
Proof.
  intros [Hf [Ha Ht]].
  assert (Hfs : in_flight (stop e) = 0)
    by (unfold stop; rewrite Ht; simpl; assumption).
  assert (Has : armed (stop e) = []).
  { unfold stop. rewrite Ht. simpl. rewrite Ha. unfold clearTimeout. simpl.
    rewrite Nat.eqb_refl. reflexivity. }
  rewrite (run_loop_stopped evs (stop e) Hfs Has).
  split; [|split; [reflexivity|]].
  - unfold loop_alive. rewrite Hfs, Has. reflexivity.
  - unfold stop. rewrite Ht. reflexivity.
Qed.

Lemma stop_ends_a_waiting_loop_witness :
  loop_alive (stop MoreSamples.waiting_engine) = false
  /\ run_loop [TimerFires 0; PassCompletes (Samples.env_ok Samples.config1)]
       (stop MoreSamples.waiting_engine)
     = stop MoreSamples.waiting_engine
  /\ world (run_loop
              [TimerFires 0; PassCompletes (Samples.env_ok Samples.config1)]
              (stop MoreSamples.waiting_engine))
     = world MoreSamples.waiting_engine.
Proof.
  apply (stop_ends_a_waiting_loop MoreSamples.waiting_engine 0
           [TimerFires 0; PassCompletes (Samples.env_ok Samples.config1)]).
  unfold waiting_on. repeat split; reflexivity.
Defined.

(** X18: [stop] does not end a loop whose pass is in flight: the pass runs to
    completion and then arms the timer of the next pass, so the loop is
    alive again and waiting. *)
Theorem stop_during_a_pass_does_not_end_the_loop e env :
  in_flight e = 1 -> armed e = [] ->
  in_flight (stop e) = 1
  /\ waiting_on (next_handle e) (pass_completes env (stop e))
  /\ loop_alive (pass_completes env (stop e)) = true.
Proof.
  intros Hf Ha.
  assert (Hs : in_flight (stop e) = 1 /\ armed (stop e) = []
               /\ next_handle (stop e) = next_handle e).
  { unfold stop. destruct (timeout (service e)); simpl; rewrite ?Ha; auto. }
  destruct Hs as [Hfs [Has Hns]]. split; [assumption|].
  unfold pass_completes. rewrite Hfs.
  destruct (trySync env (service (stop e)) (world (stop e))) as [svc w].
  unfold waiting_on, loop_alive. simpl. rewrite Has, Hns. auto.
Qed.

Lemma stop_during_a_pass_does_not_end_the_loop_witness :
  in_flight (stop MoreSamples.running_engine) = 1
  /\ waiting_on (next_handle MoreSamples.running_engine)
       (pass_completes (Samples.env_ok Samples.config1)
          (stop MoreSamples.running_engine))
  /\ loop_alive (pass_completes (Samples.env_ok Samples.config1)
                   (stop MoreSamples.running_engine)) = true.
Proof.
  apply (stop_during_a_pass_does_not_end_the_loop MoreSamples.running_engine
           (Samples.env_ok Samples.config1)); reflexivity.
Defined.

(** ** Database configuration *)

(** X24: [getDatabaseConfiguration] returns a configuration exactly when the
    user name, the password, the host and the database name are defined
    and DATABASE_SSL is "true" or "false"; the configuration then carries
    these four values, port 5432, and TLS settings exactly when
    DATABASE_SSL is "true". *)
Theorem getDatabaseConfiguration_succeeds_iff env cfg :
  PostgresConfiguration.getDatabaseConfiguration env = inr cfg
  <-> PostgresConfiguration.DATABASE_USERNAME env
        = Some (PostgresConfiguration.user cfg)
      /\ PostgresConfiguration.DATABASE_PASSWORD env
         = Some (PostgresConfiguration.password cfg)
      /\ PostgresConfiguration.DATABASE_HOST env
         = Some (PostgresConfiguration.host cfg)
      /\ PostgresConfiguration.DATABASE_DB_NAME env
         = Some (PostgresConfiguration.database cfg)
      /\ PostgresConfiguration.port cfg = 5432%N
      /\ PostgresConfiguration.connectionTimeoutMillis cfg = 16000%N
      /\ PostgresConfiguration.idleTimeoutMillis cfg = 8000%N
      /\ PostgresConfiguration.poolSize cfg = 8%N
      /\ ((PostgresConfiguration.DATABASE_SSL env = Some "true"
           /\ PostgresConfiguration.ssl cfg
              = Some {| PostgresConfiguration.rejectUnauthorized := false |})
          \/ (PostgresConfiguration.DATABASE_SSL env = Some "false"
              /\ PostgresConfiguration.ssl cfg = None)).
Proof.
  unfold PostgresConfiguration.getDatabaseConfiguration.
  destruct env as [u p h d s]. destruct cfg as [cu cp ch cd cport cssl ct ci cs].
  simpl. split.
  - destruct u as [u|]; [|discriminate]. destruct p as [p|]; [|discriminate].
    destruct h as [h|]; [|discriminate]. destruct d as [d|]; [|discriminate].
    unfold PostgresConfiguration.includes,
      PostgresConfiguration.or_empty. simpl.
    destruct s as [s|]; simpl; [|discriminate].
    destruct (String.eqb s "true") eqn:Et; simpl.
    + intros H. injection H as <- <- <- <- <- <- <- <- <-.
      apply String.eqb_eq in Et. subst s. repeat split. left. auto.
    + destruct (String.eqb s "false") eqn:Ef; simpl; [|discriminate].
      intros H. injection H as <- <- <- <- <- <- <- <- <-.
      apply String.eqb_eq in Ef. subst s. repeat split. right. auto.
  - intros [-> [-> [-> [-> [-> [-> [-> [-> [[-> ->]|[-> ->]]]]]]]]]];
      reflexivity.
Qed.



(** X19: [replaceApi] called while a pass is in flight, once a handle has been
    stored by an earlier pass, starts a second loop beside the running
    one: two passes are in flight, and when both have completed two
    timers are pending. *)
Theorem replaceApi_during_a_pass_doubles_the_loop e h newAPI env1 env2 :
  in_flight e = 1 -> armed e = [] -> timeout (service e) = Some h ->
  in_flight (replaceApi newAPI e) = 2
  /\ List.length
       (armed (pass_completes env2 (pass_completes env1 (replaceApi newAPI e))))
     = 2.
Proof.
  intros Hf Ha Ht.
  destruct (replaceApi_effect newAPI e) as [_ [_ [_ [_ [Hi Har]]]]].
  unfold wasRunning in Hi. rewrite Ht, Hf in Hi. rewrite Ht, Ha in Har.
  split; [assumption|].
  unfold pass_completes at 2. rewrite Hi.
  destruct (trySync env1 _ _) as [svc1 w1].
  unfold pass_completes. simpl.
  destruct (trySync env2 _ w1) as [svc2 w2]. simpl. rewrite Har.
  reflexivity.
Qed.

Lemma replaceApi_during_a_pass_doubles_the_loop_witness :
  let e := timer_fires 0 MoreSamples.waiting_engine in
  in_flight (replaceApi Samples.api_down e) = 2
  /\ List.length
       (armed (pass_completes MoreSamples.env_no_config
                 (pass_completes MoreSamples.env_no_config
                    (replaceApi Samples.api_down e))))
     = 2.
Proof.
  intros e.
  apply (replaceApi_during_a_pass_doubles_the_loop e 0 Samples.api_down
           MoreSamples.env_no_config MoreSamples.env_no_config);
    reflexivity.
Defined.

(** ** What the item phase leaves in the store *)

Lemma items_after_item_phase organizer event its w info :
  store_wf (db w) ->
  fetchPretixEventInfo (db w) (event_config_id event) = Some info ->
  drifted event its = false ->
  syncItemInfos organizer event its w
  = (Resolved true,
     wrote (item_writes (event_info_id info)
              (newActiveItemsOf (activeItemIDs event) its)
              (fetchPretixItemsInfoByEvent (db w) (event_info_id info))) w)
  /\ db (snd (syncItemInfos organizer event its w))
     = {| events_info := events_info (db w);
          items_info :=
            ItemTable.synced (event_info_id info)
              (newActiveItemsOf (activeItemIDs event) its)
              (items_info (db w));
          tickets_tbl := tickets_tbl (db w) |}.
Proof.
  intros [_ Hii Hik _] Hf Hd.
  rewrite (syncItemInfos_wrote organizer event its w info Hf Hd).
  split; [reflexivity|]. simpl.
  rewrite apply_item_writes by apply item_writes_are_item_writes.
  destruct (item_phase_table (event_info_id info)
              (newActiveItemsOf (activeItemIDs event) its) (db w) Hii Hik)
    as [Ht _].
  rewrite Ht. reflexivity.
Qed.

Lemma newActiveItemsOf_in activeIDs its item :
  In item (newActiveItemsOf activeIDs its)
  <-> In item its /\ In (api_item_key item) activeIDs.
Proof.
  unfold newActiveItemsOf. rewrite filter_In, set_has_In. tauto.
Qed.

(** X20: after a successful item phase on a well-formed store, with fetched
    items of distinct ids, the active ItemInfo rows of the event are the
    fetched items of the allow-list: each such item has an active row
    under its fetched name, and each active row is such an item. *)
Theorem item_phase_result organizer event its w info :
  store_wf (db w) ->
  NoDup (map api_item_key its) ->
  fetchPretixEventInfo (db w) (event_config_id event) = Some info ->
  drifted event its = false ->
  let w' := snd (syncItemInfos organizer event its w) in
  let rows := fetchPretixItemsInfoByEvent (db w') (event_info_id info) in
  fst (syncItemInfos organizer event its w) = Resolved true
  /\ (forall item,
        In item its -> In (api_item_key item) (activeItemIDs event) ->
        exists row,
          In row rows /\ item_id row = api_item_key item
          /\ item_name row = getI18nString (item_api_name item))
  /\ (forall row,
        In row rows ->
        exists item,
          In item its /\ In (api_item_key item) (activeItemIDs event)
          /\ item_id row = api_item_key item
          /\ item_name row = getI18nString (item_api_name item)).
Proof.
  intros Hwf Hits Hf Hd. cbv zeta.
  destruct (items_after_item_phase organizer event its w info Hwf Hf Hd)
    as [Hres Hdb].
  set (E := event_info_id info).
  set (na := newActiveItemsOf (activeItemIDs event) its).
  fold E na in Hdb.
  assert (Hna : NoDup (map api_item_key na))
    by (apply NoDup_map_filter; assumption).
  assert (Hx : NoDup (map item_id
                        (Diff.existing (ItemTable.addr E) ItemTable.live
                           (items_info (db w)))))
    by (apply existing_items_nodup; apply Hwf).
  assert (Hrows : fetchPretixItemsInfoByEvent
                    (db (snd (syncItemInfos organizer event its w))) E
                  = Diff.existing (ItemTable.addr E) ItemTable.live
                      (ItemTable.synced E na (items_info (db w)))).
  { unfold fetchPretixItemsInfoByEvent. rewrite Hdb. reflexivity. }
  rewrite Hrows.
  assert (Hagree : forall row,
            In row (Diff.existing (ItemTable.addr E) ItemTable.live
                      (ItemTable.synced E na (items_info (db w)))) ->
            exists item,
              In item na /\ api_item_key item = item_id row
              /\ item_name row = getI18nString (item_api_name item)).
  { intros row Hrow. unfold Diff.existing in Hrow. apply filter_In in Hrow.
    destruct Hrow as [Hrow Hal]. apply andb_true_iff in Hal.
    destruct Hal as [Ha Hl].
    destruct (synced_rows_agree item_id api_item_key (ItemTable.addr E)
                ItemTable.live ItemTable.differs ItemTable.put ItemTable.del
                (ItemTable.mk E) na) with (t := items_info (db w)) (r := row)
      as [item [Hi [Hk Hdiff]]]; try reflexivity; try assumption.
    - intros n r. unfold ItemTable.differs, ItemTable.put. simpl.
      rewrite String.eqb_refl. reflexivity.
    - intros n t0. unfold ItemTable.differs, ItemTable.mk. simpl.
      rewrite String.eqb_refl. reflexivity.
    - exists item. split; [assumption|]. split; [assumption|].
      unfold ItemTable.differs in Hdiff. apply negb_false_iff in Hdiff.
      apply String.eqb_eq in Hdiff. assumption. }
  rewrite Hres. split; [reflexivity|]. split.
  - intros item Hin Hact.
    assert (Hi : In item na) by (apply newActiveItemsOf_in; auto).
    destruct (synced_covers item_id api_item_key (ItemTable.addr E)
                ItemTable.live ItemTable.differs ItemTable.put ItemTable.del
                (ItemTable.mk E) na) with (t := items_info (db w)) (n := item)
      as [row [Hrow [Ha [Hl Hk]]]]; try reflexivity; try assumption.
    { intros n t0. unfold ItemTable.addr, ItemTable.mk. simpl.
      apply Nat.eqb_refl. }
    assert (Hex : In row (Diff.existing (ItemTable.addr E) ItemTable.live
                            (ItemTable.synced E na (items_info (db w))))).
    { unfold Diff.existing. apply filter_In. rewrite Ha, Hl. auto. }
    exists row. split; [assumption|]. split; [assumption|].
    destruct (Hagree row Hex) as [item' [Hi' [Hk' Hn']]].
    assert (item' = item).
    { apply (NoDup_map_eq api_item_key na); auto. congruence. }
    subst item'. assumption.
  - intros row Hrow. destruct (Hagree row Hrow) as [item [Hi [Hk Hn]]].
    apply newActiveItemsOf_in in Hi. destruct Hi as [Hi Hact].
    exists item. auto.
Qed.

Lemma item_phase_result_witness :
  let w := init_world Samples.stale_store in
  let w' := snd (syncItemInfos Samples.organizer1 Samples.event_a
                   [Samples.item7; Samples.item8] w) in
  let rows := fetchPretixItemsInfoByEvent (db w') 4 in
  fst (syncItemInfos Samples.organizer1 Samples.event_a
         [Samples.item7; Samples.item8] w) = Resolved true
  /\ (forall item,
        In item [Samples.item7; Samples.item8] ->
        In (api_item_key item) (activeItemIDs Samples.event_a) ->
        exists row,
          In row rows /\ item_id row = api_item_key item
          /\ item_name row = getI18nString (item_api_name item))
  /\ (forall row,
        In row rows ->
        exists item,
          In item [Samples.item7; Samples.item8]
          /\ In (api_item_key item) (activeItemIDs Samples.event_a)
          /\ item_id row = api_item_key item
          /\ item_name row = getI18nString (item_api_name item)).
Proof.
  apply (item_phase_result Samples.organizer1 Samples.event_a
           [Samples.item7; Samples.item8] (init_world Samples.stale_store)
           {| event_info_id := 4; pretix_events_config_id := "cfg-a";
              event_name := "Old name"; event_is_deleted := false |}).
  - constructor; simpl; nodup_concrete.
  - vm_compute. nodup_concrete.
  - reflexivity.
  - reflexivity.
Defined.

(** ** The item phase and the rows of other events *)

Section DiffFrame.
Context {R N : Type}.
Variables (rk : R -> string) (nk : N -> string).
Variables (addr live : R -> bool).
Variable differs : R -> N -> bool.
Variable put : N -> R -> R.
Variable del : R -> R.
Variable mk : N -> list R -> R.
Variable incoming : list N.

Hypothesis put_addr : forall n r, addr (put n r) = addr r.
Hypothesis del_addr : forall r, addr (del r) = addr r.
Hypothesis mk_addr : forall n t, addr (mk n t) = true.

Lemma modify_outside k f t :
  (forall r, addr (f r) = addr r) ->
  filter (fun r => negb (addr r)) (Diff.modify rk addr k f t)
  = filter (fun r => negb (addr r)) t.
Proof.
  intros Hf. unfold Diff.modify.
  induction t as [|a t IH]; simpl; [reflexivity|].
  destruct (Diff.hit rk addr k a) eqn:Hh.
  - apply (hit_true rk addr) in Hh. destruct Hh as [Ha _].
    rewrite Hf, Ha. simpl. exact IH.
  - rewrite IH. reflexivity.
Qed.

Lemma upsert_outside n t :
  filter (fun r => negb (addr r)) (Diff.upsert rk nk addr put mk n t)
  = filter (fun r => negb (addr r)) t.
Proof.
  unfold Diff.upsert. destruct (existsb (Diff.hit rk addr (nk n)) t).
  - apply modify_outside. intros r. apply put_addr.
  - rewrite filter_app. simpl. rewrite mk_addr. simpl. apply app_nil_r.
Qed.

(** The rows outside the addressed slice of the table are not touched. *)
Lemma synced_outside t :
  filter (fun r => negb (addr r))
    (Diff.synced rk nk addr live differs put del mk incoming t)
  = filter (fun r => negb (addr r)) t.
Proof.
  unfold Diff.synced, Diff.updated, Diff.inserted.
  generalize (Diff.to_remove rk nk incoming (Diff.existing addr live t)).
  generalize (Diff.to_update rk nk differs incoming
                (Diff.existing addr live t)).
  generalize (Diff.to_insert rk nk incoming (Diff.existing addr live t)).
  intros l1 l2 l3.
  assert (H1 : forall l u,
            filter (fun r => negb (addr r))
              (fold_left (fun t0 n => Diff.upsert rk nk addr put mk n t0) l u)
            = filter (fun r => negb (addr r)) u).
  { induction l as [|n l IH]; intros u; simpl; [reflexivity|].
    rewrite IH. apply upsert_outside. }
  assert (H2 : forall l u,
            filter (fun r => negb (addr r))
              (fold_left (fun t0 n => Diff.modify rk addr (nk n) (put n) t0)
                 l u)
            = filter (fun r => negb (addr r)) u).
  { induction l as [|n l IH]; intros u; simpl; [reflexivity|].
    rewrite IH. apply modify_outside. intros r. apply put_addr. }
  assert (H3 : forall l u,
            filter (fun r => negb (addr r))
              (fold_left (fun t0 e => Diff.modify rk addr (rk e) del t0) l u)
            = filter (fun r => negb (addr r)) u).
  { induction l as [|n l IH]; intros u; simpl; [reflexivity|].
    rewrite IH. apply modify_outside. exact del_addr. }
  rewrite H3, H2, H1. reflexivity.
Qed.

End DiffFrame.

Lemma filter_filter_implied {Row} (keep inner : Row -> bool) (rows : list Row)
  (H : forall r, keep r = true -> inner r = true) :
  filter keep (filter inner rows) = filter keep rows.
Proof.
  induction rows as [|a l IH]; simpl; [reflexivity|].
  destruct (inner a) eqn:Hi; simpl.
  - rewrite IH. reflexivity.
  - destruct (keep a) eqn:Hk; [|exact IH].
    rewrite (H a Hk) in Hi. discriminate.
Qed.

(** X21: on a well-formed store, the item phase of an event never touches the
    ItemInfo rows of another event, whether it succeeds or fails, and it
    touches neither the EventInfo rows nor the tickets. *)
Theorem item_phase_leaves_other_events organizer event its w info other :
  store_wf (db w) ->
  fetchPretixEventInfo (db w) (event_config_id event) = Some info ->
  other <> event_info_id info ->
  let w' := snd (syncItemInfos organizer event its w) in
  filter (fun r => Nat.eqb (devconnect_pretix_events_info_id r) other)
    (items_info (db w'))
  = filter (fun r => Nat.eqb (devconnect_pretix_events_info_id r) other)
      (items_info (db w))
  /\ events_info (db w') = events_info (db w)
  /\ tickets_tbl (db w') = tickets_tbl (db w).
Proof.
  intros Hwf Hf Hne. cbv zeta.
  destruct (drifted event its) eqn:Hd.
  - rewrite (syncItemInfos_drifted organizer event its w info Hf Hd).
    simpl. auto.
  - destruct (items_after_item_phase organizer event its w info Hwf Hf Hd)
      as [_ Hdb].
    rewrite Hdb. simpl. split; [|auto].
    set (E := event_info_id info) in *.
    set (na := newActiveItemsOf (activeItemIDs event) its).
    assert (Himp : forall r : PretixItemInfo,
              Nat.eqb (devconnect_pretix_events_info_id r) other = true ->
              negb (ItemTable.addr E r) = true).
    { intros r Hr. apply Nat.eqb_eq in Hr. unfold ItemTable.addr.
      apply negb_true_iff. apply Nat.eqb_neq. congruence. }
    rewrite <- (filter_filter_implied _ (fun r => negb (ItemTable.addr E r))
                  (ItemTable.synced E na (items_info (db w))) Himp).
    rewrite <- (filter_filter_implied _ (fun r => negb (ItemTable.addr E r))
                  (items_info (db w)) Himp).
    unfold ItemTable.synced. rewrite synced_outside; try reflexivity.
    intros n t0. unfold ItemTable.addr, ItemTable.mk. simpl.
    apply Nat.eqb_refl.
Qed.

Lemma item_phase_leaves_other_events_witness :
  let w := init_world MoreSamples.two_event_store in
  let w' := snd (syncItemInfos Samples.organizer1 Samples.event_a
                   [Samples.item7; Samples.item8] w) in
  filter (fun r => Nat.eqb (devconnect_pretix_events_info_id r) 2)
    (items_info (db w'))
  = filter (fun r => Nat.eqb (devconnect_pretix_events_info_id r) 2)
      (items_info (db w))
  /\ events_info (db w') = events_info (db w)
  /\ tickets_tbl (db w') = tickets_tbl (db w).
Proof.
  apply (item_phase_leaves_other_events Samples.organizer1 Samples.event_a
           [Samples.item7; Samples.item8]
           (init_world MoreSamples.two_event_store)
           {| event_info_id := 1; pretix_events_config_id := "cfg-a";
              event_name := "Event A"; event_is_deleted := false |} 2).
  - constructor; vm_compute; nodup_concrete.
  - reflexivity.
  - discriminate.
Defined.


(** ** What the ticket phase leaves in the store *)

Lemma option_string_eqb_eq a b : option_string_eqb a b = true -> a = b.
Proof.
  destruct a, b; simpl; intros H; try discriminate; [|reflexivity].
  apply String.eqb_eq in H. congruence.
Qed.

Lemma not_different_agrees row n :
  pretixTicketsDifferent row n = false ->
  is_deleted n = false ->
  position_id row = position_id n ->
  ticket_agrees row n.
Proof.
  unfold pretixTicketsDifferent. intros H Hd Hp.
  apply negb_false_iff in H.
  repeat (apply andb_true_iff in H; destruct H as [H ?]).
  apply String.eqb_eq in H. apply option_string_eqb_eq in H3.
  apply Nat.eqb_eq in H2. apply Bool.eqb_prop in H1.
  apply String.eqb_eq in H0.
  unfold ticket_agrees. repeat split; congruence.
Qed.

Lemma tickets_after_ticket_phase organizer event orders w info :
  fetchPretixEventInfo (db w) (event_config_id event) = Some info ->
  let tk := fst (ordersToDevconnectTickets orders
                   (fetchPretixItemsInfoByEvent (db w) (event_info_id info))) in
  let w' := snd (syncTickets organizer event orders w) in
  fst (syncTickets organizer event orders w) = Resolved true
  /\ db w'
     = {| events_info := events_info (db w);
          items_info := items_info (db w);
          tickets_tbl := TicketTable.synced (db w) (event_config_id event)
                           tk (tickets_tbl (db w)) |}
  /\ fetchDevconnectPretixTicketsByEvent (db w') (event_config_id event)
     = Diff.existing TicketTable.addr
         (TicketTable.live (db w) (event_config_id event))
         (TicketTable.synced (db w) (event_config_id event) tk
            (tickets_tbl (db w))).
Proof.
  intros Hf. cbv zeta.
  rewrite (syncTickets_wrote organizer event orders w info Hf). simpl.
  rewrite apply_ticket_writes by apply ticket_writes_are_ticket_writes.
  rewrite ticket_phase_table.
  split; [reflexivity|]. split; [reflexivity|].
  unfold fetchDevconnectPretixTicketsByEvent, Diff.existing. simpl.
  apply filter_ext. intros t0. reflexivity.
Qed.

Lemma ticket_phase_rows organizer event orders w info :
  store_wf (db w) ->
  NoDup (position_keys orders) ->
  fetchPretixEventInfo (db w) (event_config_id event) = Some info ->
  let tk := fst (ordersToDevconnectTickets orders
                   (fetchPretixItemsInfoByEvent (db w) (event_info_id info))) in
  let w' := snd (syncTickets organizer event orders w) in
  let rows :=
    fetchDevconnectPretixTicketsByEvent (db w') (event_config_id event) in
  (forall n, In n tk -> exists row, In row rows /\ ticket_agrees row n)
  /\ (forall row, In row rows -> exists n, In n tk /\ ticket_agrees row n).
Proof.
  intros Hwf Hkeys Hf. cbv zeta.
  destruct (tickets_after_ticket_phase organizer event orders w info Hf)
    as [_ [_ Hrows]].
  rewrite Hrows. clear Hrows.
  set (c := event_config_id event).
  set (tk := fst (ordersToDevconnectTickets orders
                    (fetchPretixItemsInfoByEvent (db w) (event_info_id info)))).
  assert (Htk : NoDup (map position_id tk))
    by (apply converted_tickets_nodup; assumption).
  assert (Hin : forall n, In n tk ->
                  ticket_in_event (db w) c n = true /\ is_deleted n = false).
  { intros n Hn. split.
    - apply (converted_ticket_in_event (db w) c info orders n Hf Hn).
    - apply (converted_tickets_unconsumed _ _ _ Hn). }
  assert (Hx : NoDup (map position_id
                        (Diff.existing TicketTable.addr
                           (TicketTable.live (db w) c) (tickets_tbl (db w)))))
    by (unfold Diff.existing; apply NoDup_map_filter; apply Hwf).
  assert (Hagree : forall row,
            In row (Diff.existing TicketTable.addr (TicketTable.live (db w) c)
                      (TicketTable.synced (db w) c tk (tickets_tbl (db w)))) ->
            exists n, In n tk /\ ticket_agrees row n).
  { intros row Hrow. unfold Diff.existing in Hrow. apply filter_In in Hrow.
    destruct Hrow as [Hrow Hal]. apply andb_true_iff in Hal.
    destruct Hal as [Ha Hl].
    destruct (synced_rows_agree position_id position_id TicketTable.addr
                (TicketTable.live (db w) c) pretixTicketsDifferent set_ticket
                set_ticket_deleted TicketTable.mk tk)
      with (t := tickets_tbl (db w)) (r := row)
      as [n [Hn [Hk Hdiff]]]; try reflexivity; try assumption.
    - apply ticket_not_different.
    - intros r. unfold TicketTable.live. simpl. apply andb_false_r.
    - intros n t0. apply ticket_same.
    - exists n. split; [assumption|].
      apply not_different_agrees; [assumption|apply Hin; assumption|].
      symmetry. assumption. }
  split; [|assumption].
  intros n Hn.
  destruct (synced_covers position_id position_id TicketTable.addr
              (TicketTable.live (db w) c) pretixTicketsDifferent set_ticket
              set_ticket_deleted TicketTable.mk tk)
    with (t := tickets_tbl (db w)) (n := n)
    as [row [Hrow [Ha [Hl Hk]]]]; try reflexivity; try assumption.
  { intros m r Hm. destruct (Hin m Hm) as [Hev Hd].
    unfold TicketTable.live. simpl. rewrite Hd.
    unfold ticket_in_event in *. simpl. rewrite Hev. reflexivity. }
  { intros m t0 Hm. destruct (Hin m Hm) as [Hev Hd].
    unfold TicketTable.live, TicketTable.mk. rewrite Hev, Hd. reflexivity. }
  assert (Hex : In row (Diff.existing TicketTable.addr
                          (TicketTable.live (db w) c)
                          (TicketTable.synced (db w) c tk
                             (tickets_tbl (db w))))).
  { unfold Diff.existing. apply filter_In. rewrite Ha, Hl. auto. }
  exists row. split; [assumption|].
  destruct (Hagree row Hex) as [n' [Hn' Hag]].
  assert (n' = n).
  { apply (NoDup_map_eq position_id tk); auto.
    destruct Hag as [Hp _]. congruence. }
  subst n'. assumption.
Qed.

(** X22: after the ticket phase on a store with distinct position ids,
    with fetched positions of distinct ids, the active tickets of the
    event are the converted tickets: each converted ticket has an active
    row with its position id, email, name, owning item and secret, and
    each active ticket of the event is such a row. *)
Theorem ticket_phase_result organizer event orders w info :
  store_wf (db w) ->
  NoDup (position_keys orders) ->
  fetchPretixEventInfo (db w) (event_config_id event) = Some info ->
  let tk := fst (ordersToDevconnectTickets orders
                   (fetchPretixItemsInfoByEvent (db w) (event_info_id info))) in
  let w' := snd (syncTickets organizer event orders w) in
  let rows :=
    fetchDevconnectPretixTicketsByEvent (db w') (event_config_id event) in
  (forall n, In n tk -> exists row, In row rows /\ ticket_agrees row n)
  /\ (forall row, In row rows -> exists n, In n tk /\ ticket_agrees row n).
Proof. apply ticket_phase_rows. Qed.

Lemma ticket_phase_result_witness :
  let w := init_world Samples.stale_store in
  let tk := fst (ordersToDevconnectTickets (tickets Samples.data_a)
                   (fetchPretixItemsInfoByEvent (db w) 4)) in
  let w' := snd (syncTickets Samples.organizer1 Samples.event_a
                   (tickets Samples.data_a) w) in
  let rows := fetchDevconnectPretixTicketsByEvent (db w') "cfg-a" in
  (forall n, In n tk -> exists row, In row rows /\ ticket_agrees row n)
  /\ (forall row, In row rows -> exists n, In n tk /\ ticket_agrees row n).
Proof.
  apply (ticket_phase_result Samples.organizer1 Samples.event_a
           (tickets Samples.data_a) (init_world Samples.stale_store)
           {| event_info_id := 4; pretix_events_config_id := "cfg-a";
              event_name := "Old name"; event_is_deleted := false |}).
  - constructor; simpl; nodup_concrete.
  - vm_compute. nodup_concrete.
  - reflexivity.
Defined.

Lemma unique_row_of_key {Row} (key : Row -> string) (rows : list Row) r
  (Hnd : NoDup (map key rows)) (Hin : In r rows) :
  filter (fun x => String.eqb (key x) (key r)) rows = [r].
Proof.
  induction rows as [|a l IH]; simpl; [contradiction|].
  inversion Hnd as [|? ? Hnot Hnd']; subst.
  destruct Hin as [->|Hin].
  - rewrite String.eqb_refl. f_equal. apply filter_nil.
    intros x Hx. destruct (String.eqb (key x) (key r)) eqn:E; [|reflexivity].
    apply String.eqb_eq in E. exfalso. apply Hnot. rewrite <- E.
    apply in_map. assumption.
  - destruct (String.eqb (key a) (key r)) eqn:E.
    + apply String.eqb_eq in E. exfalso. apply Hnot. rewrite E.
      apply in_map. assumption.
    + apply IH; assumption.
Qed.

(** X23: soft-delete is reversible and never duplicates: for a converted
    ticket, whatever row its position id had before (none, an active one
    or a soft-deleted one), the ticket table has after the ticket phase
    exactly one row with that position id; the row is active and carries
    the converted fields, and if a row existed it still has the consumed
    flag it had. *)
Theorem reappearing_ticket_is_reactivated organizer event orders w info n :
  store_wf (db w) ->
  NoDup (position_keys orders) ->
  fetchPretixEventInfo (db w) (event_config_id event) = Some info ->
  In n (fst (ordersToDevconnectTickets orders
               (fetchPretixItemsInfoByEvent (db w) (event_info_id info)))) ->
  let w' := snd (syncTickets organizer event orders w) in
  exists row,
    filter (fun r => String.eqb (position_id r) (position_id n))
      (tickets_tbl (db w')) = [row]
    /\ ticket_agrees row n
    /\ (forall old,
          In old (tickets_tbl (db w)) ->
          position_id old = position_id n ->
          is_consumed row = is_consumed old).
Proof.
  intros Hwf Hkeys Hf Hn. cbv zeta.
  destruct (ticket_phase_rows organizer event orders w info Hwf Hkeys Hf)
    as [Hcov _].
  destruct (Hcov n Hn) as [row [Hrow Hag]].
  assert (Hrow' : In row (tickets_tbl
                            (db (snd (syncTickets organizer event orders w))))).
  { unfold fetchDevconnectPretixTicketsByEvent in Hrow.
    apply filter_In in Hrow. tauto. }
  assert (Hwf' : store_wf (db (snd (syncTickets organizer event orders w)))).
  { revert Hwf.
    apply (keeps_syncTickets (fun s s' => store_wf s -> store_wf s')); auto.
    intros wr s _. apply store_wf_write. }
  exists row. split; [|split; [assumption|]].
  - destruct Hag as [Hp _]. rewrite <- Hp.
    apply unique_row_of_key; [apply Hwf'|assumption].
  - intros old Hold Hpo.
    destruct (keeps_syncTickets consumed_kept consumed_kept_refl
                consumed_kept_trans consumed_kept_write organizer event
                orders w) as [created [Hflags _]].
    assert (Hpc : In (position_id old, is_consumed old)
                    (consumed_flags
                       (db (snd (syncTickets organizer event orders w))))).
    { rewrite Hflags. apply in_or_app. left. unfold consumed_flags.
      apply in_map_iff. exists old. auto. }
    unfold consumed_flags in Hpc. apply in_map_iff in Hpc.
    destruct Hpc as [row' [Heq Hin']]. injection Heq as Hp' Hc'.
    assert (row' = row).
    { apply (NoDup_map_eq position_id _ row' row (wf_positions _ Hwf'));
        auto.
      destruct Hag as [Hp _]. congruence. }
    subst row'. congruence.
Qed.

Lemma reappearing_ticket_is_reactivated_witness :
  let w := init_world MoreSamples.retired_store in
  let n := {| email := "a@x.com"; full_name := Some "Ada";
              devconnect_pretix_items_info_id := 10; is_deleted := false;
              is_consumed := false; position_id := "1001";
              secret := "s1" |} in
  let w' := snd (syncTickets Samples.organizer1 Samples.event_a
                   (tickets Samples.data_a) w) in
  exists row,
    filter (fun r => String.eqb (position_id r) (position_id n))
      (tickets_tbl (db w')) = [row]
    /\ ticket_agrees row n
    /\ (forall old,
          In old (tickets_tbl (db w)) ->
          position_id old = position_id n ->
          is_consumed row = is_consumed old).
Proof.
  intros w n.
  apply (reappearing_ticket_is_reactivated Samples.organizer1 Samples.event_a
           (tickets Samples.data_a) (init_world MoreSamples.retired_store)
           {| event_info_id := 4; pretix_events_config_id := "cfg-a";
              event_name := "Old name"; event_is_deleted := false |} n).
  - constructor; vm_compute; nodup_concrete.
  - vm_compute. nodup_concrete.
  - reflexivity.
  - vm_compute. left. reflexivity.
Defined.
